(** * wazero: configuration, store and instantiation

    A shallow embedding of the configuration builders ([config.go]) and of
    the store ([internal/wasm/store.go]) of the wazero WebAssembly runtime,
    with the properties of its specification proved or refuted on it.

    Conventions.
    - Go's [uint32]/[uint64] values are [Z]; conversions that can wrap are
      written out with [mod].  An [int] (64 bits) holds lengths and offsets
      far below its range and is an unbounded [Z] or [nat].
    - Go maps are stdpp [gmap]s, sets ([map[string]struct{}]) are [gset]s.
    - Objects that the code shares through pointers (maps and slices held by
      a [moduleConfig], [*wasm.Module], [*wasm.Import], [*MemoryInstance])
      live in explicit heaps indexed by locations.
    - A Go [error] is a value of the inductive type [error], one constructor
      per [fmt.Errorf] site; a run-time panic is the outcome [Panic]. *)

From Stdlib Require Import ZArith Lia.
From stdpp Require Import base option list gmap sets strings numbers.

Open Scope Z_scope.

(** ** Feature flags *)

Module Features.

(** Modelled from the spec: [internal/wasm/features.go] is not among the
    sources.  The spec calls the feature set a "bitset of enabled post-1.0
    proposals"; the tests of [config.go] combine flags with [|] and read
    them with [Get].  Each flag is one bit of a [uint64]. *)
Definition FeatureBulkMemoryOperations : Z := Z.shiftl 1 0.
Definition FeatureMultiValue : Z := Z.shiftl 1 1.
Definition FeatureMutableGlobal : Z := Z.shiftl 1 2.
Definition FeatureNonTrappingFloatToIntConversion : Z := Z.shiftl 1 3.
Definition FeatureReferenceTypes : Z := Z.shiftl 1 4.
Definition FeatureSignExtensionOps : Z := Z.shiftl 1 5.

(** Modelled from the spec: [Features.Set] switches the bits of [feature]
    on or off, [Features.Get] tells whether a bit of [feature] is on. *)
Definition Set_ (f feature : Z) (val : bool) : Z :=
  if val then Z.lor f feature else Z.ldiff f feature.

Definition Get (f feature : Z) : bool :=
  negb (Z.land f feature =? 0).

(** Modelled from the spec: the two presets.  WebAssembly 1.0 has mutable
    globals only ("MutableGlobal (default on)"); the 2.0 draft has all. *)
Definition Features20191205 : Z := FeatureMutableGlobal.

Definition Features20220419 : Z :=
  Z.lor Features20191205
    (Z.lor FeatureBulkMemoryOperations
       (Z.lor FeatureMultiValue
          (Z.lor FeatureNonTrappingFloatToIntConversion
             (Z.lor FeatureReferenceTypes FeatureSignExtensionOps)))).

End Features.

(** ** RuntimeConfig *)

Module RuntimeConfig.
Import Features.

(** Modelled from the spec: [wasm.MemoryLimitPages], "hard cap ≤ 65 536". *)
Definition MemoryLimitPages : Z := 65536.

(** The two engine constructors a configuration can carry. *)
Inductive EngineCtor := JITNewEngine | InterpreterNewEngine.

(** [func(minPages uint32, maxPages *uint32) uint32]; [None] is Go's nil. *)
Definition CapacityFn := Z -> option Z -> Z.

Record runtimeConfig := mkRuntimeConfig {
  enabledFeatures : Z;
  newEngine : option EngineCtor;
  memoryLimitPages : Z;
  memoryCapacityPages : option CapacityFn
}.

Definition engineLessConfig : runtimeConfig :=
  {| enabledFeatures := Features20191205;
     newEngine := None;
     memoryLimitPages := MemoryLimitPages;
     memoryCapacityPages := Some (fun minPages _ => minPages) |}.

Definition with_newEngine (c : runtimeConfig) (e : option EngineCtor) :=
  {| enabledFeatures := enabledFeatures c; newEngine := e;
     memoryLimitPages := memoryLimitPages c;
     memoryCapacityPages := memoryCapacityPages c |}.

Definition with_enabledFeatures (c : runtimeConfig) (f : Z) :=
  {| enabledFeatures := f; newEngine := newEngine c;
     memoryLimitPages := memoryLimitPages c;
     memoryCapacityPages := memoryCapacityPages c |}.

Definition NewRuntimeConfigJIT : runtimeConfig :=
  with_newEngine engineLessConfig (Some JITNewEngine).

Definition NewRuntimeConfigInterpreter : runtimeConfig :=
  with_newEngine engineLessConfig (Some InterpreterNewEngine).

Definition WithFeatureBulkMemoryOperations (c : runtimeConfig) (enabled : bool) :=
  let ret := c in
  let ret := with_enabledFeatures ret
               (Set_ (enabledFeatures ret) FeatureBulkMemoryOperations enabled) in
  let ret := with_enabledFeatures ret
               (Set_ (enabledFeatures ret) FeatureReferenceTypes enabled) in
  ret.

Definition WithFeatureMultiValue (c : runtimeConfig) (enabled : bool) :=
  with_enabledFeatures c (Set_ (enabledFeatures c) FeatureMultiValue enabled).

Definition WithFeatureMutableGlobal (c : runtimeConfig) (enabled : bool) :=
  with_enabledFeatures c (Set_ (enabledFeatures c) FeatureMutableGlobal enabled).

Definition WithFeatureNonTrappingFloatToIntConversion (c : runtimeConfig) (enabled : bool) :=
  with_enabledFeatures c
    (Set_ (enabledFeatures c) FeatureNonTrappingFloatToIntConversion enabled).

Definition WithFeatureReferenceTypes (c : runtimeConfig) (enabled : bool) :=
  let ret := c in
  let ret := with_enabledFeatures ret
               (Set_ (enabledFeatures ret) FeatureReferenceTypes enabled) in
  let ret := with_enabledFeatures ret
               (Set_ (enabledFeatures ret) FeatureBulkMemoryOperations enabled) in
  ret.

Definition WithFeatureSignExtensionOps (c : runtimeConfig) (enabled : bool) :=
  with_enabledFeatures c (Set_ (enabledFeatures c) FeatureSignExtensionOps enabled).

Definition WithMemoryCapacityPages (c : runtimeConfig) (maxCapacityPages : option CapacityFn) :=
  match maxCapacityPages with
  | None => c
  | Some f =>
      {| enabledFeatures := enabledFeatures c; newEngine := newEngine c;
         memoryLimitPages := memoryLimitPages c;
         memoryCapacityPages := Some f |}
  end.

Definition WithMemoryLimitPages (c : runtimeConfig) (limit : Z) :=
  {| enabledFeatures := enabledFeatures c; newEngine := newEngine c;
     memoryLimitPages := limit;
     memoryCapacityPages := memoryCapacityPages c |}.

Definition WithWasmCore1 (c : runtimeConfig) :=
  with_enabledFeatures c Features20191205.

Definition WithWasmCore2 (c : runtimeConfig) :=
  with_enabledFeatures c Features20220419.

(** The methods of the [RuntimeConfig] interface, as data, so that "any
    sequence of WithXXX options" is a list. *)
Inductive RuntimeOption :=
  | OBulkMemoryOperations (enabled : bool)
  | OMultiValue (enabled : bool)
  | OMutableGlobal (enabled : bool)
  | ONonTrappingFloatToIntConversion (enabled : bool)
  | OReferenceTypes (enabled : bool)
  | OSignExtensionOps (enabled : bool)
  | OMemoryCapacityPages (f : option CapacityFn)
  | OMemoryLimitPages (limit : Z)
  | OWasmCore1
  | OWasmCore2.

Definition apply_option (c : runtimeConfig) (o : RuntimeOption) : runtimeConfig :=
  match o with
  | OBulkMemoryOperations b => WithFeatureBulkMemoryOperations c b
  | OMultiValue b => WithFeatureMultiValue c b
  | OMutableGlobal b => WithFeatureMutableGlobal c b
  | ONonTrappingFloatToIntConversion b => WithFeatureNonTrappingFloatToIntConversion c b
  | OReferenceTypes b => WithFeatureReferenceTypes c b
  | OSignExtensionOps b => WithFeatureSignExtensionOps c b
  | OMemoryCapacityPages f => WithMemoryCapacityPages c f
  | OMemoryLimitPages n => WithMemoryLimitPages c n
  | OWasmCore1 => WithWasmCore1 c
  | OWasmCore2 => WithWasmCore2 c
  end.

Definition apply_options (c : runtimeConfig) (os : list RuntimeOption) : runtimeConfig :=
  foldl apply_option c os.

End RuntimeConfig.

(** ** The store: data model ([internal/wasm/store.go]) *)

(** A location of a heap-allocated object. *)
Abbreviation loc := positive.

Inductive ExternType :=
  ExternTypeFunc | ExternTypeTable | ExternTypeMemory | ExternTypeGlobal.

Inductive ValueType :=
  | ValueTypeI32 | ValueTypeI64 | ValueTypeF32 | ValueTypeF64
  | ValueTypeFuncref | ValueTypeExternref.

Inductive RefType := RefTypeFuncref | RefTypeExternref.

Global Instance ExternType_eq_dec : EqDecision ExternType.
Proof. solve_decision. Defined.
Global Instance ValueType_eq_dec : EqDecision ValueType.
Proof. solve_decision. Defined.
Global Instance RefType_eq_dec : EqDecision RefType.
Proof. solve_decision. Defined.

Module FunctionType.
Record t := mk { Params : list ValueType; Results : list ValueType }.
End FunctionType.

(** Modelled from the spec: the declaration of [wasm.Table] is not among
    the sources.  The code reads [Min] and the optional [Max] (a
    [*uint32]); the spec gives a table an element type, and so does the
    text format in the documentation of [WithImport]:
    [(import "js" "tbl" (table $tbl 4 funcref))]. *)
Module Table.
Record t := mk { Type_ : RefType; Min : Z; Max : option Z }.
End Table.

(** Modelled from the spec: "TableInstance: element type
    (funcref/externref), vector of references, Min, optional Max". *)
Module TableInstance.
Record t := mk {
  References : list (option Z);
  Min : Z;
  Max : option Z;
  Type_ : RefType
}.
End TableInstance.

(** [wasm.Memory], with the fields [builder.go] sets. *)
Module Memory.
Record t := mk { Min : Z; Cap : Z; Max : Z; IsMaxEncoded : bool }.
End Memory.

(** Modelled from the spec: "MemoryInstance: byte buffer, current page
    count (Min ≤ cur ≤ Max), and a separately configurable Cap". *)
Module MemoryInstance.
Record t := mk { Buffer : list Byte.byte; Min : Z; Cap : Z; Max : Z }.
End MemoryInstance.

Module GlobalType.
Record t := mk { ValType : ValueType; Mutable : bool }.
End GlobalType.

Module GlobalInstance.
Record t := mk { Type_ : GlobalType.t; Val : Z }.
End GlobalInstance.

Module ConstantExpression.
Record t := mk { Opcode : Z; Data : list Byte.byte }.
End ConstantExpression.

(** A data segment.  Modelled from the spec: [IsPassive] is not among the
    sources; a passive segment is one without an offset expression. *)
Module DataSegment.
Record t := mk {
  OffsetExpression : option ConstantExpression.t;
  Init : list Byte.byte
}.
Definition IsPassive (d : t) : bool :=
  match OffsetExpression d with None => true | Some _ => false end.
End DataSegment.

Inductive ElementMode := ElementModeActive | ElementModePassive | ElementModeDeclarative.

Global Instance ElementMode_eq_dec : EqDecision ElementMode.
Proof. solve_decision. Defined.

Module ElementSegment.
Record t := mk { Type_ : RefType; Mode : ElementMode; Init : list (option Z) }.
End ElementSegment.

(** [wasm.Import]: the descriptor fields other than the one [Type_] selects
    are zero ([nil] for the pointers). *)
Module Import_.
Record t := mk {
  Type_ : ExternType;
  Module_ : string;
  Name : string;
  DescFunc : Z;
  DescTable : option Table.t;
  DescMem : option Memory.t;
  DescGlobal : option GlobalType.t
}.
End Import_.

Module Export_.
Record t := mk { Type_ : ExternType; Name : string; Index : Z }.
End Export_.

(** [wasm.Module], with the sections the store reads.  The import section
    is a parameter: a list of imports for the store, a pointer to a slice of
    pointers for [replaceImports], which is about sharing. *)
Module Module_.
Record t (IS : Type) := mk {
  TypeSection : list FunctionType.t;
  ImportSection : IS;
  FunctionSection : list Z;
  ExportSection : list Export_.t;
  StartSection : option Z;
  ElementSection : list ElementSegment.t;
  DataSection : list DataSegment.t;
  (** whether [HostFunctionSection] is non-nil *)
  HostFunctionSection : bool
}.
Arguments mk {IS}.
Arguments TypeSection {IS}.
Arguments ImportSection {IS}.
Arguments FunctionSection {IS}.
Arguments ExportSection {IS}.
Arguments StartSection {IS}.
Arguments ElementSection {IS}.
Arguments DataSection {IS}.
Arguments HostFunctionSection {IS}.

Definition with_ImportSection {A B} (m : t A) (imports : B) : t B :=
  {| TypeSection := TypeSection m; ImportSection := imports;
     FunctionSection := FunctionSection m; ExportSection := ExportSection m;
     StartSection := StartSection m; ElementSection := ElementSection m;
     DataSection := DataSection m;
     HostFunctionSection := HostFunctionSection m |}.
End Module_.

(** The module as the store sees it. *)
Abbreviation Module := (Module_.t (list Import_.t)).

(** [FunctionInstance], without the back-pointer to its module instance
    and without the fields only engines read. *)
Module FunctionInstance.
Record t := mk {
  Type_ : FunctionType.t;
  TypeID : Z;
  Idx : Z;
  moduleName : string;
  name : string
}.
Definition with_TypeID (f : t) (id : Z) : t :=
  {| Type_ := Type_ f; TypeID := id; Idx := Idx f;
     moduleName := moduleName f; name := name f |}.
End FunctionInstance.

(** [ExportInstance]: [Type_] tells which of the four pointers is set; the
    memory is shared, so it is a location. *)
Module ExportInstance.
Record t := mk {
  Type_ : ExternType;
  Function : option FunctionInstance.t;
  Global : option GlobalInstance.t;
  Memory : option loc;
  Table : option TableInstance.t
}.
End ExportInstance.

Inductive SectionID := SectionIDFunction | SectionIDHostFunction.

(** The cause wrapped by [errorInvalidImport]. *)
Inductive ImportCause :=
  | FunctionTypeOutOfRange
  | SignatureMismatch (expected actual : FunctionType.t)
  | MinimumSizeMismatch (expected actual : Z)
  | MaximumSizeNoMax (expected : Z)
  | MaximumSizeMismatch (expected actual : Z)
  | MutabilityMismatch (expected actual : bool)
  | ValueTypeMismatch (expected actual : ValueType).

(** A Go [error]: one constructor per site that builds one.  [ErrOther]
    stands for the errors of code outside this development (table
    building, engine compilation, traps of the start function). *)
Inductive error :=
  | ErrAlreadyInstantiated (moduleName : string)
  | ErrTooManyFunctionTypes
  | ErrModuleNotInstantiated (moduleName : string)
  | ErrNotExported (name moduleName : string)
  | ErrExportWrongType (name moduleName : string) (actual expected : ExternType)
  | ErrInvalidImport (idx : nat) (et : ExternType) (moduleName name : string)
      (cause : ImportCause)
  | ErrOutOfBoundsMemoryAccess
  | ErrCompilationFailed (cause : error)
  | ErrStartFailed (funcDesc : string) (cause : error)
  | ErrOther (msg : string).

(** The outcome of a call that can return an error or panic. *)
Inductive res (A : Type) :=
  | Ok (a : A)
  | Err (e : error)
  | Panic.
Arguments Ok {A}.
Arguments Err {A}.
Arguments Panic {A}.

Global Instance res_ret : MRet res := @Ok.

Global Instance res_bind : MBind res := fun A B (k : A -> res B) (r : res A) =>
  match r with
  | Ok a => k a
  | Err e => Err e
  | Panic => Panic
  end.

(** The value of a result, or [d] for an error or a panic. *)
Definition res_get {A : Type} (d : A) (r : res A) : A :=
  match r with
  | Ok a => a
  | _ => d
  end.

(** Opaque handles of objects owned by code outside this development. *)
Definition ModuleEngine := positive.
Definition SysContext := positive.
Definition TableInit := gmap Z Z.

Module ElementInstance.
Record t := mk { References : list (option Z); Type_ : RefType }.
Definition zero : t := {| References := []; Type_ := RefTypeFuncref |}.
End ElementInstance.

(** [CallContext], by the name of the module instance it is bound to. *)
Module CallContext.
Record t := mk { module_ : string; Sys : option SysContext }.
End CallContext.

Module ModuleInstance.
Record t := mk {
  Name : string;
  Exports : gmap string ExportInstance.t;
  Functions : list FunctionInstance.t;
  Globals : list GlobalInstance.t;
  Memory : option loc;
  Tables : list TableInstance.t;
  Types : list FunctionType.t;
  CallCtx : option CallContext.t;
  Engine : option ModuleEngine;
  TypeIDs : list Z;
  DataInstances : list (list Byte.byte);
  ElementInstances : list ElementInstance.t
}.

(** [&ModuleInstance{Name: name}] *)
Definition new (name : string) : t :=
  {| Name := name; Exports := ∅; Functions := []; Globals := [];
     Memory := None; Tables := []; Types := []; CallCtx := None;
     Engine := None; TypeIDs := []; DataInstances := [];
     ElementInstances := [] |}.

Definition with_Engine (m : t) (e : option ModuleEngine) : t :=
  {| Name := Name m; Exports := Exports m; Functions := Functions m;
     Globals := Globals m; Memory := Memory m; Tables := Tables m;
     Types := Types m; CallCtx := CallCtx m; Engine := e;
     TypeIDs := TypeIDs m; DataInstances := DataInstances m;
     ElementInstances := ElementInstances m |}.

Definition with_ElementInstances (m : t) (es : list ElementInstance.t) : t :=
  {| Name := Name m; Exports := Exports m; Functions := Functions m;
     Globals := Globals m; Memory := Memory m; Tables := Tables m;
     Types := Types m; CallCtx := CallCtx m; Engine := Engine m;
     TypeIDs := TypeIDs m; DataInstances := DataInstances m;
     ElementInstances := es |}.

Definition with_CallCtx (m : t) (c : option CallContext.t) : t :=
  {| Name := Name m; Exports := Exports m; Functions := Functions m;
     Globals := Globals m; Memory := Memory m; Tables := Tables m;
     Types := Types m; CallCtx := c; Engine := Engine m;
     TypeIDs := TypeIDs m; DataInstances := DataInstances m;
     ElementInstances := ElementInstances m |}.
End ModuleInstance.

(** [Store], without its engine (the engine's methods are parameters of
    [Instantiate] below) and without the lock. *)
Module Store.
Record t := mk {
  EnabledFeatures : Z;
  moduleNames : gset string;
  modules : gmap string ModuleInstance.t;
  typeIDs : gmap string Z;
  functionMaxTypes : Z
}.

Definition with_names (s : t) (names : gset string) : t :=
  {| EnabledFeatures := EnabledFeatures s; moduleNames := names;
     modules := modules s; typeIDs := typeIDs s;
     functionMaxTypes := functionMaxTypes s |}.

Definition with_modules (s : t) (ms : gmap string ModuleInstance.t) : t :=
  {| EnabledFeatures := EnabledFeatures s; moduleNames := moduleNames s;
     modules := ms; typeIDs := typeIDs s;
     functionMaxTypes := functionMaxTypes s |}.

Definition with_typeIDs (s : t) (ids : gmap string Z) : t :=
  {| EnabledFeatures := EnabledFeatures s; moduleNames := moduleNames s;
     modules := modules s; typeIDs := ids;
     functionMaxTypes := functionMaxTypes s |}.

(** Tests assign the field directly ("have this a field for testability"). *)
Definition with_functionMaxTypes (s : t) (n : Z) : t :=
  {| EnabledFeatures := EnabledFeatures s; moduleNames := moduleNames s;
     modules := modules s; typeIDs := typeIDs s;
     functionMaxTypes := n |}.
End Store.

Definition maximumFunctionTypes : Z := Z.shiftl 1 27.

(** [uint32(n)] for a non-negative [int]. *)
Definition uint32 (n : Z) : Z := n mod 2 ^ 32.

Definition NewStore (enabledFeatures : Z) : Store.t :=
  {| Store.EnabledFeatures := enabledFeatures;
     Store.moduleNames := ∅;
     Store.modules := ∅;
     Store.typeIDs := ∅;
     Store.functionMaxTypes := maximumFunctionTypes |}.

(** *** Name reservation *)

Definition deleteModule (s : Store.t) (moduleName : string) : Store.t :=
  let s := Store.with_modules s (delete moduleName (Store.modules s)) in
  Store.with_names s (Store.moduleNames s ∖ {[moduleName]}).

Definition requireModuleName (s : Store.t) (moduleName : string)
  : Store.t * option error :=
  if decide (moduleName ∈ Store.moduleNames s)
  then (s, Some (ErrAlreadyInstantiated moduleName))
  else (Store.with_names s ({[moduleName]} ∪ Store.moduleNames s), None).

Definition addModule (s : Store.t) (m : ModuleInstance.t) : Store.t :=
  Store.with_modules s (<[ModuleInstance.Name m := m]> (Store.modules s)).

Definition module_ (s : Store.t) (moduleName : string) : option ModuleInstance.t :=
  Store.modules s !! moduleName.

(** *** Function-type interning *)

Section Interning.

(** [FunctionType.String], the canonical textual form; its definition is
    not among the sources. *)
Variable String_ : FunctionType.t -> string.

Definition getFunctionTypeID (s : Store.t) (t : FunctionType.t)
  : Store.t * res Z :=
  let key := String_ t in
  match Store.typeIDs s !! key with
  | Some id => (s, Ok id)
  | None =>
      let l := uint32 (Z.of_nat (size (Store.typeIDs s))) in
      if Store.functionMaxTypes s <=? l
      then (s, Err ErrTooManyFunctionTypes)
      else
        let id := uint32 (Z.of_nat (size (Store.typeIDs s))) in
        (Store.with_typeIDs s (<[key := id]> (Store.typeIDs s)), Ok id)
  end.

(** The loop of [getFunctionTypeIDs]: [ret] holds the IDs so far. *)
Fixpoint getFunctionTypeIDs_loop (s : Store.t) (ts : list FunctionType.t)
    (ret : list Z) : Store.t * res (list Z) :=
  match ts with
  | [] => (s, Ok ret)
  | t :: ts =>
      match getFunctionTypeID s t with
      | (s, Ok inst) => getFunctionTypeIDs_loop s ts (ret ++ [inst])
      | (s, Err err) => (s, Err err)
      | (s, Panic) => (s, Panic)
      end
  end.

Definition getFunctionTypeIDs (s : Store.t) (ts : list FunctionType.t)
  : Store.t * res (list Z) :=
  getFunctionTypeIDs_loop s ts [].

End Interning.

(** *** Import resolution *)

Definition getExport (m : ModuleInstance.t) (name : string) (et : ExternType)
  : res ExportInstance.t :=
  match ModuleInstance.Exports m !! name with
  | None => Err (ErrNotExported name (ModuleInstance.Name m))
  | Some exp =>
      if decide (ExportInstance.Type_ exp = et) then Ok exp
      else Err (ErrExportWrongType name (ModuleInstance.Name m)
                  (ExportInstance.Type_ exp) et)
  end.

Definition errorInvalidImport (i : Import_.t) (idx : nat) (cause : ImportCause)
  : error :=
  ErrInvalidImport idx (Import_.Type_ i) (Import_.Module_ i) (Import_.Name i) cause.

Definition errorMinSizeMismatch (i : Import_.t) (idx : nat) (expected actual : Z) :=
  errorInvalidImport i idx (MinimumSizeMismatch expected actual).

Definition errorNoMax (i : Import_.t) (idx : nat) (expected : Z) :=
  errorInvalidImport i idx (MaximumSizeNoMax expected).

Definition errorMaxSizeMismatch (i : Import_.t) (idx : nat) (expected actual : Z) :=
  errorInvalidImport i idx (MaximumSizeMismatch expected actual).

(** The four named results of [resolveImports]. *)
Module Imported.
Record t := mk {
  importedFunctions : list FunctionInstance.t;
  importedGlobals : list GlobalInstance.t;
  importedTables : list TableInstance.t;
  importedMemory : option loc
}.
Definition empty : t :=
  {| importedFunctions := []; importedGlobals := []; importedTables := [];
     importedMemory := None |}.
End Imported.

Section ResolveImports.

(** [FunctionType.EqualsSignature]; its definition is not among the sources. *)
Variable EqualsSignature :
  FunctionType.t -> list ValueType -> list ValueType -> bool.

(** The heap of memory instances, read for the limits of an imported memory. *)
Variable mems : gmap loc MemoryInstance.t.

(** One iteration of the loop of [resolveImports]. *)
Definition resolveImport (s : Store.t) (module : Module) (acc : Imported.t)
    (idx : nat) (i : Import_.t) : res Imported.t :=
  match Store.modules s !! Import_.Module_ i with
  | None => Err (ErrModuleNotInstantiated (Import_.Module_ i))
  | Some m =>
      imported ← getExport m (Import_.Name i) (Import_.Type_ i);
      match Import_.Type_ i with
      | ExternTypeFunc =>
          let typeIndex := Import_.DescFunc i in
          if Z.of_nat (length (Module_.TypeSection module)) <=? typeIndex
          then Err (errorInvalidImport i idx FunctionTypeOutOfRange)
          else
            match Module_.TypeSection module !! Z.to_nat typeIndex,
                  ExportInstance.Function imported with
            | Some expectedType, Some importedFunction =>
                let actualType := FunctionInstance.Type_ importedFunction in
                if EqualsSignature expectedType (FunctionType.Params actualType)
                     (FunctionType.Results actualType)
                then Ok {| Imported.importedFunctions :=
                             Imported.importedFunctions acc ++ [importedFunction];
                           Imported.importedGlobals := Imported.importedGlobals acc;
                           Imported.importedTables := Imported.importedTables acc;
                           Imported.importedMemory := Imported.importedMemory acc |}
                else Err (errorInvalidImport i idx
                            (SignatureMismatch expectedType actualType))
            | _, _ => Panic
            end
      | ExternTypeTable =>
          match Import_.DescTable i, ExportInstance.Table imported with
          | Some expected, Some importedTable =>
              if TableInstance.Min importedTable <? Table.Min expected
              then Err (errorMinSizeMismatch i idx (Table.Min expected)
                          (TableInstance.Min importedTable))
              else
                let ok :=
                  Ok {| Imported.importedFunctions := Imported.importedFunctions acc;
                        Imported.importedGlobals := Imported.importedGlobals acc;
                        Imported.importedTables :=
                          Imported.importedTables acc ++ [importedTable];
                        Imported.importedMemory := Imported.importedMemory acc |} in
                match Table.Max expected with
                | Some expectedMax =>
                    match TableInstance.Max importedTable with
                    | None => Err (errorNoMax i idx expectedMax)
                    | Some actualMax =>
                        if expectedMax <? actualMax
                        then Err (errorMaxSizeMismatch i idx expectedMax actualMax)
                        else ok
                    end
                | None => ok
                end
          | _, _ => Panic
          end
      | ExternTypeMemory =>
          match Import_.DescMem i, ExportInstance.Memory imported with
          | Some expected, Some l =>
              match mems !! l with
              | Some importedMemory =>
                  if MemoryInstance.Min importedMemory <? Memory.Min expected
                  then Err (errorMinSizeMismatch i idx (Memory.Min expected)
                              (MemoryInstance.Min importedMemory))
                  else if Memory.Max expected <? MemoryInstance.Max importedMemory
                  then Err (errorMaxSizeMismatch i idx (Memory.Max expected)
                              (MemoryInstance.Max importedMemory))
                  else Ok {| Imported.importedFunctions := Imported.importedFunctions acc;
                             Imported.importedGlobals := Imported.importedGlobals acc;
                             Imported.importedTables := Imported.importedTables acc;
                             Imported.importedMemory := Some l |}
              | None => Panic
              end
          | _, _ => Panic
          end
      | ExternTypeGlobal =>
          match Import_.DescGlobal i, ExportInstance.Global imported with
          | Some expected, Some importedGlobal =>
              let actual := GlobalInstance.Type_ importedGlobal in
              if negb (Bool.eqb (GlobalType.Mutable expected) (GlobalType.Mutable actual))
              then Err (errorInvalidImport i idx
                          (MutabilityMismatch (GlobalType.Mutable expected)
                             (GlobalType.Mutable actual)))
              else if negb (bool_decide (GlobalType.ValType expected = GlobalType.ValType actual))
              then Err (errorInvalidImport i idx
                          (ValueTypeMismatch (GlobalType.ValType expected)
                             (GlobalType.ValType actual)))
              else Ok {| Imported.importedFunctions := Imported.importedFunctions acc;
                         Imported.importedGlobals :=
                           Imported.importedGlobals acc ++ [importedGlobal];
                         Imported.importedTables := Imported.importedTables acc;
                         Imported.importedMemory := Imported.importedMemory acc |}
          | _, _ => Panic
          end
      end
  end.

(** [for idx, i := range module.ImportSection], from index [idx] on. *)
Fixpoint resolveImports_loop (s : Store.t) (module : Module) (acc : Imported.t)
    (idx : nat) (rest : list Import_.t) : res Imported.t :=
  match rest with
  | [] => Ok acc
  | i :: rest =>
      acc ← resolveImport s module acc idx i;
      resolveImports_loop s module acc (S idx) rest
  end.

Definition resolveImports (s : Store.t) (module : Module) : res Imported.t :=
  resolveImports_loop s module Imported.empty 0%nat (Module_.ImportSection module).

End ResolveImports.

(** *** Constant expressions and data segments *)

(** Modelled from the spec: the opcodes of the WebAssembly binary format
    that a constant expression can start with. *)
Definition OpcodeGlobalGet : Z := 0x23.
Definition OpcodeI32Const : Z := 0x41.
Definition OpcodeI64Const : Z := 0x42.
Definition OpcodeF32Const : Z := 0x43.
Definition OpcodeF64Const : Z := 0x44.

(** The dynamic value ([interface{}]) a constant expression evaluates to;
    floats are carried by their bits. *)
Inductive value :=
  | VNil
  | VInt32 (v : Z)
  | VInt64 (v : Z)
  | VFloat32 (bits : Z)
  | VFloat64 (bits : Z).

(** [int32(x)] and [int64(x)] of a [uint64]. *)
Definition int32 (x : Z) : Z := (x + 2 ^ 31) mod 2 ^ 32 - 2 ^ 31.
Definition int64 (x : Z) : Z := (x + 2 ^ 63) mod 2 ^ 64 - 2 ^ 63.

(** The decoders of [internal/leb128] and [internal/ieee754], which are not
    among the sources; the code drops their error result. *)
Class Codec := {
  DecodeInt32 : list Byte.byte -> Z;
  DecodeInt64 : list Byte.byte -> Z;
  DecodeUint32 : list Byte.byte -> Z;
  DecodeFloat32 : list Byte.byte -> Z;
  DecodeFloat64 : list Byte.byte -> Z
}.

Definition executeConstExpression `{Codec} (globals : list GlobalInstance.t)
    (expr : ConstantExpression.t) : res value :=
  let r := ConstantExpression.Data expr in
  let op := ConstantExpression.Opcode expr in
  if op =? OpcodeI32Const then Ok (VInt32 (DecodeInt32 r))
  else if op =? OpcodeI64Const then Ok (VInt64 (DecodeInt64 r))
  else if op =? OpcodeF32Const then Ok (VFloat32 (DecodeFloat32 r))
  else if op =? OpcodeF64Const then Ok (VFloat64 (DecodeFloat64 r))
  else if op =? OpcodeGlobalGet then
    let id := DecodeUint32 r in
    match globals !! Z.to_nat id with
    | None => Panic
    | Some g =>
        match GlobalType.ValType (GlobalInstance.Type_ g) with
        | ValueTypeI32 => Ok (VInt32 (int32 (GlobalInstance.Val g)))
        | ValueTypeI64 => Ok (VInt64 (int64 (GlobalInstance.Val g)))
        | ValueTypeF32 => Ok (VFloat32 (uint32 (GlobalInstance.Val g)))
        | ValueTypeF64 => Ok (VFloat64 (GlobalInstance.Val g))
        | _ => Ok VNil
        end
    end
  else Ok VNil.

(** The type assertion [.(int32)]. *)
Definition assert_int32 (v : value) : res Z :=
  match v with
  | VInt32 z => Ok z
  | _ => Panic
  end.

(** The memory a module instance points to. *)
Definition memory_of (mems : gmap loc MemoryInstance.t) (m : ModuleInstance.t)
  : option MemoryInstance.t :=
  l ← ModuleInstance.Memory m; mems !! l.

Fixpoint validateData `{Codec} (mems : gmap loc MemoryInstance.t)
    (m : ModuleInstance.t) (data : list DataSegment.t) : res unit :=
  match data with
  | [] => Ok tt
  | d :: data =>
      match DataSegment.OffsetExpression d with
      | None => validateData mems m data
      | Some e =>
          v ← executeConstExpression (ModuleInstance.Globals m) e;
          offset ← assert_int32 v;
          let ceil := offset + Z.of_nat (length (DataSegment.Init d)) in
          if offset <? 0 then Err ErrOutOfBoundsMemoryAccess
          else
            match memory_of mems m with
            | None => Panic
            | Some mem =>
                if Z.of_nat (length (MemoryInstance.Buffer mem)) <? ceil
                then Err ErrOutOfBoundsMemoryAccess
                else validateData mems m data
            end
      end
  end.

(** [copy(dst[offset:], src)] for [offset <= len(dst)]: as many bytes as fit. *)
Definition copy_at (dst : list Byte.byte) (offset : nat) (src : list Byte.byte)
  : list Byte.byte :=
  take offset dst ++ take (length dst - offset) src
    ++ drop (offset + length src) dst.

Definition with_Buffer (mem : MemoryInstance.t) (buf : list Byte.byte) :=
  {| MemoryInstance.Buffer := buf; MemoryInstance.Min := MemoryInstance.Min mem;
     MemoryInstance.Cap := MemoryInstance.Cap mem;
     MemoryInstance.Max := MemoryInstance.Max mem |}.

(** [applyData] writes through the pointer [m.Memory]: it returns the heap,
    also when it panics half-way. *)
Fixpoint applyData `{Codec} (mems : gmap loc MemoryInstance.t)
    (m : ModuleInstance.t) (data : list DataSegment.t)
  : gmap loc MemoryInstance.t * res unit :=
  match data with
  | [] => (mems, Ok tt)
  | d :: data =>
      match DataSegment.OffsetExpression d with
      | None => applyData mems m data
      | Some e =>
          match v ← executeConstExpression (ModuleInstance.Globals m) e;
                assert_int32 v with
          | Ok offset =>
              match ModuleInstance.Memory m with
              | None => (mems, Panic)
              | Some l =>
                  match mems !! l with
                  | None => (mems, Panic)
                  | Some mem =>
                      let buf := MemoryInstance.Buffer mem in
                      if (offset <? 0) || (Z.of_nat (length buf) <? offset)
                      then (mems, Panic)
                      else
                        let buf := copy_at buf (Z.to_nat offset) (DataSegment.Init d) in
                        applyData (<[l := with_Buffer mem buf]> mems) m data
                  end
              end
          | Err e => (mems, Err e)
          | Panic => (mems, Panic)
          end
      end
  end.

(** *** Assembling a module instance *)

(** The loop of [addSections] over the module-defined functions. *)
Fixpoint addSections_functions (module : Module) (typeIDs : list Z) (i : nat)
    (functions : list FunctionInstance.t) : res (list FunctionInstance.t) :=
  match functions with
  | [] => Ok []
  | f :: functions =>
      match Module_.FunctionSection module !! i with
      | None => Panic
      | Some typeIndex =>
          match typeIDs !! Z.to_nat typeIndex with
          | None => Panic
          | Some id =>
              fs ← addSections_functions module typeIDs (S i) functions;
              Ok (FunctionInstance.with_TypeID f id :: fs)
          end
      end
  end.

Definition exportOf (et : ExternType) (f : option FunctionInstance.t)
    (g : option GlobalInstance.t) (mem : option loc) (tb : option TableInstance.t) :=
  {| ExportInstance.Type_ := et; ExportInstance.Function := f;
     ExportInstance.Global := g; ExportInstance.Memory := mem;
     ExportInstance.Table := tb |}.

Fixpoint buildExports_loop (functions : list FunctionInstance.t)
    (globals : list GlobalInstance.t) (memory : option loc)
    (tables : list TableInstance.t) (acc : gmap string ExportInstance.t)
    (exports : list Export_.t) : res (gmap string ExportInstance.t) :=
  match exports with
  | [] => Ok acc
  | exp :: exports =>
      let index := Z.to_nat (Export_.Index exp) in
      ei ← match Export_.Type_ exp with
           | ExternTypeFunc =>
               match functions !! index with
               | Some f => Ok (exportOf ExternTypeFunc (Some f) None None None)
               | None => Panic
               end
           | ExternTypeGlobal =>
               match globals !! index with
               | Some g => Ok (exportOf ExternTypeGlobal None (Some g) None None)
               | None => Panic
               end
           | ExternTypeMemory => Ok (exportOf ExternTypeMemory None None memory None)
           | ExternTypeTable =>
               match tables !! index with
               | Some t => Ok (exportOf ExternTypeTable None None None (Some t))
               | None => Panic
               end
           end;
      buildExports_loop functions globals memory tables
        (<[Export_.Name exp := ei]> acc) exports
  end.

Definition buildDataInstances (segments : list DataSegment.t)
  : list (list Byte.byte) :=
  map DataSegment.Init segments.

(** [addSections], on the fresh [&ModuleInstance{Name: name}]. *)
Definition addSections (name : string) (module : Module)
    (importedFunctions functions : list FunctionInstance.t)
    (importedGlobals globals : list GlobalInstance.t)
    (tables : list TableInstance.t) (memory importedMemory : option loc)
    (types : list FunctionType.t) (typeIDs : list Z) : res ModuleInstance.t :=
  fs ← addSections_functions module typeIDs 0%nat functions;
  let allFunctions := importedFunctions ++ fs in
  let allGlobals := importedGlobals ++ globals in
  let mem := match importedMemory with
             | Some l => Some l
             | None => memory
             end in
  exports ← buildExports_loop allFunctions allGlobals mem tables ∅
              (Module_.ExportSection module);
  Ok {| ModuleInstance.Name := name;
        ModuleInstance.Exports := exports;
        ModuleInstance.Functions := allFunctions;
        ModuleInstance.Globals := allGlobals;
        ModuleInstance.Memory := mem;
        ModuleInstance.Tables := tables;
        ModuleInstance.Types := types;
        ModuleInstance.CallCtx := None;
        ModuleInstance.Engine := None;
        ModuleInstance.TypeIDs := typeIDs;
        ModuleInstance.DataInstances :=
          buildDataInstances (Module_.DataSection module);
        ModuleInstance.ElementInstances := [] |}.

(** *** Instantiation *)

(** The methods of [*Module] that [Instantiate] calls and that are not among
    the sources. *)
Class ModuleMethods := {
  buildTables : Module -> list TableInstance.t -> list GlobalInstance.t ->
                res (list TableInstance.t * TableInit);
  buildGlobals : Module -> list GlobalInstance.t -> list GlobalInstance.t;
  buildMemory : Module -> option MemoryInstance.t;
  buildFunctions : Module -> string -> list FunctionInstance.t;
  buildHostFunctions : Module -> string -> list FunctionInstance.t;
  funcDesc : Module -> SectionID -> Z -> string
}.

(** The [Engine] and [ModuleEngine] interfaces.  A call runs arbitrary code
    of the guest: it may write to the memories and return an error. *)
Class Engine := {
  NewModuleEngine : string -> Module -> list FunctionInstance.t ->
                    list FunctionInstance.t -> list TableInstance.t ->
                    TableInit -> res ModuleEngine;
  CreateFuncElementInstance : ModuleEngine -> list (option Z) -> ElementInstance.t;
  Call : ModuleInstance.t -> FunctionInstance.t -> gmap loc MemoryInstance.t ->
         gmap loc MemoryInstance.t * option error
}.

Definition buildElementInstances `{Engine} (engine : ModuleEngine)
    (elements : list ElementSegment.t) : list ElementInstance.t :=
  map (fun elm =>
         if bool_decide (ElementSegment.Type_ elm = RefTypeFuncref)
            && bool_decide (ElementSegment.Mode elm = ElementModePassive)
         then CreateFuncElementInstance engine (ElementSegment.Init elm)
         else ElementInstance.zero)
      elements.

(** The store together with the heap of memory instances. *)
Module World.
Record t := mk { store : Store.t; mems : gmap loc MemoryInstance.t }.
End World.

(** [module.buildMemory()] returns a pointer to a new memory instance, or
    nil: the instance, if any, is allocated in the heap. *)
Definition alloc_memory (mems : gmap loc MemoryInstance.t)
    (built : option MemoryInstance.t)
  : gmap loc MemoryInstance.t * option loc :=
  match built with
  | Some mem => let l := fresh (dom mems) in (<[l := mem]> mems, Some l)
  | None => (mems, None)
  end.

Definition NewCallContext (m : ModuleInstance.t) (sys : option SysContext)
  : CallContext.t :=
  {| CallContext.module_ := ModuleInstance.Name m; CallContext.Sys := sys |}.

Section Instantiate.

Context (String_ : FunctionType.t -> string).
Context (EqualsSignature : FunctionType.t -> list ValueType -> list ValueType -> bool).
Context `{Codec} `{ModuleMethods} `{Engine}.

Definition Instantiate (w : World.t) (module : Module) (name : string)
    (sys : option SysContext) : World.t * res CallContext.t :=
  let s := World.store w in
  let mems := World.mems w in
  match requireModuleName s name with
  | (s, Some err) => (World.mk s mems, Err err)
  | (s, None) =>
  match getFunctionTypeIDs String_ s (Module_.TypeSection module) with
  | (s, Panic) => (World.mk s mems, Panic)
  | (s, Err err) => (World.mk (deleteModule s name) mems, Err err)
  | (s, Ok typeIDs) =>
  match resolveImports EqualsSignature mems s module with
  | Panic => (World.mk s mems, Panic)
  | Err err => (World.mk (deleteModule s name) mems, Err err)
  | Ok imported =>
  let importedFunctions := Imported.importedFunctions imported in
  let importedGlobals := Imported.importedGlobals imported in
  let importedTables := Imported.importedTables imported in
  let importedMemory := Imported.importedMemory imported in
  match buildTables module importedTables importedGlobals with
  | Panic => (World.mk s mems, Panic)
  | Err err => (World.mk (deleteModule s name) mems, Err err)
  | Ok (tables, tableInit) =>
  let globals := buildGlobals module importedGlobals in
  let '(mems, memory) := alloc_memory mems (buildMemory module) in
  let '(funcSection, functions) :=
    if Module_.HostFunctionSection module
    then (SectionIDHostFunction, buildHostFunctions module name)
    else (SectionIDFunction, buildFunctions module name) in
  (* the call passes [importedMemory] for the parameter [memory] and
     [memory] for the parameter [importedMemory] *)
  match addSections name module importedFunctions functions importedGlobals
          globals tables importedMemory memory
          (Module_.TypeSection module) typeIDs with
  | Panic => (World.mk s mems, Panic)
  | Err err => (World.mk s mems, Err err)
  | Ok m =>
  match validateData mems m (Module_.DataSection module) with
  | Panic => (World.mk s mems, Panic)
  | Err err => (World.mk (deleteModule s name) mems, Err err)
  | Ok _ =>
  match NewModuleEngine name module importedFunctions functions tables tableInit with
  | Panic => (World.mk s mems, Panic)
  | Err err => (World.mk s mems, Err (ErrCompilationFailed err))
  | Ok engine =>
  let m := ModuleInstance.with_Engine m (Some engine) in
  let m := ModuleInstance.with_ElementInstances m
             (buildElementInstances engine (Module_.ElementSection module)) in
  match applyData mems m (Module_.DataSection module) with
  | (mems, Panic) => (World.mk s mems, Panic)
  | (mems, Err err) => (World.mk s mems, Err err)
  | (mems, Ok _) =>
  let m := ModuleInstance.with_CallCtx m (Some (NewCallContext m sys)) in
  let finish (mems : gmap loc MemoryInstance.t) :=
    (World.mk (addModule s m) mems, Ok (NewCallContext m sys)) in
  match Module_.StartSection module with
  | None => finish mems
  | Some funcIdx =>
      match ModuleInstance.Functions m !! Z.to_nat funcIdx with
      | None => (World.mk s mems, Panic)
      | Some f =>
          match Call m f mems with
          | (mems, Some err) =>
              (World.mk (deleteModule s name) mems,
               Err (ErrStartFailed (funcDesc module funcSection funcIdx) err))
          | (mems, None) => finish mems
          end
      end
  end end end end end end end end end.

End Instantiate.

(** ** ModuleConfig ([config.go]) *)

(** A [moduleConfig] is copied by value ([ret := *c]), which copies its map
    and slice headers but not the maps and backing arrays they point to:
    those live in a heap, and a configuration holds locations. *)

Module ModuleConfig.

(** An [fs.FS], [io.Reader] or [io.Writer] value: [None] is nil. *)
Definition Handle := option positive.

(** [wasm.FileEntry], with the fields [setFS] sets. *)
Record FileEntry := mkFileEntry { Path : string; FS : Handle }.

(** A [[]string]: a backing array, a length and a capacity. *)
Record slice := mkSlice { arr : option loc; len : nat; cap : nat }.

Definition nil_slice : slice := {| arr := None; len := 0; cap := 0 |}.

Record heap := mkHeap {
  (** backing arrays of [[]string]; the list is as long as the capacity *)
  arrays : gmap loc (list string);
  (** [map[string]int] *)
  environKeysH : gmap loc (gmap string nat);
  (** [map[uint32]*wasm.FileEntry]; entries are replaced, never updated *)
  preopensH : gmap loc (gmap Z FileEntry);
  (** [map[string]uint32] *)
  preopenPathsH : gmap loc (gmap string Z);
  (** [map[string][2]string] *)
  replacedImportsH : gmap loc (gmap string (string * string));
  (** [map[string]string] *)
  replacedImportModulesH : gmap loc (gmap string string)
}.

Definition empty_heap : heap :=
  {| arrays := ∅; environKeysH := ∅; preopensH := ∅; preopenPathsH := ∅;
     replacedImportsH := ∅; replacedImportModulesH := ∅ |}.

Definition set_arrays (h : heap) (x : gmap loc (list string)) : heap :=
  {| arrays := x; environKeysH := environKeysH h; preopensH := preopensH h;
     preopenPathsH := preopenPathsH h; replacedImportsH := replacedImportsH h;
     replacedImportModulesH := replacedImportModulesH h |}.

Definition set_environKeysH (h : heap) (x : gmap loc (gmap string nat)) : heap :=
  {| arrays := arrays h; environKeysH := x; preopensH := preopensH h;
     preopenPathsH := preopenPathsH h; replacedImportsH := replacedImportsH h;
     replacedImportModulesH := replacedImportModulesH h |}.

Definition set_preopensH (h : heap) (x : gmap loc (gmap Z FileEntry)) : heap :=
  {| arrays := arrays h; environKeysH := environKeysH h; preopensH := x;
     preopenPathsH := preopenPathsH h; replacedImportsH := replacedImportsH h;
     replacedImportModulesH := replacedImportModulesH h |}.

Definition set_preopenPathsH (h : heap) (x : gmap loc (gmap string Z)) : heap :=
  {| arrays := arrays h; environKeysH := environKeysH h; preopensH := preopensH h;
     preopenPathsH := x; replacedImportsH := replacedImportsH h;
     replacedImportModulesH := replacedImportModulesH h |}.

Definition set_replacedImportsH (h : heap)
    (x : gmap loc (gmap string (string * string))) : heap :=
  {| arrays := arrays h; environKeysH := environKeysH h; preopensH := preopensH h;
     preopenPathsH := preopenPathsH h; replacedImportsH := x;
     replacedImportModulesH := replacedImportModulesH h |}.

Definition set_replacedImportModulesH (h : heap)
    (x : gmap loc (gmap string string)) : heap :=
  {| arrays := arrays h; environKeysH := environKeysH h; preopensH := preopensH h;
     preopenPathsH := preopenPathsH h; replacedImportsH := replacedImportsH h;
     replacedImportModulesH := x |}.

Record moduleConfig := mkModuleConfig {
  name : string;
  startFunctions : list string;
  stdin : Handle;
  stdout : Handle;
  stderr : Handle;
  args : list string;
  environ : slice;
  environKeys : option loc;
  preopenFD : Z;
  preopens : option loc;
  preopenPaths : option loc;
  replacedImports : option loc;
  replacedImportModules : option loc
}.

(** [&moduleConfig{}] *)
Definition zero : moduleConfig :=
  {| name := ""; startFunctions := []; stdin := None; stdout := None;
     stderr := None; args := []; environ := nil_slice; environKeys := None;
     preopenFD := 0; preopens := None; preopenPaths := None;
     replacedImports := None; replacedImportModules := None |}.

Definition NewModuleConfig (h : heap) : heap * moduleConfig :=
  let ek := fresh (dom (environKeysH h)) in
  let po := fresh (dom (preopensH h)) in
  let pp := fresh (dom (preopenPathsH h)) in
  let h := set_environKeysH h (<[ek := ∅]> (environKeysH h)) in
  let h := set_preopensH h (<[po := ∅]> (preopensH h)) in
  let h := set_preopenPathsH h (<[pp := ∅]> (preopenPathsH h)) in
  (h, {| name := ""; startFunctions := ["_start"%string]; stdin := None;
         stdout := None; stderr := None; args := []; environ := nil_slice;
         environKeys := Some ek; preopenFD := 3; preopens := Some po;
         preopenPaths := Some pp; replacedImports := None;
         replacedImportModules := None |}).

Definition set_name (c : moduleConfig) (x : string) : moduleConfig :=
  {| name := x; startFunctions := startFunctions c; stdin := stdin c;
     stdout := stdout c; stderr := stderr c; args := args c;
     environ := environ c; environKeys := environKeys c;
     preopenFD := preopenFD c; preopens := preopens c;
     preopenPaths := preopenPaths c; replacedImports := replacedImports c;
     replacedImportModules := replacedImportModules c |}.

Definition set_startFunctions (c : moduleConfig) (x : list string) : moduleConfig :=
  {| name := name c; startFunctions := x; stdin := stdin c;
     stdout := stdout c; stderr := stderr c; args := args c;
     environ := environ c; environKeys := environKeys c;
     preopenFD := preopenFD c; preopens := preopens c;
     preopenPaths := preopenPaths c; replacedImports := replacedImports c;
     replacedImportModules := replacedImportModules c |}.

Definition set_stdin (c : moduleConfig) (x : Handle) : moduleConfig :=
  {| name := name c; startFunctions := startFunctions c; stdin := x;
     stdout := stdout c; stderr := stderr c; args := args c;
     environ := environ c; environKeys := environKeys c;
     preopenFD := preopenFD c; preopens := preopens c;
     preopenPaths := preopenPaths c; replacedImports := replacedImports c;
     replacedImportModules := replacedImportModules c |}.

Definition set_stdout (c : moduleConfig) (x : Handle) : moduleConfig :=
  {| name := name c; startFunctions := startFunctions c; stdin := stdin c;
     stdout := x; stderr := stderr c; args := args c;
     environ := environ c; environKeys := environKeys c;
     preopenFD := preopenFD c; preopens := preopens c;
     preopenPaths := preopenPaths c; replacedImports := replacedImports c;
     replacedImportModules := replacedImportModules c |}.

Definition set_stderr (c : moduleConfig) (x : Handle) : moduleConfig :=
  {| name := name c; startFunctions := startFunctions c; stdin := stdin c;
     stdout := stdout c; stderr := x; args := args c;
     environ := environ c; environKeys := environKeys c;
     preopenFD := preopenFD c; preopens := preopens c;
     preopenPaths := preopenPaths c; replacedImports := replacedImports c;
     replacedImportModules := replacedImportModules c |}.

Definition set_args (c : moduleConfig) (x : list string) : moduleConfig :=
  {| name := name c; startFunctions := startFunctions c; stdin := stdin c;
     stdout := stdout c; stderr := stderr c; args := x;
     environ := environ c; environKeys := environKeys c;
     preopenFD := preopenFD c; preopens := preopens c;
     preopenPaths := preopenPaths c; replacedImports := replacedImports c;
     replacedImportModules := replacedImportModules c |}.

Definition set_environ (c : moduleConfig) (x : slice) : moduleConfig :=
  {| name := name c; startFunctions := startFunctions c; stdin := stdin c;
     stdout := stdout c; stderr := stderr c; args := args c;
     environ := x; environKeys := environKeys c;
     preopenFD := preopenFD c; preopens := preopens c;
     preopenPaths := preopenPaths c; replacedImports := replacedImports c;
     replacedImportModules := replacedImportModules c |}.

Definition set_preopenFD (c : moduleConfig) (x : Z) : moduleConfig :=
  {| name := name c; startFunctions := startFunctions c; stdin := stdin c;
     stdout := stdout c; stderr := stderr c; args := args c;
     environ := environ c; environKeys := environKeys c;
     preopenFD := x; preopens := preopens c;
     preopenPaths := preopenPaths c; replacedImports := replacedImports c;
     replacedImportModules := replacedImportModules c |}.

Definition set_replacedImports (c : moduleConfig) (x : option loc) : moduleConfig :=
  {| name := name c; startFunctions := startFunctions c; stdin := stdin c;
     stdout := stdout c; stderr := stderr c; args := args c;
     environ := environ c; environKeys := environKeys c;
     preopenFD := preopenFD c; preopens := preopens c;
     preopenPaths := preopenPaths c; replacedImports := x;
     replacedImportModules := replacedImportModules c |}.

Definition set_replacedImportModules (c : moduleConfig) (x : option loc) : moduleConfig :=
  {| name := name c; startFunctions := startFunctions c; stdin := stdin c;
     stdout := stdout c; stderr := stderr c; args := args c;
     environ := environ c; environKeys := environKeys c;
     preopenFD := preopenFD c; preopens := preopens c;
     preopenPaths := preopenPaths c; replacedImports := replacedImports c;
     replacedImportModules := x |}.

(** The options that only assign a field of the copy. *)
Definition WithArgs (c : moduleConfig) (args : list string) := set_args c args.
Definition WithName (c : moduleConfig) (name : string) := set_name c name.
Definition WithStartFunctions (c : moduleConfig) (fs : list string) :=
  set_startFunctions c fs.
Definition WithStderr (c : moduleConfig) (w : Handle) := set_stderr c w.
Definition WithStdin (c : moduleConfig) (r : Handle) := set_stdin c r.
Definition WithStdout (c : moduleConfig) (w : Handle) := set_stdout c w.

(** What a configuration says, read through its pointers. *)
Definition environ_of (h : heap) (c : moduleConfig) : list string :=
  match arr (environ c) with
  | Some a => take (len (environ c)) (default [] (arrays h !! a))
  | None => []
  end.

Definition environKeys_of (h : heap) (c : moduleConfig) : gmap string nat :=
  default ∅ (l ← environKeys c; environKeysH h !! l).

Definition preopens_of (h : heap) (c : moduleConfig) : gmap Z FileEntry :=
  default ∅ (l ← preopens c; preopensH h !! l).

Definition preopenPaths_of (h : heap) (c : moduleConfig) : gmap string Z :=
  default ∅ (l ← preopenPaths c; preopenPathsH h !! l).

Definition replacedImports_of (h : heap) (c : moduleConfig)
  : gmap string (string * string) :=
  default ∅ (l ← replacedImports c; replacedImportsH h !! l).

Definition replacedImportModules_of (h : heap) (c : moduleConfig)
  : gmap string string :=
  default ∅ (l ← replacedImportModules c; replacedImportModulesH h !! l).

Section Append.

(** The capacity Go's runtime picks when [append] has to reallocate; it is
    not part of the language, only that the new array holds the result. *)
Variable growcap : nat -> nat -> nat.

(** [append(s, k, v)] *)
Definition append2 (h : heap) (s : slice) (k v : string) : heap * res slice :=
  if (len s + 2 <=? cap s)%nat then
    match a ← arr s; l ← arrays h !! a; Some (a, l) with
    | Some (a, l) =>
        (set_arrays h (<[a := <[S (len s) := v]> (<[len s := k]> l)]> (arrays h)),
         Ok {| arr := Some a; len := len s + 2; cap := cap s |})
    | None => (h, Panic)
    end
  else
    let old := match arr s with
               | Some a => take (len s) (default [] (arrays h !! a))
               | None => []
               end in
    let c' := Nat.max (len s + 2) (growcap (cap s) (len s + 2)) in
    let a' := fresh (dom (arrays h)) in
    (set_arrays h
       (<[a' := old ++ [k; v] ++ replicate (c' - (len s + 2)) ""%string]> (arrays h)),
     Ok {| arr := Some a'; len := len s + 2; cap := c' |}).

Definition WithEnv (h : heap) (c : moduleConfig) (key value : string)
  : heap * res moduleConfig :=
  let ret := c in
  (* reading a nil map finds nothing *)
  match environKeys ret with
  | None => (h, Panic) (* [ret.environKeys[key] = ...] on a nil map *)
  | Some ek =>
      match environKeysH h !! ek with
      | None => (h, Panic)
      | Some keys =>
          match keys !! key with
          | Some i =>
              if (i + 1 <? len (environ ret))%nat then
                match a ← arr (environ ret); l ← arrays h !! a; Some (a, l) with
                | Some (a, l) =>
                    (set_arrays h (<[a := <[(i + 1)%nat := value]> l]> (arrays h)),
                     Ok ret)
                | None => (h, Panic)
                end
              else (h, Panic)
          | None =>
              let h := set_environKeysH h
                         (<[ek := <[key := len (environ ret)]> keys]> (environKeysH h)) in
              match append2 h (environ ret) key value with
              | (h, Ok s) => (h, Ok (set_environ ret s))
              | (h, Err e) => (h, Err e)
              | (h, Panic) => (h, Panic)
              end
          end
      end
  end.

End Append.

(** [setFS] has a pointer receiver: it returns the updated [*c]. *)
Definition setFS (h : heap) (c : moduleConfig) (path : string) (fs : Handle)
  : heap * res moduleConfig :=
  let entry := {| Path := path; FS := fs |} in
  let store_entry (h : heap) (fd : Z) : option heap :=
    po ← preopens c; m ← preopensH h !! po;
    Some (set_preopensH h (<[po := <[fd := entry]> m]> (preopensH h))) in
  match l ← preopenPaths c; m ← preopenPathsH h !! l; m !! path with
  | Some fd =>
      match store_entry h fd with
      | Some h => (h, Ok c)
      | None => (h, Panic)
      end
  | None =>
      match store_entry h (preopenFD c) with
      | None => (h, Panic)
      | Some h =>
          match l ← preopenPaths c; m ← preopenPathsH h !! l; Some (l, m) with
          | None => (h, Panic)
          | Some (l, m) =>
              let h := set_preopenPathsH h
                         (<[l := <[path := preopenFD c]> m]> (preopenPathsH h)) in
              (h, Ok (set_preopenFD c (uint32 (preopenFD c + 1))))
          end
      end
  end.

Definition WithFS (h : heap) (c : moduleConfig) (fs : Handle)
  : heap * res moduleConfig :=
  let ret := c in setFS h ret "/" fs.

Definition WithWorkDirFS (h : heap) (c : moduleConfig) (fs : Handle)
  : heap * res moduleConfig :=
  let ret := c in setFS h ret "." fs.

(** The key of [replacedImports]: module, NUL, name. *)
Definition NUL : Ascii.ascii := Ascii.zero.

Definition importKey (oldModule oldName : string) : string :=
  (oldModule ++ String NUL oldName)%string.

Definition WithImport (h : heap) (c : moduleConfig)
    (oldModule oldName newModule newName : string) : heap * res moduleConfig :=
  let ret := c in
  let '(h, ret, l) :=
    match replacedImports ret with
    | Some l => (h, ret, l)
    | None =>
        let l := fresh (dom (replacedImportsH h)) in
        (set_replacedImportsH h (<[l := ∅]> (replacedImportsH h)),
         set_replacedImports ret (Some l), l)
    end in
  match replacedImportsH h !! l with
  | None => (h, Panic)
  | Some m =>
      (set_replacedImportsH h
         (<[l := <[importKey oldModule oldName := (newModule, newName)]> m]>
            (replacedImportsH h)),
       Ok ret)
  end.

Definition WithImportModule (h : heap) (c : moduleConfig)
    (oldModule newModule : string) : heap * res moduleConfig :=
  let ret := c in
  let '(h, ret, l) :=
    match replacedImportModules ret with
    | Some l => (h, ret, l)
    | None =>
        let l := fresh (dom (replacedImportModulesH h)) in
        (set_replacedImportModulesH h (<[l := ∅]> (replacedImportModulesH h)),
         set_replacedImportModules ret (Some l), l)
    end in
  match replacedImportModulesH h !! l with
  | None => (h, Panic)
  | Some m =>
      (set_replacedImportModulesH h
         (<[l := <[oldModule := newModule]> m]> (replacedImportModulesH h)),
       Ok ret)
  end.

End ModuleConfig.

(** ** Rewriting the imports of a module ([moduleConfig.replaceImports]) *)

Module ReplaceImports.
Import ModuleConfig.

(** The heap of [*wasm.Module], of the backing arrays of [[]*wasm.Import]
    and of [*wasm.Import].  A slice of imports is a pointer to its array:
    the code never reslices one. *)
Record mheap := mkMheap {
  modulesH : gmap loc (Module_.t (option loc));
  slicesH : gmap loc (list loc);
  importsH : gmap loc Import_.t
}.

(** [strings.IndexByte] *)
Fixpoint IndexByte (s : string) (c : Ascii.ascii) : Z :=
  match s with
  | EmptyString => -1
  | String a s =>
      if Ascii.eqb a c then 0
      else let r := IndexByte s c in if r <? 0 then -1 else r + 1
  end.

(** [s[lo:hi]], which panics unless [0 <= lo <= hi <= len(s)]. *)
Definition slice_string (s : string) (lo hi : Z) : res string :=
  if (0 <=? lo) && (lo <=? hi) && (hi <=? Z.of_nat (String.length s))
  then Ok (String.substring (Z.to_nat lo) (Z.to_nat (hi - lo)) s)
  else Panic.

Definition set_Module (imp : Import_.t) (m : string) : Import_.t :=
  {| Import_.Type_ := Import_.Type_ imp; Import_.Module_ := m;
     Import_.Name := Import_.Name imp; Import_.DescFunc := Import_.DescFunc imp;
     Import_.DescTable := Import_.DescTable imp;
     Import_.DescMem := Import_.DescMem imp;
     Import_.DescGlobal := Import_.DescGlobal imp |}.

Definition set_Module_Name (imp : Import_.t) (m n : string) : Import_.t :=
  {| Import_.Type_ := Import_.Type_ imp; Import_.Module_ := m;
     Import_.Name := n; Import_.DescFunc := Import_.DescFunc imp;
     Import_.DescTable := Import_.DescTable imp;
     Import_.DescMem := Import_.DescMem imp;
     Import_.DescGlobal := Import_.DescGlobal imp |}.

(** The body of the first inner loop: the copy to store, if the import
    matches. *)
Definition replaceModule (oldModule newModule : string) (imp : Import_.t)
  : res (option Import_.t) :=
  if decide (Import_.Module_ imp = oldModule)
  then Ok (Some (set_Module imp newModule))
  else Ok None.

(** The body of the second inner loop. *)
Definition replaceImport (oldImport : string) (newImport : string * string)
    (imp : Import_.t) : res (option Import_.t) :=
  let nulIdx := IndexByte oldImport NUL in
  oldModule ← slice_string oldImport 0 nulIdx;
  oldName ← slice_string oldImport (nulIdx + 1) (Z.of_nat (String.length oldImport));
  if decide (Import_.Module_ imp = oldModule ∧ Import_.Name imp = oldName)
  then Ok (Some (set_Module_Name imp (fst newImport) (snd newImport)))
  else Ok None.

(** [for i, imp := range replacedImports { ... }]: both inner loops store a
    pointer to a fresh copy where the body matches and the old pointer
    elsewhere.  The result is the heap of imports, the new content of the
    array and whether [changed] was set. *)
Fixpoint range_replace (body : Import_.t -> res (option Import_.t))
    (imps : gmap loc Import_.t) (ptrs : list loc)
  : res (gmap loc Import_.t * list loc * bool) :=
  match ptrs with
  | [] => Ok (imps, [], false)
  | p :: ptrs =>
      match imps !! p with
      | None => Panic
      | Some imp =>
          r ← body imp;
          match r with
          | Some cp =>
              let l := fresh (dom imps) in
              st ← range_replace body (<[l := cp]> imps) ptrs;
              Ok (st.1.1, l :: st.1.2, true)
          | None =>
              st ← range_replace body imps ptrs;
              Ok (st.1.1, p :: st.1.2, st.2)
          end
      end
  end.

(** An outer loop: one [range_replace] per entry of the map, in the order
    in which [range] visits the entries. *)
Fixpoint replace_all (bodies : list (Import_.t -> res (option Import_.t)))
    (imps : gmap loc Import_.t) (ptrs : list loc) (changed : bool)
  : res (gmap loc Import_.t * list loc * bool) :=
  match bodies with
  | [] => Ok (imps, ptrs, changed)
  | body :: bodies =>
      st ← range_replace body imps ptrs;
      replace_all bodies st.1.1 st.1.2 (changed || st.2)
  end.

(** Go's [range] over a map visits every entry once, in an order the
    language leaves open. *)
Class MapRange := {
  range_ : forall {V : Type}, gmap string V -> list (string * V);
  range_perm : forall (V : Type) (m : gmap string V), range_ m ≡ₚ map_to_list m
}.

Section ReplaceImports.
Context `{MapRange}.

Definition replaceImports (h : heap) (c : moduleConfig) (mh : mheap)
    (module : loc) : mheap * res loc :=
  if bool_decide (replacedImportModules c = None)
     && bool_decide (replacedImports c = None)
  then (mh, Ok module)
  else
      match modulesH mh !! module with
      | None => (mh, Panic)
      | Some md =>
          match Module_.ImportSection md with
          | None => (mh, Ok module)
          | Some sl =>
              match slicesH mh !! sl with
              | None => (mh, Panic)
              | Some ptrs =>
                  (* [make] and [copy] *)
                  let a := fresh (dom (slicesH mh)) in
                  let bodies1 :=
                    map (fun e => replaceModule (fst e) (snd e))
                        (range_ (replacedImportModules_of h c)) in
                  let bodies2 :=
                    map (fun e => replaceImport (fst e) (snd e))
                        (range_ (replacedImports_of h c)) in
                  match st ← replace_all bodies1 (importsH mh) ptrs false;
                        replace_all bodies2 st.1.1 st.1.2 st.2 with
                  | Panic => (mh, Panic)
                  | Err e => (mh, Err e)
                  | Ok st =>
                      let mh := {| modulesH := modulesH mh;
                                   slicesH := <[a := st.1.2]> (slicesH mh);
                                   importsH := st.1.1 |} in
                      if st.2 : bool then
                        let ret := Module_.with_ImportSection md (Some a) in
                        let r := fresh (dom (modulesH mh)) in
                        ({| modulesH := <[r := ret]> (modulesH mh);
                            slicesH := slicesH mh;
                            importsH := importsH mh |}, Ok r)
                      else (mh, Ok module)
                  end
              end
          end
      end.

End ReplaceImports.

(** The imports a module pointer leads to. *)
Definition imports_of (mh : mheap) (module : loc) : option (list Import_.t) :=
  md ← modulesH mh !! module;
  match Module_.ImportSection md with
  | None => Some []
  | Some sl => ptrs ← slicesH mh !! sl; mapM (fun p => importsH mh !! p) ptrs
  end.

(** The rewriting of one import by the two kinds of replacement. *)
Definition rewriteModule (imp : Import_.t) (e : string * string) : Import_.t :=
  if decide (Import_.Module_ imp = fst e) then set_Module imp (snd e) else imp.

(** The module and the name a key of [replacedImports] stands for: what is
    before and after its first NUL. *)
Definition splitKey (oldImport : string) : res (string * string) :=
  let nulIdx := IndexByte oldImport NUL in
  oldModule ← slice_string oldImport 0 nulIdx;
  oldName ← slice_string oldImport (nulIdx + 1) (Z.of_nat (String.length oldImport));
  Ok (oldModule, oldName).

Definition rewriteImport (imp : Import_.t) (e : string * (string * string))
  : Import_.t :=
  match splitKey (fst e) with
  | Ok (oldModule, oldName) =>
      if decide (Import_.Module_ imp = oldModule ∧ Import_.Name imp = oldName)
      then set_Module_Name imp (fst (snd e)) (snd (snd e))
      else imp
  | _ => imp
  end.

(** The order [replaceImports] follows: whole modules first. *)
Definition modules_then_imports (ms : list (string * string))
    (is_ : list (string * (string * string))) (imp : Import_.t) : Import_.t :=
  foldl rewriteImport (foldl rewriteModule imp ms) is_.

(** The order the specification gives (§6, "applied in this order"):
    [Import] replacements first, [ImportModule] replacements second. *)
Definition imports_then_modules (ms : list (string * string))
    (is_ : list (string * (string * string))) (imp : Import_.t) : Import_.t :=
  foldl rewriteModule (foldl rewriteImport imp is_) ms.

End ReplaceImports.

(** ** Vocabulary of the properties *)

(** The invariant of a store: every instantiated module has its name
    reserved.  [NewStore] establishes it and [Instantiate] keeps it. *)
Definition store_inv (s : Store.t) : Prop :=
  dom (Store.modules s) ⊆ Store.moduleNames s.

Section InterningVocabulary.
Variable String_ : FunctionType.t -> string.

(** A sequence of calls of [getFunctionTypeID], with the result of each. *)
Fixpoint intern_all (s : Store.t) (ts : list FunctionType.t)
  : Store.t * list (res Z) :=
  match ts with
  | [] => (s, [])
  | t :: ts =>
      let '(s, r) := getFunctionTypeID String_ s t in
      let '(s, rs) := intern_all s ts in
      (s, r :: rs)
  end.

(** The invariant of the intern map: its values are the numbers below its
    size, each for one key, and its size is within the limit. *)
Record interned (s : Store.t) : Prop := {
  interned_dense : forall k id,
    Store.typeIDs s !! k = Some id -> 0 <= id < Z.of_nat (size (Store.typeIDs s));
  interned_inj : forall k1 k2 id,
    Store.typeIDs s !! k1 = Some id -> Store.typeIDs s !! k2 = Some id -> k1 = k2;
  interned_surj : forall id,
    0 <= id < Z.of_nat (size (Store.typeIDs s)) ->
    exists k, Store.typeIDs s !! k = Some id;
  interned_limit :
    Z.of_nat (size (Store.typeIDs s)) <= Store.functionMaxTypes s < 2 ^ 32
}.

End InterningVocabulary.

(** A textual form of function types for the closed examples; the
    properties of the store hold for any. *)
Definition ValueTypeName (v : ValueType) : string :=
  match v with
  | ValueTypeI32 => "i32"
  | ValueTypeI64 => "i64"
  | ValueTypeF32 => "f32"
  | ValueTypeF64 => "f64"
  | ValueTypeFuncref => "funcref"
  | ValueTypeExternref => "externref"
  end.

Definition example_String (t : FunctionType.t) : string :=
  (String.concat "" (map ValueTypeName (FunctionType.Params t)) ++ "_"
   ++ String.concat "" (map ValueTypeName (FunctionType.Results t)))%string.

Definition example_types : list FunctionType.t :=
  [ {| FunctionType.Params := []; FunctionType.Results := [] |};
    {| FunctionType.Params := [ValueTypeI32]; FunctionType.Results := [] |};
    {| FunctionType.Params := []; FunctionType.Results := [] |};
    {| FunctionType.Params := [ValueTypeI64]; FunctionType.Results := [ValueTypeI32] |} ].

(** What [resolveImports] asks of the limits of an imported table. *)
Definition table_limits_ok (expected : Table.t) (actual : TableInstance.t) : Prop :=
  Table.Min expected <= TableInstance.Min actual /\
  forall expectedMax, Table.Max expected = Some expectedMax ->
    exists actualMax, TableInstance.Max actual = Some actualMax /\
                      actualMax <= expectedMax.

(** [acc] with one more imported table. *)
Definition add_importedTable (acc : Imported.t) (t : TableInstance.t) : Imported.t :=
  {| Imported.importedFunctions := Imported.importedFunctions acc;
     Imported.importedGlobals := Imported.importedGlobals acc;
     Imported.importedTables := Imported.importedTables acc ++ [t];
     Imported.importedMemory := Imported.importedMemory acc |}.

(** An example: the module "env" exports a table of external references
    as "t"; another module imports "env"."t" as a table of function
    references with the same limits. *)
Definition example_externref_table : TableInstance.t :=
  {| TableInstance.References := [None; None]; TableInstance.Min := 2;
     TableInstance.Max := Some 4; TableInstance.Type_ := RefTypeExternref |}.

Definition example_table_export : ExportInstance.t :=
  {| ExportInstance.Type_ := ExternTypeTable;
     ExportInstance.Function := None; ExportInstance.Global := None;
     ExportInstance.Memory := None;
     ExportInstance.Table := Some example_externref_table |}.

Definition example_env : ModuleInstance.t :=
  {| ModuleInstance.Name := "env";
     ModuleInstance.Exports := {[ "t"%string := example_table_export ]};
     ModuleInstance.Functions := []; ModuleInstance.Globals := [];
     ModuleInstance.Memory := None;
     ModuleInstance.Tables := [example_externref_table];
     ModuleInstance.Types := []; ModuleInstance.CallCtx := None;
     ModuleInstance.Engine := None; ModuleInstance.TypeIDs := [];
     ModuleInstance.DataInstances := []; ModuleInstance.ElementInstances := [] |}.

Definition example_store : Store.t :=
  addModule (requireModuleName (NewStore 0) "env").1 example_env.


Definition example_table_import (expected : Table.t) : Import_.t :=
  {| Import_.Type_ := ExternTypeTable; Import_.Module_ := "env";
     Import_.Name := "t"; Import_.DescFunc := 0;
     Import_.DescTable := Some expected;
     Import_.DescMem := None; Import_.DescGlobal := None |}.

Definition example_importer (expected : Table.t) : Module :=
  {| Module_.TypeSection := [];
     Module_.ImportSection := [example_table_import expected];
     Module_.FunctionSection := []; Module_.ExportSection := [];
     Module_.StartSection := None; Module_.ElementSection := [];
     Module_.DataSection := []; Module_.HostFunctionSection := false |}.

(** A signature comparison for the closed examples. *)
Definition example_EqualsSignature (t : FunctionType.t)
    (params results : list ValueType) : bool :=
  bool_decide (FunctionType.Params t = params)
  && bool_decide (FunctionType.Results t = results).

Section InstantiateVocabulary.
Context (String_ : FunctionType.t -> string).
Context (EqualsSignature : FunctionType.t -> list ValueType -> list ValueType -> bool).
Context `{Codec} `{ModuleMethods} `{Engine}.

(** [Instantiate] gets as far as the assembled module instance [m]: the
    name is reserved, the types are interned (leaving the store [s]), the
    imports resolve, the tables are built, the memory is allocated (leaving
    the heap [mems1]) and [addSections] returns [m]. *)
Definition assembled (w : World.t) (module : Module) (name : string)
    (s : Store.t) (mems1 : gmap loc MemoryInstance.t) (imported : Imported.t)
    (tables : list TableInstance.t) (tableInit : TableInit)
    (funcSection : SectionID) (functions : list FunctionInstance.t)
    (m : ModuleInstance.t) : Prop :=
  exists (s1 : Store.t) (typeIDs : list Z) (memory : option loc),
    requireModuleName (World.store w) name = (s1, None) /\
    getFunctionTypeIDs String_ s1 (Module_.TypeSection module) = (s, Ok typeIDs) /\
    resolveImports EqualsSignature (World.mems w) s module = Ok imported /\
    buildTables module (Imported.importedTables imported)
      (Imported.importedGlobals imported) = Ok (tables, tableInit) /\
    alloc_memory (World.mems w) (buildMemory module) = (mems1, memory) /\
    (funcSection, functions)
    = (if Module_.HostFunctionSection module
       then (SectionIDHostFunction, buildHostFunctions module name)
       else (SectionIDFunction, buildFunctions module name)) /\
    addSections name module (Imported.importedFunctions imported) functions
      (Imported.importedGlobals imported)
      (buildGlobals module (Imported.importedGlobals imported)) tables
      (Imported.importedMemory imported) memory
      (Module_.TypeSection module) typeIDs = Ok m.

(** An active segment lies within a buffer: its offset is an [int32] that
    is not negative, and its end is within the buffer.  A passive segment
    has no destination. *)
Definition data_in_bounds (globals : list GlobalInstance.t)
    (buf : list Byte.byte) (d : DataSegment.t) : Prop :=
  forall e, DataSegment.OffsetExpression d = Some e ->
    exists offset,
      executeConstExpression globals e = Ok (VInt32 offset) /\
      0 <= offset /\
      offset + Z.of_nat (length (DataSegment.Init d)) <= Z.of_nat (length buf).

(** The offsets of the active segments are [int32] constants, as module
    validation ensures. *)
Definition offsets_are_int32 (globals : list GlobalInstance.t)
    (data : list DataSegment.t) : Prop :=
  forall d e, d ∈ data -> DataSegment.OffsetExpression d = Some e ->
    exists offset, executeConstExpression globals e = Ok (VInt32 offset).

(** The bytes of [init] in place of those of [buf] from [offset] on. *)
Definition overwrite (buf : list Byte.byte) (offset : nat) (init : list Byte.byte)
  : list Byte.byte :=
  take offset buf ++ init ++ drop (offset + length init) buf.

(** Every active segment written in full, in the order of the section. *)
Fixpoint write_segments (globals : list GlobalInstance.t)
    (buf : list Byte.byte) (data : list DataSegment.t) : list Byte.byte :=
  match data with
  | [] => buf
  | d :: data =>
      match DataSegment.OffsetExpression d with
      | None => write_segments globals buf data
      | Some e =>
          match executeConstExpression globals e with
          | Ok (VInt32 offset) =>
              write_segments globals
                (overwrite buf (Z.to_nat offset) (DataSegment.Init d)) data
          | _ => buf
          end
      end
  end.

End InstantiateVocabulary.

(** Instances of the parameters for the closed examples: LEB128 integers
    and little-endian floats; a module without tables, globals and
    functions of its own, with the memory given; an engine that compiles
    every module or none, and whose calls succeed without writing. *)
Definition byte_val (b : Byte.byte) : Z := Z.of_N (Byte.to_N b).

Fixpoint leb128_unsigned (bs : list Byte.byte) : Z :=
  match bs with
  | [] => 0
  | b :: bs =>
      if byte_val b <? 128 then byte_val b
      else byte_val b - 128 + 128 * leb128_unsigned bs
  end.

Fixpoint leb128_signed (bs : list Byte.byte) : Z :=
  match bs with
  | [] => 0
  | b :: bs =>
      if byte_val b <? 64 then byte_val b
      else if byte_val b <? 128 then byte_val b - 128
      else byte_val b - 128 + 128 * leb128_signed bs
  end.

Fixpoint little_endian (bs : list Byte.byte) : Z :=
  match bs with
  | [] => 0
  | b :: bs => byte_val b + 256 * little_endian bs
  end.

Definition example_Codec : Codec :=
  {| DecodeInt32 := leb128_signed; DecodeInt64 := leb128_signed;
     DecodeUint32 := leb128_unsigned;
     DecodeFloat32 bs := little_endian (take 4 bs);
     DecodeFloat64 bs := little_endian (take 8 bs) |}.

Definition example_ModuleMethods (memory : option MemoryInstance.t)
  : ModuleMethods :=
  {| buildTables _ importedTables _ := Ok (importedTables, ∅);
     buildGlobals _ _ := [];
     buildMemory _ := memory;
     buildFunctions _ _ := [];
     buildHostFunctions _ _ := [];
     funcDesc _ _ _ := ""%string |}.

Definition example_Engine (compiles : bool) : Engine :=
  {| NewModuleEngine _ _ _ _ _ _ :=
       if compiles then Ok 1%positive else Err (ErrOther "compile error");
     CreateFuncElementInstance _ refs :=
       {| ElementInstance.References := refs;
          ElementInstance.Type_ := RefTypeFuncref |};
     Call _ _ mems := (mems, None) |}.

(** A module with one page of memory and one active data segment of two
    bytes at [offset], and a world with nothing instantiated. *)
Definition example_memory : MemoryInstance.t :=
  {| MemoryInstance.Buffer := replicate (Z.to_nat 65536) Byte.x00;
     MemoryInstance.Min := 1; MemoryInstance.Cap := 1; MemoryInstance.Max := 1 |}.

Definition example_data_module (offset : list Byte.byte) : Module :=
  {| Module_.TypeSection := []; Module_.ImportSection := [];
     Module_.FunctionSection := []; Module_.ExportSection := [];
     Module_.StartSection := None; Module_.ElementSection := [];
     Module_.DataSection :=
       [ {| DataSegment.OffsetExpression :=
              Some {| ConstantExpression.Opcode := OpcodeI32Const;
                      ConstantExpression.Data := offset |};
            DataSegment.Init := [Byte.x01; Byte.x02] |} ];
     Module_.HostFunctionSection := false |}.

Definition example_world : World.t :=
  {| World.store := NewStore 0; World.mems := ∅ |}.

(** 65535 and 16 in signed LEB128. *)
Definition leb_65535 : list Byte.byte := [Byte.xff; Byte.xff; Byte.x03].
Definition leb_16 : list Byte.byte := [Byte.x10].

Section ReplaceImportsVocabulary.
Import ModuleConfig ReplaceImports.

(** What a body of an inner loop makes of an import. *)
Definition rewrite_body (body : Import_.t -> res (option Import_.t))
    (imp : Import_.t) : Import_.t :=
  match body imp with
  | Ok (Some cp) => cp
  | _ => imp
  end.

(** A body that does not panic. *)
Definition total_body (body : Import_.t -> res (option Import_.t)) : Prop :=
  forall imp, exists r, body imp = Ok r.

(** A configured replacement matches an import: its module has a
    replacement, or its module and name are those of a key of
    [replacedImports]. *)
Definition import_matches (h : heap) (c : moduleConfig) (imp : Import_.t) : Prop :=
  (exists newModule,
     replacedImportModules_of h c !! Import_.Module_ imp = Some newModule) \/
  (exists key newImport,
     replacedImports_of h c !! key = Some newImport /\
     splitKey key = Ok (Import_.Module_ imp, Import_.Name imp)).

(** The pointers of an array lead to these imports. *)
Definition points_to (imps : gmap loc Import_.t) (ptrs : list loc)
    (imports : list Import_.t) : Prop :=
  Forall2 (fun p imp => imps !! p = Some imp) ptrs imports.

(** Every key of [replacedImports] has a NUL, as the keys [WithImport]
    builds have. *)
Definition keys_have_NUL (h : heap) (c : moduleConfig) : Prop :=
  forall key newImport,
    replacedImports_of h c !! key = Some newImport -> 0 <= IndexByte key NUL.

End ReplaceImportsVocabulary.

(** [range] in the order of [map_to_list], for the closed examples. *)
Definition example_MapRange : ReplaceImports.MapRange :=
  {| ReplaceImports.range_ := fun V m => map_to_list m;
     ReplaceImports.range_perm := fun V m => Permutation_refl _ |}.

(** The example of [WithImport]'s documentation, cut down to one import:
    the module imports "js"."increment"; the configuration replaces the
    module "js" by "wasm" and the import "wasm"."increment" by
    "go"."increment". *)
Definition example_import (module name : string) : Import_.t :=
  {| Import_.Type_ := ExternTypeFunc; Import_.Module_ := module;
     Import_.Name := name; Import_.DescFunc := 0; Import_.DescTable := None;
     Import_.DescMem := None; Import_.DescGlobal := None |}.

Definition example_module : Module_.t (option loc) :=
  {| Module_.TypeSection := []; Module_.ImportSection := Some 1%positive;
     Module_.FunctionSection := []; Module_.ExportSection := [];
     Module_.StartSection := None; Module_.ElementSection := [];
     Module_.DataSection := []; Module_.HostFunctionSection := false |}.

Definition example_mheap : ReplaceImports.mheap :=
  {| ReplaceImports.modulesH := {[ 1%positive := example_module ]};
     ReplaceImports.slicesH := {[ 1%positive := [1%positive] ]};
     ReplaceImports.importsH := {[ 1%positive := example_import "js" "increment" ]} |}.

Definition example_config : ModuleConfig.heap * res ModuleConfig.moduleConfig :=
  let '(h, c) := ModuleConfig.NewModuleConfig ModuleConfig.empty_heap in
  match ModuleConfig.WithImportModule h c "js" "wasm" with
  | (h, Ok c) => ModuleConfig.WithImport h c "wasm" "increment" "go" "increment"
  | r => r
  end.

Definition example_config_heap : ModuleConfig.heap := example_config.1.

Definition example_config_value : ModuleConfig.moduleConfig :=
  res_get ModuleConfig.zero example_config.2.

(** ** Vocabulary of the further properties *)

(** [Store.Module]: the call context of the module of that name, or nil. *)
Definition StoreModule (s : Store.t) (moduleName : string)
  : option CallContext.t :=
  match module_ s moduleName with
  | Some m => ModuleInstance.CallCtx m
  | None => None
  end.

(** A world in which the name "env" is taken. *)
Definition example_world_env : World.t :=
  {| World.store := example_store; World.mems := ∅ |}.


(** [Instantiate] of the example module with a data segment at [offset], as
    "m", in the empty world. *)
Definition example_Instantiate (compiles : bool) (offset : list Byte.byte)
  : World.t * res CallContext.t :=
  @Instantiate example_String example_EqualsSignature example_Codec
    (example_ModuleMethods (Some example_memory)) (example_Engine compiles)
    example_world (example_data_module offset) "m" None.


Section ResolveImportsVocabulary.
Variable EqualsSignature :
  FunctionType.t -> list ValueType -> list ValueType -> bool.
Variable mems : gmap loc MemoryInstance.t.
Variable s : Store.t.
Variable module : Module.

(** The export an import names, if the module is instantiated and exports
    that name. *)
Definition exported (i : Import_.t) : option ExportInstance.t :=
  m ← Store.modules s !! Import_.Module_ i;
  ModuleInstance.Exports m !! Import_.Name i.

(** What [resolveImports] asks of one import. *)
Definition import_ok (i : Import_.t) : Prop :=
  exists exp,
    exported i = Some exp /\
    ExportInstance.Type_ exp = Import_.Type_ i /\
    match Import_.Type_ i with
    | ExternTypeFunc =>
        exists expectedType f,
          Import_.DescFunc i < Z.of_nat (length (Module_.TypeSection module)) /\
          Module_.TypeSection module !! Z.to_nat (Import_.DescFunc i)
          = Some expectedType /\
          ExportInstance.Function exp = Some f /\
          EqualsSignature expectedType
            (FunctionType.Params (FunctionInstance.Type_ f))
            (FunctionType.Results (FunctionInstance.Type_ f)) = true
    | ExternTypeTable =>
        exists expected tbl,
          Import_.DescTable i = Some expected /\
          ExportInstance.Table exp = Some tbl /\
          table_limits_ok expected tbl
    | ExternTypeMemory =>
        exists expected l mem,
          Import_.DescMem i = Some expected /\
          ExportInstance.Memory exp = Some l /\
          mems !! l = Some mem /\
          Memory.Min expected <= MemoryInstance.Min mem /\
          MemoryInstance.Max mem <= Memory.Max expected
    | ExternTypeGlobal =>
        exists expected g,
          Import_.DescGlobal i = Some expected /\
          ExportInstance.Global exp = Some g /\
          GlobalType.Mutable expected
          = GlobalType.Mutable (GlobalInstance.Type_ g) /\
          GlobalType.ValType expected
          = GlobalType.ValType (GlobalInstance.Type_ g)
    end.

(** The exported object of an import of the given kind. *)
Definition imported_of {A : Type} (et : ExternType)
    (field : ExportInstance.t -> option A) (i : Import_.t) : option A :=
  if decide (Import_.Type_ i = et) then exp ← exported i; field exp else None.

(** [acc] with the objects of the imports [rest] after it, each kind in the
    order of the imports; the memory is that of the last memory import. *)
Definition extend_imported (acc : Imported.t) (rest : list Import_.t)
  : Imported.t :=
  {| Imported.importedFunctions :=
       Imported.importedFunctions acc
       ++ omap (imported_of ExternTypeFunc ExportInstance.Function) rest;
     Imported.importedGlobals :=
       Imported.importedGlobals acc
       ++ omap (imported_of ExternTypeGlobal ExportInstance.Global) rest;
     Imported.importedTables :=
       Imported.importedTables acc
       ++ omap (imported_of ExternTypeTable ExportInstance.Table) rest;
     Imported.importedMemory :=
       match list.last (omap (imported_of ExternTypeMemory
                               ExportInstance.Memory) rest) with
       | Some l => Some l
       | None => Imported.importedMemory acc
       end |}.



End ResolveImportsVocabulary.


(** An export instance holds the object of the module instance that the
    export names by kind and index. *)
Definition export_matches (m : ModuleInstance.t) (exp : Export_.t)
    (ei : ExportInstance.t) : Prop :=
  ExportInstance.Type_ ei = Export_.Type_ exp /\
  match Export_.Type_ exp with
  | ExternTypeFunc =>
      is_Some (ExportInstance.Function ei) /\
      ExportInstance.Function ei
      = ModuleInstance.Functions m !! Z.to_nat (Export_.Index exp)
  | ExternTypeGlobal =>
      is_Some (ExportInstance.Global ei) /\
      ExportInstance.Global ei
      = ModuleInstance.Globals m !! Z.to_nat (Export_.Index exp)
  | ExternTypeMemory =>
      ExportInstance.Memory ei = ModuleInstance.Memory m
  | ExternTypeTable =>
      is_Some (ExportInstance.Table ei) /\
      ExportInstance.Table ei
      = ModuleInstance.Tables m !! Z.to_nat (Export_.Index exp)
  end.

(** No export after the one at [k] has the name [name]. *)
Definition last_of_name (exports : list Export_.t) (k : nat) (name : string)
  : Prop :=
  forall k' exp', (k < k')%nat -> exports !! k' = Some exp' ->
                  Export_.Name exp' <> name.


(** A module that exports its memory as "mem", and its instance "m" with
    the memory at location 1. *)
Definition example_exporter : Module :=
  {| Module_.TypeSection := []; Module_.ImportSection := [];
     Module_.FunctionSection := [];
     Module_.ExportSection :=
       [ {| Export_.Type_ := ExternTypeMemory; Export_.Name := "mem";
            Export_.Index := 0 |} ];
     Module_.StartSection := None; Module_.ElementSection := [];
     Module_.DataSection := []; Module_.HostFunctionSection := false |}.

Definition example_exported : ModuleInstance.t :=
  res_get (ModuleInstance.new "m")
    (addSections "m" example_exporter [] [] [] [] [] None (Some 1%positive) [] []).



(** The active segment [d] writes the byte at index [i] of the memory. *)
Definition covers `{Codec} (globals : list GlobalInstance.t) (d : DataSegment.t)
    (i : nat) : Prop :=
  exists e offset,
    DataSegment.OffsetExpression d = Some e /\
    executeConstExpression globals e = Ok (VInt32 offset) /\
    (Z.to_nat offset <= i < Z.to_nat offset + length (DataSegment.Init d))%nat.


(** A memory of eight bytes at location 1, and an instance that points to
    it. *)
Definition example_small_memory : MemoryInstance.t :=
  {| MemoryInstance.Buffer := replicate 8 Byte.x00;
     MemoryInstance.Min := 0; MemoryInstance.Cap := 0; MemoryInstance.Max := 1 |}.

Definition example_small_instance : ModuleInstance.t :=
  {| ModuleInstance.Name := "m"; ModuleInstance.Exports := ∅;
     ModuleInstance.Functions := []; ModuleInstance.Globals := [];
     ModuleInstance.Memory := Some 1%positive; ModuleInstance.Tables := [];
     ModuleInstance.Types := []; ModuleInstance.CallCtx := None;
     ModuleInstance.Engine := None; ModuleInstance.TypeIDs := [];
     ModuleInstance.DataInstances := []; ModuleInstance.ElementInstances := [] |}.


Section RuntimeConfigVocabulary.
Import Features RuntimeConfig.

(** The six feature flags. *)
Definition all_features : list Z :=
  [FeatureBulkMemoryOperations; FeatureMultiValue; FeatureMutableGlobal;
   FeatureNonTrappingFloatToIntConversion; FeatureReferenceTypes;
   FeatureSignExtensionOps].

(** The flags an option assigns: its own, with its mutually dependent one;
    the two presets assign all, the memory options none. *)
Definition option_features (o : RuntimeOption) : list Z :=
  match o with
  | OBulkMemoryOperations _ | OReferenceTypes _ =>
      [FeatureBulkMemoryOperations; FeatureReferenceTypes]
  | OMultiValue _ => [FeatureMultiValue]
  | OMutableGlobal _ => [FeatureMutableGlobal]
  | ONonTrappingFloatToIntConversion _ => [FeatureNonTrappingFloatToIntConversion]
  | OSignExtensionOps _ => [FeatureSignExtensionOps]
  | OMemoryCapacityPages _ | OMemoryLimitPages _ => []
  | OWasmCore1 | OWasmCore2 => all_features
  end.

End RuntimeConfigVocabulary.


Section PreopensVocabulary.
Import ModuleConfig.

(** The invariant of the two preopen maps of a configuration: both
    pointers are valid, every path has the file descriptor of an entry with
    that path, below the next descriptor to use, and every entry is
    recorded under its path. *)
Definition preopens_wf (h : heap) (c : moduleConfig) : Prop :=
  (exists po m, preopens c = Some po /\ preopensH h !! po = Some m) /\
  (exists pp m, preopenPaths c = Some pp /\ preopenPathsH h !! pp = Some m) /\
  (forall path fd, preopenPaths_of h c !! path = Some fd ->
     fd < preopenFD c /\
     exists e, preopens_of h c !! fd = Some e /\ Path e = path) /\
  (forall fd e, preopens_of h c !! fd = Some e ->
     preopenPaths_of h c !! Path e = Some fd) /\
  0 <= preopenFD c < 2 ^ 32.

End PreopensVocabulary.


Section EnvironVocabulary.
Import ModuleConfig.

(** A slice is within its backing array, which is as long as the capacity;
    the nil slice has no array. *)
Definition slice_wf (h : heap) (s : slice) : Prop :=
  match arr s with
  | Some a => exists l, arrays h !! a = Some l /\ length l = cap s /\
                        (len s <= cap s)%nat
  | None => len s = 0%nat /\ cap s = 0%nat
  end.

(** The invariant of the environment of a configuration: the key map is
    there, the slice is within its array and holds pairs, and the key map
    sends each key to its index, the even index where the slice has it. *)
Definition environ_wf (h : heap) (c : moduleConfig) : Prop :=
  (exists ek keys, environKeys c = Some ek /\ environKeysH h !! ek = Some keys) /\
  slice_wf h (environ c) /\
  Nat.Even (len (environ c)) /\
  (forall k i, environKeys_of h c !! k = Some i <->
               Nat.Even i /\ environ_of h c !! i = Some k).

End EnvironVocabulary.


(** The strings of a slice. *)
Definition slice_view (h : ModuleConfig.heap) (s : ModuleConfig.slice)
  : list string :=
  match ModuleConfig.arr s with
  | Some a =>
      take (ModuleConfig.len s) (default [] (ModuleConfig.arrays h !! a))
  | None => []
  end.


(** ** [moduleConfig.toSysContext] *)

Module ToSysContext.
Import ModuleConfig.

(** The errors [toSysContext] builds. *)
Inductive configError :=
  | ErrEnvironEmptyKey        (* "environ invalid: empty key" *)
  | ErrEnvironKeyEquals       (* "environ invalid: key contains '=' character" *)
  | ErrFSNil (path : string). (* "FS for %s is nil" *)

(** The outcome of [toSysContext]: an error of its own, a panic, or what
    [wasm.NewSysContext] returns. *)
Inductive outcome (A : Type) :=
  | SysErr (e : configError)
  | SysPanic
  | SysReturn (r : A).
Arguments SysErr {A}.
Arguments SysPanic {A}.
Arguments SysReturn {A}.

(** The byte ['='], 61. *)
Definition EQUALS : Ascii.ascii := Ascii.ascii_of_nat 61.

(** [for j := 0; j < len(key); j++ { if key[j] == '=' ... }] *)
Fixpoint has_equals (key : string) : bool :=
  match key with
  | EmptyString => false
  | String a key => Ascii.eqb a EQUALS || has_equals key
  end.

(** The first loop, over the pairs of [c.environ]: [environ] holds the
    strings appended so far.  An odd length makes [c.environ[i+1]] panic. *)
Fixpoint check_environ (pairs : list string) (environ : list string)
  : outcome (list string) :=
  match pairs with
  | [] => SysReturn environ
  | [_] => SysPanic
  | key :: value :: pairs =>
      if (String.length key =? 0)%nat then SysErr ErrEnvironEmptyKey
      else if has_equals key then SysErr ErrEnvironKeyEquals
      else check_environ pairs
             (environ ++ [(key ++ String EQUALS value)%string])
  end.

(** The second loop, over the entries of [preopens] in the order [range]
    visits them: the root descriptor and whether "." is set. *)
Fixpoint scan_preopens (entries : list (Z * FileEntry)) (rootFD : Z)
    (setWorkDirFS : bool) : outcome (Z * bool) :=
  match entries with
  | [] => SysReturn (rootFD, setWorkDirFS)
  | (fd, entry) :: entries =>
      match FS entry with
      | None => SysErr (ErrFSNil (Path entry))
      | Some _ =>
          if String.eqb (Path entry) "/" then
            scan_preopens entries fd setWorkDirFS
          else if String.eqb (Path entry) "." then
            scan_preopens entries rootFD true
          else scan_preopens entries rootFD setWorkDirFS
      end
  end.

Section ToSysContext.
Context {A : Type}.

(** [wasm.NewSysContext], which is not among the sources: it gets the
    pointer to the preopen map, and the heap with it. *)
Variable NewSysContext :
  Z -> list string -> list string -> Handle -> Handle -> Handle ->
  option loc -> heap -> A.

(** The order in which [range] visits the entries of a preopen map. *)
Variable range_preopens : gmap Z FileEntry -> list (Z * FileEntry).

Definition toSysContext (h : heap) (c : moduleConfig) : heap * outcome A :=
  match check_environ (environ_of h c) [] with
  | SysErr e => (h, SysErr e)
  | SysPanic => (h, SysPanic)
  | SysReturn environ =>
      let preopens_ := preopens c in
      (* ranging over a nil map visits nothing *)
      let m := preopens_of h c in
      match scan_preopens (range_preopens m) 0 false with
      | SysErr e => (h, SysErr e)
      | SysPanic => (h, SysPanic)
      | SysReturn (rootFD, setWorkDirFS) =>
          let call (h : heap) :=
            (h, SysReturn (NewSysContext (2 ^ 32 - 1) (args c) environ (stdin c)
                             (stdout c) (stderr c) preopens_ h)) in
          if negb (rootFD =? 0) && negb setWorkDirFS then
            match preopens_, m !! rootFD with
            | Some po, Some root =>
                call (set_preopensH h
                        (<[po := <[preopenFD c
                                   := {| Path := "."; FS := FS root |}]> m]>
                           (preopensH h)))
            | _, _ => (h, SysPanic)
            end
          else call h
      end
  end.

End ToSysContext.
End ToSysContext.


Section ToSysContextVocabulary.
Import ModuleConfig ToSysContext.

(** An environment as pairs, and as the slice [c.environ] holds it. *)
Definition flat_pairs (ps : list (string * string)) : list string :=
  flat_map (fun p => [fst p; snd p]) ps.

(** A key [toSysContext] accepts: not empty, without ['=']. *)
Definition key_ok (p : string * string) : Prop :=
  fst p <> ""%string /\ has_equals (fst p) = false.

(** [key + "=" + value] *)
Definition environ_entry (p : string * string) : string :=
  (fst p ++ String EQUALS (snd p))%string.

End ToSysContextVocabulary.


(** A configuration with the environment pair ("", "x"), and instances of
    the parameters of [toSysContext] for the closed examples. *)
Definition example_empty_key_config : ModuleConfig.heap * ModuleConfig.moduleConfig :=
  let hc := ModuleConfig.NewModuleConfig ModuleConfig.empty_heap in
  let r := ModuleConfig.WithEnv (fun _ n => n) hc.1 hc.2 "" "x" in
  (r.1, res_get hc.2 r.2).

Definition example_NewSysContext (maxSize : Z) (args environ : list string)
    (stdin stdout stderr : ModuleConfig.Handle) (preopens : option loc)
    (h : ModuleConfig.heap) : list string :=
  environ.

Definition example_range_preopens (m : gmap Z ModuleConfig.FileEntry)
  : list (Z * ModuleConfig.FileEntry) :=
  map_to_list m.


(** A configuration whose preopen map, at location 1, has the entry of "/"
    under descriptor 3, with the file system [fs]. *)
Definition example_root_heap (fs : ModuleConfig.Handle) : ModuleConfig.heap :=
  ModuleConfig.set_preopensH ModuleConfig.empty_heap
    {[1%positive :=
        {[3 := {| ModuleConfig.Path := "/"; ModuleConfig.FS := fs |}]}]}.

Definition example_root_config : ModuleConfig.moduleConfig :=
  {| ModuleConfig.name := "m"; ModuleConfig.startFunctions := [];
     ModuleConfig.stdin := None; ModuleConfig.stdout := None;
     ModuleConfig.stderr := None; ModuleConfig.args := [];
     ModuleConfig.environ := ModuleConfig.nil_slice;
     ModuleConfig.environKeys := None; ModuleConfig.preopenFD := 4;
     ModuleConfig.preopens := Some 1%positive;
     ModuleConfig.preopenPaths := None;
     ModuleConfig.replacedImports := None;
     ModuleConfig.replacedImportModules := None |}.


Section ReplaceByLookupVocabulary.
Import ModuleConfig ReplaceImports.




End ReplaceByLookupVocabulary.


(** Two imports that differ in module and name at most. *)
Definition same_import_desc (i i' : Import_.t) : Prop :=
  Import_.Type_ i' = Import_.Type_ i /\
  Import_.DescFunc i' = Import_.DescFunc i /\
  Import_.DescTable i' = Import_.DescTable i /\
  Import_.DescMem i' = Import_.DescMem i /\
  Import_.DescGlobal i' = Import_.DescGlobal i.

(** * Properties *)

(** ** Feature flags and RuntimeConfig *)

Section FeatureFacts.
Import Features.

Lemma Get_Set_true (f x : Z) : x <> 0 -> Get (Set_ f x true) x = true.
Proof.
  intros Hx. unfold Get, Set_.
  replace (Z.land (Z.lor f x) x) with x.
  - destruct (Z.eqb_spec x 0); [contradiction | reflexivity].
  - apply Z.bits_inj'. intros n _.
    rewrite Z.land_spec, Z.lor_spec.
    destruct (Z.testbit f n), (Z.testbit x n); reflexivity.
Qed.

Lemma Get_Set_false (f x : Z) : Get (Set_ f x false) x = false.
Proof.
  unfold Get, Set_.
  replace (Z.land (Z.ldiff f x) x) with 0; [reflexivity |].
  apply Z.bits_inj'. intros n _.
  rewrite Z.land_spec, Z.ldiff_spec, Z.bits_0.
  destruct (Z.testbit f n), (Z.testbit x n); reflexivity.
Qed.

(** Switching a flag on keeps the flags that were on. *)
Lemma Get_Set_true_keeps (f x y : Z) :
  Get f x = true -> Get (Set_ f y true) x = true.
Proof.
  unfold Get, Set_. intros Hf.
  rewrite Z.land_lor_distr_l.
  destruct (Z.eqb_spec (Z.land f x) 0) as [E|E]; [discriminate |].
  destruct (Z.eqb_spec (Z.lor (Z.land f x) (Z.land y x)) 0) as [E'|E'];
    [| reflexivity].
  apply Z.lor_eq_0_iff in E'. tauto.
Qed.

(** Switching a flag off keeps the flags that were off. *)
Lemma Get_Set_false_keeps (f x y : Z) :
  Get f x = false -> Get (Set_ f y false) x = false.
Proof.
  unfold Get, Set_. intros Hf.
  destruct (Z.eqb_spec (Z.land f x) 0) as [E|E]; [| discriminate].
  replace (Z.land (Z.ldiff f y) x) with 0; [reflexivity |].
  apply Z.bits_inj'. intros n _.
  assert (Hn : Z.testbit (Z.land f x) n = false) by (rewrite E; apply Z.bits_0).
  rewrite Z.land_spec in Hn.
  rewrite Z.land_spec, Z.ldiff_spec, Z.bits_0.
  destruct (Z.testbit f n), (Z.testbit x n), (Z.testbit y n);
    simpl in *; congruence.
Qed.

(** Setting two flags to the same value leaves both at that value. *)
Lemma Get_Set_Set (f x y : Z) (v : bool) :
  x <> 0 -> y <> 0 ->
  Get (Set_ (Set_ f x v) y v) x = v /\ Get (Set_ (Set_ f x v) y v) y = v.
Proof.
  intros Hx Hy. destruct v.
  - split; [apply Get_Set_true_keeps |]; apply Get_Set_true; assumption.
  - split; [apply Get_Set_false_keeps |]; apply Get_Set_false.
Qed.

End FeatureFacts.

Section RuntimeConfigFacts.
Import Features RuntimeConfig.

(** C6: [WithFeatureBulkMemoryOperations v] and [WithFeatureReferenceTypes v]
    each return a configuration in which the bulk-memory-operations flag and
    the reference-types flag both read [v], whatever the receiver and
    whether [v] enables or disables. *)
Theorem bulk_memory_and_reference_types_coset (c : runtimeConfig) (v : bool) :
  let b := enabledFeatures (WithFeatureBulkMemoryOperations c v) in
  let r := enabledFeatures (WithFeatureReferenceTypes c v) in
  (Get b FeatureBulkMemoryOperations = v /\ Get b FeatureReferenceTypes = v) /\
  (Get r FeatureBulkMemoryOperations = v /\ Get r FeatureReferenceTypes = v).
Proof.
  cbn -[Get Set_ FeatureBulkMemoryOperations FeatureReferenceTypes].
  split.
  - apply Get_Set_Set; discriminate.
  - apply and_comm. apply Get_Set_Set; discriminate.
Qed.

(** Every option keeps a non-nil capacity function non-nil. *)
Lemma apply_option_capacity (c : runtimeConfig) (o : RuntimeOption) :
  is_Some (memoryCapacityPages c) ->
  is_Some (memoryCapacityPages (apply_option c o)).
Proof.
  intros Hc. destruct o as [b|b|b|b|b|b|[f|]|n| |]; simpl; eauto.
Qed.

Lemma apply_options_capacity (os : list RuntimeOption) (c : runtimeConfig) :
  is_Some (memoryCapacityPages c) ->
  is_Some (memoryCapacityPages (apply_options c os)).
Proof.
  unfold apply_options. revert c.
  induction os as [|o os IH]; intros c Hc; simpl; [assumption |].
  apply IH, apply_option_capacity, Hc.
Qed.

(** C10: whatever options are applied to [NewRuntimeConfigInterpreter] or
    [NewRuntimeConfigJIT], the memory-capacity function is not nil; the
    function both start with returns the min pages; and
    [WithMemoryCapacityPages(nil)] returns its receiver. *)
Theorem memoryCapacityPages_never_nil :
  (forall os : list RuntimeOption,
     is_Some (memoryCapacityPages (apply_options NewRuntimeConfigInterpreter os)) /\
     is_Some (memoryCapacityPages (apply_options NewRuntimeConfigJIT os))) /\
  (exists f : CapacityFn,
     memoryCapacityPages NewRuntimeConfigInterpreter = Some f /\
     memoryCapacityPages NewRuntimeConfigJIT = Some f /\
     forall (minPages : Z) (maxPages : option Z), f minPages maxPages = minPages) /\
  (forall c : runtimeConfig, WithMemoryCapacityPages c None = c).
Proof.
  split; [| split].
  - intros os. split; apply apply_options_capacity; simpl; eauto.
  - eexists. repeat split.
  - reflexivity.
Qed.

End RuntimeConfigFacts.

(** ** Name reservation *)

Lemma store_inv_NewStore (f : Z) : store_inv (NewStore f).
Proof. unfold store_inv, NewStore; simpl. set_solver. Qed.

Lemma store_inv_requireModuleName (s : Store.t) (name : string) :
  store_inv s -> store_inv (requireModuleName s name).1.
Proof.
  unfold store_inv, requireModuleName. intros Hs.
  destruct (decide (name ∈ Store.moduleNames s)); simpl; set_solver.
Qed.

Lemma store_inv_deleteModule (s : Store.t) (name : string) :
  store_inv s -> store_inv (deleteModule s name).
Proof.
  unfold store_inv, deleteModule; simpl. intros Hs.
  rewrite dom_delete_L. set_solver.
Qed.

(** Publishing a module whose name is reserved keeps the invariant. *)
Lemma store_inv_addModule (s : Store.t) (m : ModuleInstance.t) :
  store_inv s -> ModuleInstance.Name m ∈ Store.moduleNames s ->
  store_inv (addModule s m).
Proof.
  unfold store_inv, addModule; simpl. intros Hs Hm.
  rewrite dom_insert_L. set_solver.
Qed.

(** C9: in a store that satisfies its invariant (every instantiated module
    has its name reserved), reserving a name that is not reserved succeeds
    and deleting it again gives back the store as it was; deleting a name
    that is not reserved changes nothing; and reserving a reserved name
    fails and leaves the store as it is. *)
Theorem name_reservation_roundtrip (s : Store.t) (name : string) :
  store_inv s ->
  (name ∉ Store.moduleNames s ->
     exists s1, requireModuleName s name = (s1, None) /\
                name ∈ Store.moduleNames s1 /\
                Store.moduleNames (deleteModule s1 name) = Store.moduleNames s /\
                Store.modules (deleteModule s1 name) = Store.modules s /\
                deleteModule s1 name = s) /\
  (name ∉ Store.moduleNames s -> deleteModule s name = s) /\
  (name ∈ Store.moduleNames s ->
     requireModuleName s name = (s, Some (ErrAlreadyInstantiated name))).
Proof.
  intros Hinv.
  assert (Hdel : name ∉ Store.moduleNames s ->
                 delete name (Store.modules s) = Store.modules s).
  { intros Hn. apply delete_id. apply not_elem_of_dom. set_solver. }
  split; [| split].
  - intros Hn. unfold requireModuleName.
    destruct (decide (name ∈ Store.moduleNames s)); [contradiction |].
    eexists; split; [reflexivity |].
    assert (Hnames : ({[name]} ∪ Store.moduleNames s) ∖ {[name]}
                     = Store.moduleNames s) by set_solver.
    repeat split.
    + simpl. set_solver.
    + simpl. exact Hnames.
    + simpl. auto.
    + destruct s; unfold deleteModule; simpl in *.
      rewrite Hnames, Hdel by assumption. reflexivity.
  - intros Hn. destruct s; unfold deleteModule; simpl in *.
    rewrite Hdel by assumption.
    assert (Hnames : moduleNames ∖ {[name]} = moduleNames) by set_solver.
    rewrite Hnames. reflexivity.
  - intros Hn. unfold requireModuleName.
    destruct (decide (name ∈ Store.moduleNames s)); [reflexivity | contradiction].
Qed.

Lemma name_reservation_roundtrip_witness :
  store_inv (NewStore 0) /\
  requireModuleName (requireModuleName (NewStore 0) "env").1 "env"
  = ((requireModuleName (NewStore 0) "env").1, Some (ErrAlreadyInstantiated "env")).
Proof.
  split; [apply store_inv_NewStore |].
  apply (name_reservation_roundtrip (requireModuleName (NewStore 0) "env").1 "env").
  - apply store_inv_requireModuleName, store_inv_NewStore.
  - vm_compute. set_solver.
Defined.

(** ** Function-type interning *)

Section InterningFacts.
Variable String_ : FunctionType.t -> string.

Lemma uint32_small (n : Z) : 0 <= n < 2 ^ 32 -> uint32 n = n.
Proof. intros Hn. unfold uint32. apply Z.mod_small. exact Hn. Qed.

Lemma interned_empty (s : Store.t) :
  Store.typeIDs s = ∅ -> 0 <= Store.functionMaxTypes s < 2 ^ 32 -> interned s.
Proof.
  intros He Hl. split; rewrite He.
  - intros k id Hk. rewrite lookup_empty in Hk. discriminate.
  - intros k1 k2 id Hk. rewrite lookup_empty in Hk. discriminate.
  - intros id. rewrite map_size_empty. simpl. lia.
  - rewrite map_size_empty. simpl. lia.
Qed.

(** What one call of [getFunctionTypeID] does to a store that satisfies the
    invariant. *)
Inductive interning_step (s : Store.t) (t : FunctionType.t)
  : Store.t -> res Z -> Prop :=
  | step_known id :
      Store.typeIDs s !! String_ t = Some id ->
      interning_step s t s (Ok id)
  | step_new :
      Store.typeIDs s !! String_ t = None ->
      Z.of_nat (size (Store.typeIDs s)) < Store.functionMaxTypes s ->
      interning_step s t
        (Store.with_typeIDs s
           (<[String_ t := Z.of_nat (size (Store.typeIDs s))]> (Store.typeIDs s)))
        (Ok (Z.of_nat (size (Store.typeIDs s))))
  | step_full :
      Store.typeIDs s !! String_ t = None ->
      Z.of_nat (size (Store.typeIDs s)) = Store.functionMaxTypes s ->
      interning_step s t s (Err ErrTooManyFunctionTypes).

Lemma getFunctionTypeID_step (s : Store.t) (t : FunctionType.t) :
  interned s ->
  interning_step s t (getFunctionTypeID String_ s t).1
                     (getFunctionTypeID String_ s t).2.
Proof.
  intros [_ _ _ Hl]. unfold getFunctionTypeID.
  destruct (Store.typeIDs s !! String_ t) as [id|] eqn:Hk; simpl.
  - by apply step_known.
  - rewrite uint32_small by lia.
    destruct (Z.leb_spec (Store.functionMaxTypes s)
                (Z.of_nat (size (Store.typeIDs s)))); simpl.
    + apply step_full; [done | lia].
    + by apply step_new.
Qed.

Lemma interning_step_interned (s s' : Store.t) (t : FunctionType.t) (r : res Z) :
  interned s -> interning_step s t s' r -> interned s'.
Proof.
  intros Hs Hstep. destruct Hstep as [id Hk|Hk Hlt|Hk Hfull]; try assumption.
  destruct Hs as [Hd Hi Hsu Hl].
  split; simpl; rewrite ?map_size_insert_None by assumption.
  - intros k id. rewrite lookup_insert. case_decide.
    + intros [= <-]. lia.
    + intros Hk'. apply Hd in Hk'. lia.
  - intros k1 k2 id. rewrite !lookup_insert.
    repeat case_decide; try congruence.
    + intros [= <-] Hk2. apply Hd in Hk2. lia.
    + intros Hk1 [= <-]. apply Hd in Hk1. lia.
    + apply Hi.
  - intros id Hid.
    destruct (decide (id = Z.of_nat (size (Store.typeIDs s)))) as [->|Hne].
    + exists (String_ t). by rewrite lookup_insert_eq.
    + destruct (Hsu id) as [k Hk']; [lia |].
      exists k. rewrite lookup_insert_ne; [done | congruence].
  - lia.
Qed.

(** A step only adds: entries stay, and the limit stays. *)
Lemma interning_step_mono (s s' : Store.t) (t : FunctionType.t) (r : res Z) :
  interning_step s t s' r ->
  Store.typeIDs s ⊆ Store.typeIDs s' /\
  Store.functionMaxTypes s' = Store.functionMaxTypes s.
Proof.
  intros [id Hk|Hk Hlt|Hk Hfull]; simpl; split; try done.
  by apply insert_subseteq.
Qed.

(** The entries of the map after a sequence of calls: for each result
    [Ok id] the key of the type is mapped to [id], and each entry was there
    before or comes from such a result. *)
Lemma intern_all_spec (ts : list FunctionType.t) (s : Store.t) :
  interned s ->
  let s' := (intern_all String_ s ts).1 in
  let rs := (intern_all String_ s ts).2 in
  interned s' /\
  Store.typeIDs s ⊆ Store.typeIDs s' /\
  Store.functionMaxTypes s' = Store.functionMaxTypes s /\
  (forall i t id, ts !! i = Some t -> rs !! i = Some (Ok id) ->
     Store.typeIDs s' !! String_ t = Some id) /\
  (forall k id, Store.typeIDs s' !! k = Some id ->
     Store.typeIDs s !! k = Some id \/
     exists i t, ts !! i = Some t /\ String_ t = k /\ rs !! i = Some (Ok id)).
Proof.
  revert s. induction ts as [|t ts IH]; intros s Hs; simpl.
  - split_and!; [done | done | done | |].
    + intros i t id Hi. destruct i; discriminate.
    + intros k id Hk. by left.
  - pose proof (getFunctionTypeID_step s t Hs) as Hstep.
    destruct (getFunctionTypeID String_ s t) as [s1 r] eqn:E1. simpl in Hstep.
    pose proof (interning_step_interned _ _ _ _ Hs Hstep) as Hs1.
    destruct (interning_step_mono _ _ _ _ Hstep) as [Hsub1 Hmax1].
    specialize (IH s1 Hs1). simpl in IH.
    destruct (intern_all String_ s1 ts) as [s2 rs] eqn:E2. simpl in *.
    destruct IH as (Hs2 & Hsub2 & Hmax2 & Hres & Horigin).
    split_and!.
    + exact Hs2.
    + by transitivity (Store.typeIDs s1).
    + congruence.
    + intros [|i] t' id Hi Hr; simpl in *.
      * injection Hi as <-. injection Hr as ->.
        eapply lookup_weaken; [| exact Hsub2].
        inversion Hstep; subst; simpl; [done | by rewrite lookup_insert_eq].
      * by eapply Hres.
    + intros k id Hk. destruct (Horigin k id Hk) as [Hk1|(i & t' & Hi & Ht & Hr)].
      * inversion Hstep as [id' Hk' E|Hk' Hlt E|Hk' Hfull E]; subst; simpl in *.
        -- by left.
        -- rewrite lookup_insert in Hk1. case_decide.
           ++ injection Hk1 as <-. right. exists 0%nat, t. by repeat split.
           ++ by left.
        -- by left.
      * right. exists (S i), t'. by repeat split.
Qed.

End InterningFacts.

Lemma intern_all_length (String_ : FunctionType.t -> string)
    (ts : list FunctionType.t) (s : Store.t) :
  length (intern_all String_ s ts).2 = length ts.
Proof.
  revert s. induction ts as [|t ts IH]; intros s; simpl; [done |].
  destruct (getFunctionTypeID String_ s t) as [s1 r].
  specialize (IH s1). destruct (intern_all String_ s1 ts). simpl in *.
  by rewrite IH.
Qed.

(** C3: starting from a store without interned types and with limit [L]
    ([NewStore] sets it to 2^27), after any sequence of calls of
    [getFunctionTypeID]: two calls that succeed return the same ID iff the
    textual forms of their types are equal; the keys of the intern map are
    the textual forms of the types interned, and the IDs returned are
    exactly the numbers below the number of those keys; a type whose
    textual form is new gets that number as its ID while the store holds
    fewer than [L] types, and is refused, the store unchanged, once it holds
    [L]. *)
Theorem interning_assigns_sequential_ids
    (String_ : FunctionType.t -> string) (f L : Z) (ts : list FunctionType.t) :
  0 <= L < 2 ^ 32 ->
  let s0 := Store.with_functionMaxTypes (NewStore f) L in
  let s := (intern_all String_ s0 ts).1 in
  let rs := (intern_all String_ s0 ts).2 in
  let n := Z.of_nat (size (Store.typeIDs s)) in
  (forall i j ti tj idi idj,
     ts !! i = Some ti -> ts !! j = Some tj ->
     rs !! i = Some (Ok idi) -> rs !! j = Some (Ok idj) ->
     (idi = idj <-> String_ ti = String_ tj)) /\
  (forall k, k ∈ dom (Store.typeIDs s) <->
     exists i t id, ts !! i = Some t /\ String_ t = k /\ rs !! i = Some (Ok id)) /\
  (forall id, (exists i, rs !! i = Some (Ok id)) <-> 0 <= id < n) /\
  (forall t, Store.typeIDs s !! String_ t = None -> n < L ->
     (getFunctionTypeID String_ s t).2 = Ok n) /\
  (forall t, Store.typeIDs s !! String_ t = None -> n = L ->
     getFunctionTypeID String_ s t = (s, Err ErrTooManyFunctionTypes)) /\
  (Store.with_functionMaxTypes (NewStore f) maximumFunctionTypes = NewStore f /\
   maximumFunctionTypes = 2 ^ 27).
Proof.
  intros HL s0 s rs n.
  assert (Hs0 : interned s0) by (apply interned_empty; [done | simpl; lia]).
  destruct (intern_all_spec String_ ts s0 Hs0)
    as (Hs & _ & Hmax & Hres & Horigin).
  fold s in Hs, Hmax, Hres, Horigin. fold rs in Hres, Horigin.
  pose proof (intern_all_length String_ ts s0) as Hlen. fold rs in Hlen.
  assert (Horigin' : forall k id, Store.typeIDs s !! k = Some id ->
            exists i t, ts !! i = Some t /\ String_ t = k /\ rs !! i = Some (Ok id)).
  { intros k id Hk. destruct (Horigin k id Hk) as [Hk0|Hk0]; [| exact Hk0].
    simpl in Hk0. rewrite lookup_empty in Hk0. discriminate. }
  split_and!.
  - intros i j ti tj idi idj Hi Hj Hri Hrj.
    pose proof (Hres _ _ _ Hi Hri) as Hki. pose proof (Hres _ _ _ Hj Hrj) as Hkj.
    split.
    + intros <-. eapply (interned_inj s Hs); eassumption.
    + intros Heq. rewrite Heq in Hki. congruence.
  - intros k. rewrite elem_of_dom. split.
    + intros [id Hk]. destruct (Horigin' k id Hk) as (i & t & Hi & Ht & Hr).
      by exists i, t, id.
    + intros (i & t & id & Hi & <- & Hr). exists id. eapply Hres; eassumption.
  - intros id. split.
    + intros [i Hr].
      destruct (lookup_lt_is_Some_2 ts i) as [t Hi].
      { rewrite <- Hlen. eapply lookup_lt_Some; eassumption. }
      eapply (interned_dense s Hs), Hres; eassumption.
    + intros Hid. destruct (interned_surj s Hs id Hid) as [k Hk].
      destruct (Horigin' k id Hk) as (i & t & _ & _ & Hr). by exists i.
  - intros t Hk Hlt.
    pose proof (getFunctionTypeID_step String_ s t Hs) as Hstep.
    inversion Hstep as [id Hk' E1 E2|Hk' Hlt' E1 E2|Hk' Hfull E1 E2].
    + congruence.
    + reflexivity.
    + subst n. rewrite Hmax in Hfull. simpl in Hfull. lia.
  - intros t Hk Hfull.
    pose proof (getFunctionTypeID_step String_ s t Hs) as Hstep.
    destruct (getFunctionTypeID String_ s t) as [s' r]. simpl in Hstep.
    inversion Hstep as [id Hk' E1 E2|Hk' Hlt' E1 E2|Hk' Hfull' E1 E2].
    + congruence.
    + subst n. rewrite Hmax in Hlt'. simpl in Hlt'. lia.
    + reflexivity.
  - reflexivity.
  - reflexivity.
Qed.

(** With a limit of two, the third distinct type is refused; a type seen
    before gets its ID again. *)
Example intern_all_example :
  (intern_all example_String (Store.with_functionMaxTypes (NewStore 0) 2)
     example_types).2
  = [Ok 0; Ok 1; Ok 0; Err ErrTooManyFunctionTypes].
Proof. vm_compute. reflexivity. Qed.

Lemma interning_assigns_sequential_ids_witness :
  0 <= 2 < 2 ^ 32 /\
  let s := (intern_all example_String
              (Store.with_functionMaxTypes (NewStore 0) 2) example_types).1 in
  forall t, Store.typeIDs s !! example_String t = None ->
            Z.of_nat (size (Store.typeIDs s)) = 2 ->
            getFunctionTypeID example_String s t = (s, Err ErrTooManyFunctionTypes).
Proof.
  split; [lia |].
  exact (proj1 (proj2 (proj2 (proj2 (proj2
    (interning_assigns_sequential_ids example_String 0 2 example_types
       ltac:(lia))))))).
Defined.

(** ** Import resolution *)

Lemma table_limits_ok_dec (expected : Table.t) (actual : TableInstance.t) :
  table_limits_ok expected actual \/ ~ table_limits_ok expected actual.
Proof.
  unfold table_limits_ok.
  destruct (Z.le_gt_cases (Table.Min expected) (TableInstance.Min actual));
    [| right; lia].
  destruct (Table.Max expected) as [em|]; [| left; split; [done | discriminate]].
  destruct (TableInstance.Max actual) as [am|].
  - destruct (Z.le_gt_cases am em).
    + left. split; [done |]. intros ? [= <-]. eauto.
    + right. intros [_ Hmax]. destruct (Hmax em eq_refl) as (? & [= <-] & ?). lia.
  - right. intros [_ Hmax]. destruct (Hmax em eq_refl) as (? & [=] & _).
Qed.

Section ResolveImportsFacts.
Variable EqualsSignature :
  FunctionType.t -> list ValueType -> list ValueType -> bool.
Variable mems : gmap loc MemoryInstance.t.
Variable s : Store.t.
Variable module : Module.

Lemma resolveImports_loop_app (l1 l2 : list Import_.t) (acc : Imported.t)
    (idx : nat) :
  resolveImports_loop EqualsSignature mems s module acc idx (l1 ++ l2)
  = (acc' ← resolveImports_loop EqualsSignature mems s module acc idx l1;
     resolveImports_loop EqualsSignature mems s module acc'
       (idx + length l1) l2).
Proof.
  revert acc idx. induction l1 as [|i l1 IH]; intros acc idx; simpl.
  - by rewrite Nat.add_0_r.
  - destruct (resolveImport EqualsSignature mems s module acc idx i);
      simpl; [| done | done].
    rewrite IH. by rewrite Nat.add_succ_r.
Qed.

(** The loop reaches the import at [idx] with the imports before it
    resolved, and goes on from what that import resolves to. *)
Lemma resolveImports_at (idx : nat) (i : Import_.t) :
  Module_.ImportSection module !! idx = Some i ->
  resolveImports EqualsSignature mems s module
  = (acc ← resolveImports_loop EqualsSignature mems s module Imported.empty 0
             (take idx (Module_.ImportSection module));
     acc' ← resolveImport EqualsSignature mems s module acc idx i;
     resolveImports_loop EqualsSignature mems s module acc' (S idx)
       (drop (S idx) (Module_.ImportSection module))).
Proof.
  intros Hi. unfold resolveImports.
  rewrite <- (take_drop_middle _ _ _ Hi) at 1.
  rewrite resolveImports_loop_app. simpl.
  rewrite length_take_le by (apply Nat.lt_le_incl; eapply lookup_lt_Some, Hi).
  reflexivity.
Qed.

(** The table case of the loop body checks the limits and nothing else. *)
Lemma resolveImport_table (acc : Imported.t) (idx : nat) (i : Import_.t)
    (expected : Table.t) (m : ModuleInstance.t) (exp : ExportInstance.t)
    (tbl : TableInstance.t) :
  Import_.Type_ i = ExternTypeTable ->
  Import_.DescTable i = Some expected ->
  Store.modules s !! Import_.Module_ i = Some m ->
  ModuleInstance.Exports m !! Import_.Name i = Some exp ->
  ExportInstance.Type_ exp = ExternTypeTable ->
  ExportInstance.Table exp = Some tbl ->
  (table_limits_ok expected tbl ->
   resolveImport EqualsSignature mems s module acc idx i
   = Ok (add_importedTable acc tbl)) /\
  (~ table_limits_ok expected tbl ->
   exists cause,
     resolveImport EqualsSignature mems s module acc idx i
     = Err (ErrInvalidImport idx ExternTypeTable (Import_.Module_ i)
              (Import_.Name i) cause) /\
     (cause = MinimumSizeMismatch (Table.Min expected) (TableInstance.Min tbl) \/
      (exists expectedMax, cause = MaximumSizeNoMax expectedMax) \/
      (exists expectedMax actualMax,
         cause = MaximumSizeMismatch expectedMax actualMax))).
Proof.
  intros Hty Hdesc Hm Hexp Hety Htbl.
  unfold resolveImport, getExport, table_limits_ok.
  rewrite Hm, Hexp, Hty. rewrite decide_True by done. simpl.
  rewrite Hdesc, Htbl.
  unfold errorMinSizeMismatch, errorNoMax, errorMaxSizeMismatch,
    errorInvalidImport. rewrite Hty.
  destruct (Z.ltb_spec (TableInstance.Min tbl) (Table.Min expected)) as [Hlt|Hge].
  { split; [intros [? _]; lia |]. intros _. eexists. split; [done |]. by left. }
  destruct (Table.Max expected) as [em|] eqn:Hem.
  - destruct (TableInstance.Max tbl) as [am|] eqn:Ham.
    + destruct (Z.ltb_spec em am) as [Hlt|Hle].
      * split.
        -- intros [_ Hmax]. destruct (Hmax em eq_refl) as (am' & [= <-] & ?). lia.
        -- intros _. eexists. split; [done |]. right; right. eauto.
      * split; [done |]. intros Hno. exfalso. apply Hno.
        split; [lia |]. intros ? [= <-]. eauto.
    + split.
      * intros [_ Hmax]. destruct (Hmax em eq_refl) as (am' & [=] & _).
      * intros _. eexists. split; [done |]. right; left. eauto.
  - split; [done |]. intros Hno. exfalso. apply Hno. split; [lia | done].
Qed.

End ResolveImportsFacts.

(** The limits of a table import.  For an import of a table that names an
    instantiated module and a table it exports: if [resolveImports]
    succeeds, the exported min is at least the declared min and a declared
    max comes with an exported max that is at most it; if the limits are
    violated, and the imports before this one resolve, it fails with the
    error of [errorInvalidImport] that carries the index, the module and
    the name of the import; if the limits hold, the import resolves to the
    exported table. *)
Lemma resolveImports_checks_table_limits
    (EqualsSignature : FunctionType.t -> list ValueType -> list ValueType -> bool)
    (mems : gmap loc MemoryInstance.t) (s : Store.t) (module : Module)
    (idx : nat) (i : Import_.t) (expected : Table.t)
    (m : ModuleInstance.t) (exp : ExportInstance.t) (tbl : TableInstance.t) :
  Module_.ImportSection module !! idx = Some i ->
  Import_.Type_ i = ExternTypeTable ->
  Import_.DescTable i = Some expected ->
  Store.modules s !! Import_.Module_ i = Some m ->
  ModuleInstance.Exports m !! Import_.Name i = Some exp ->
  ExportInstance.Type_ exp = ExternTypeTable ->
  ExportInstance.Table exp = Some tbl ->
  (forall r, resolveImports EqualsSignature mems s module = Ok r ->
     table_limits_ok expected tbl) /\
  (forall acc,
     resolveImports_loop EqualsSignature mems s module Imported.empty 0
       (take idx (Module_.ImportSection module)) = Ok acc ->
     ~ table_limits_ok expected tbl ->
     exists cause,
       resolveImports EqualsSignature mems s module
       = Err (ErrInvalidImport idx ExternTypeTable (Import_.Module_ i)
                (Import_.Name i) cause)) /\
  (forall acc,
     table_limits_ok expected tbl ->
     resolveImport EqualsSignature mems s module acc idx i
     = Ok (add_importedTable acc tbl)).
Proof.
  intros Hi Hty Hdesc Hm Hexp Hety Htbl.
  pose proof (fun acc => resolveImport_table EqualsSignature mems s module acc
                idx i expected m exp tbl Hty Hdesc Hm Hexp Hety Htbl) as Hbody.
  split_and!.
  - intros r Hr. rewrite (resolveImports_at _ _ _ _ idx i Hi) in Hr.
    destruct (resolveImports_loop EqualsSignature mems s module Imported.empty 0
                (take idx (Module_.ImportSection module))) as [acc| |];
      simpl in Hr; try discriminate.
    destruct (table_limits_ok_dec expected tbl) as [Hok|Hno]; [done |].
    destruct (proj2 (Hbody acc) Hno) as (cause & Hc & _).
    rewrite Hc in Hr. discriminate.
  - intros acc Hpre Hno. rewrite (resolveImports_at _ _ _ _ idx i Hi), Hpre. simpl.
    destruct (proj2 (Hbody acc) Hno) as (cause & Hc & _).
    rewrite Hc. simpl. eauto.
  - intros acc Hok. by apply (Hbody acc).
Qed.



Lemma resolveImports_checks_table_limits_witness :
  exists cause,
    resolveImports example_EqualsSignature ∅ example_store
      (example_importer
         {| Table.Type_ := RefTypeExternref; Table.Min := 3; Table.Max := Some 4 |})
    = Err (ErrInvalidImport 0 ExternTypeTable "env" "t" cause).
Proof.
  refine (proj1 (proj2
    (resolveImports_checks_table_limits example_EqualsSignature ∅ example_store
       (example_importer
          {| Table.Type_ := RefTypeExternref; Table.Min := 3; Table.Max := Some 4 |})
       0 _ _ example_env example_table_export example_externref_table
       eq_refl eq_refl eq_refl _ _ eq_refl eq_refl)) Imported.empty eq_refl _).
  - vm_compute. reflexivity.
  - vm_compute. reflexivity.
  - unfold table_limits_ok. simpl. lia.
Defined.

(** ** Data segments *)

Lemma copy_at_overwrite (buf : list Byte.byte) (offset : nat) (init : list Byte.byte) :
  (offset + length init <= length buf)%nat ->
  copy_at buf offset init = overwrite buf offset init.
Proof.
  intros Hb. unfold copy_at, overwrite.
  rewrite (take_ge init) by lia. reflexivity.
Qed.

Lemma length_overwrite (buf : list Byte.byte) (offset : nat) (init : list Byte.byte) :
  (offset + length init <= length buf)%nat ->
  length (overwrite buf offset init) = length buf.
Proof.
  intros Hb. unfold overwrite.
  rewrite !length_app, length_take, length_drop. lia.
Qed.

Lemma with_Buffer_id (mem : MemoryInstance.t) :
  with_Buffer mem (MemoryInstance.Buffer mem) = mem.
Proof. by destruct mem. Qed.

Lemma with_Buffer_twice (mem : MemoryInstance.t) (b1 b2 : list Byte.byte) :
  with_Buffer (with_Buffer mem b1) b2 = with_Buffer mem b2.
Proof. reflexivity. Qed.

Section DataFacts.
Context `{Codec}.

Lemma data_in_bounds_length (globals : list GlobalInstance.t)
    (buf1 buf2 : list Byte.byte) (d : DataSegment.t) :
  length buf1 = length buf2 ->
  data_in_bounds globals buf1 d -> data_in_bounds globals buf2 d.
Proof.
  intros Hl Hd e He. destruct (Hd e He) as (off & ? & ? & ?).
  exists off. rewrite <- Hl. done.
Qed.

Lemma validateData_in_bounds (mems : gmap loc MemoryInstance.t)
    (m : ModuleInstance.t) (mem : MemoryInstance.t) (data : list DataSegment.t) :
  memory_of mems m = Some mem ->
  (forall d, d ∈ data ->
     data_in_bounds (ModuleInstance.Globals m) (MemoryInstance.Buffer mem) d) ->
  validateData mems m data = Ok tt.
Proof.
  intros Hmem. induction data as [|d data IH]; intros Hall; simpl; [done |].
  assert (Hrest : validateData mems m data = Ok tt).
  { apply IH. intros d' Hd'. apply Hall. by right. }
  destruct (DataSegment.OffsetExpression d) as [e|] eqn:He; [| done].
  destruct (Hall d ltac:(by left) e He) as (off & -> & Hlo & Hhi). simpl.
  destruct (Z.ltb_spec off 0); [lia |].
  rewrite Hmem.
  destruct (Z.ltb_spec (Z.of_nat (length (MemoryInstance.Buffer mem)))
              (off + Z.of_nat (length (DataSegment.Init d)))); [lia | done].
Qed.

Lemma validateData_out_of_bounds (mems : gmap loc MemoryInstance.t)
    (m : ModuleInstance.t) (mem : MemoryInstance.t) (data : list DataSegment.t) :
  memory_of mems m = Some mem ->
  offsets_are_int32 (ModuleInstance.Globals m) data ->
  (exists d, d ∈ data /\
     ~ data_in_bounds (ModuleInstance.Globals m) (MemoryInstance.Buffer mem) d) ->
  validateData mems m data = Err ErrOutOfBoundsMemoryAccess.
Proof.
  intros Hmem. induction data as [|d data IH]; intros Hty (d0 & Hin & Hout).
  { by apply elem_of_nil in Hin. }
  assert (Hty' : offsets_are_int32 (ModuleInstance.Globals m) data).
  { intros d' e' Hd'. apply Hty. by right. }
  simpl. destruct (DataSegment.OffsetExpression d) as [e|] eqn:He.
  - destruct (Hty d e ltac:(by left) He) as [off Hoff]. rewrite Hoff. simpl.
    destruct (Z.ltb_spec off 0); [done |].
    rewrite Hmem.
    destruct (Z.ltb_spec (Z.of_nat (length (MemoryInstance.Buffer mem)))
                (off + Z.of_nat (length (DataSegment.Init d)))); [done |].
    apply IH; [done |]. exists d0. split; [| done].
    apply elem_of_cons in Hin as [-> | Hin]; [| done].
    exfalso. apply Hout. intros e' He'. exists off.
    rewrite He in He'. injection He' as <-. done.
  - apply IH; [done |]. exists d0. split; [| done].
    apply elem_of_cons in Hin as [-> | Hin]; [| done].
    exfalso. apply Hout. intros e' He'. congruence.
Qed.

Lemma applyData_in_bounds (data : list DataSegment.t)
    (mems : gmap loc MemoryInstance.t) (m : ModuleInstance.t) (l : loc)
    (mem : MemoryInstance.t) :
  ModuleInstance.Memory m = Some l ->
  mems !! l = Some mem ->
  (forall d, d ∈ data ->
     data_in_bounds (ModuleInstance.Globals m) (MemoryInstance.Buffer mem) d) ->
  applyData mems m data
  = (<[l := with_Buffer mem
             (write_segments (ModuleInstance.Globals m)
                (MemoryInstance.Buffer mem) data)]> mems, Ok tt).
Proof.
  intros Hl. revert mems mem.
  induction data as [|d data IH]; intros mems mem Hmem Hall; simpl.
  { by rewrite with_Buffer_id, insert_id. }
  assert (Hrest : forall d', d' ∈ data ->
            data_in_bounds (ModuleInstance.Globals m) (MemoryInstance.Buffer mem) d').
  { intros d' Hd'. apply Hall. by right. }
  destruct (DataSegment.OffsetExpression d) as [e|] eqn:He; [| by apply IH].
  destruct (Hall d ltac:(by left) e He) as (off & -> & Hlo & Hhi). simpl.
  rewrite Hl, Hmem.
  destruct (Z.ltb_spec off 0); [lia |].
  destruct (Z.ltb_spec (Z.of_nat (length (MemoryInstance.Buffer mem))) off);
    [lia |]. simpl.
  rewrite copy_at_overwrite by lia.
  set (buf' := overwrite (MemoryInstance.Buffer mem) (Z.to_nat off)
                 (DataSegment.Init d)).
  rewrite (IH (<[l := with_Buffer mem buf']> mems) (with_Buffer mem buf')).
  - by rewrite insert_insert_eq.
  - by rewrite lookup_insert_eq.
  - intros d' Hd'. eapply data_in_bounds_length; [| by apply Hrest].
    subst buf'. simpl. rewrite length_overwrite; [done | lia].
Qed.

(** [applyData] reads the globals and the memory pointer of the instance
    and nothing else of it. *)
Lemma applyData_ext (data : list DataSegment.t)
    (mems : gmap loc MemoryInstance.t) (m1 m2 : ModuleInstance.t) :
  ModuleInstance.Globals m1 = ModuleInstance.Globals m2 ->
  ModuleInstance.Memory m1 = ModuleInstance.Memory m2 ->
  applyData mems m1 data = applyData mems m2 data.
Proof.
  intros Hg Hm. revert mems. induction data as [|d data IH]; intros mems; simpl;
    [done |].
  rewrite Hg, Hm.
  destruct (DataSegment.OffsetExpression d); [| done].
  destruct (_ ≫= _); [| done | done].
  destruct (ModuleInstance.Memory m2); [| done].
  destruct (mems !! _); [| done].
  destruct (_ || _); done.
Qed.

End DataFacts.

(** ** Instantiation *)

(** Runs [Instantiate] up to the assembled module instance. *)
Ltac run_to_assembled Hasm :=
  let s1 := fresh "s1" in
  let typeIDs := fresh "typeIDs" in
  let memory := fresh "memory" in
  let Hreq := fresh "Hreq" in
  let Hids := fresh "Hids" in
  let Hres := fresh "Hres" in
  let Htab := fresh "Htab" in
  let Halloc := fresh "Halloc" in
  let Hfun := fresh "Hfun" in
  let Hadd := fresh "Hadd" in
  destruct Hasm as (s1 & typeIDs & memory & Hreq & Hids & Hres & Htab
                    & Halloc & Hfun & Hadd);
  unfold Instantiate;
  rewrite Hreq, Hids, Hres, Htab, Halloc;
  destruct (Module_.HostFunctionSection _);
  injection Hfun as -> ->;
  rewrite Hadd.

Section InstantiateFacts.
Context (String_ : FunctionType.t -> string).
Context (EqualsSignature : FunctionType.t -> list ValueType -> list ValueType -> bool).
Context `{Codec} `{ModuleMethods} `{Engine}.

(** The reservation made by [requireModuleName] is still there in the store
    of an assembled instance, and no module of that name is published. *)
Lemma assembled_reserved (w : World.t) (module : Module) (name : string)
    (s : Store.t) (mems1 : gmap loc MemoryInstance.t) (imported : Imported.t)
    (tables : list TableInstance.t) (tableInit : TableInit)
    (funcSection : SectionID) (functions : list FunctionInstance.t)
    (m : ModuleInstance.t) :
  assembled String_ EqualsSignature w module name s mems1 imported tables
    tableInit funcSection functions m ->
  name ∈ Store.moduleNames s /\
  Store.modules s = Store.modules (World.store w).
Proof.
  intros (s1 & typeIDs & memory & Hreq & Hids & _).
  assert (Hs1 : name ∈ Store.moduleNames s1 /\
                Store.modules s1 = Store.modules (World.store w)).
  { unfold requireModuleName in Hreq.
    destruct (decide (name ∈ Store.moduleNames (World.store w)));
      [discriminate |].
    injection Hreq as <-. simpl. split; [set_solver | done]. }
  assert (Hsame : forall ts s2 ret,
            Store.moduleNames (getFunctionTypeIDs_loop String_ s2 ts ret).1
            = Store.moduleNames s2 /\
            Store.modules (getFunctionTypeIDs_loop String_ s2 ts ret).1
            = Store.modules s2).
  { induction ts as [|t ts IH]; intros s2 ret; simpl; [done |].
    unfold getFunctionTypeID.
    destruct (Store.typeIDs s2 !! String_ t); [apply IH |].
    destruct (_ <=? _); [done |].
    destruct (IH (Store.with_typeIDs s2
                    (<[String_ t := uint32 (Z.of_nat (size (Store.typeIDs s2)))]>
                       (Store.typeIDs s2)))
                 (ret ++ [uint32 (Z.of_nat (size (Store.typeIDs s2)))]))
      as [-> ->]. done. }
  unfold getFunctionTypeIDs in Hids.
  destruct (Hsame (Module_.TypeSection module) s1 []) as [Hn Hm].
  rewrite Hids in Hn, Hm. simpl in Hn, Hm. rewrite Hn, Hm. done.
Qed.

(** C5: when [Instantiate] has assembled the module instance, with a memory
    and with [int32] offsets for the active data segments: if some active
    segment does not lie within the memory buffer, [Instantiate] returns the
    out-of-bounds error, releases the name and leaves the heap as it was
    when the memory of the module was allocated, no byte written; if every
    active segment lies within the buffer, validation passes, [applyData]
    writes every active segment in full, and (the engine created, no start
    function) [Instantiate] succeeds with the memory so written. *)
Theorem data_segments_validated_before_copied
    (w : World.t) (module : Module) (name : string) (sys : option SysContext)
    (s : Store.t) (mems1 : gmap loc MemoryInstance.t) (imported : Imported.t)
    (tables : list TableInstance.t) (tableInit : TableInit)
    (funcSection : SectionID) (functions : list FunctionInstance.t)
    (m : ModuleInstance.t) (l : loc) (mem : MemoryInstance.t) :
  assembled String_ EqualsSignature w module name s mems1 imported tables
    tableInit funcSection functions m ->
  ModuleInstance.Memory m = Some l ->
  mems1 !! l = Some mem ->
  offsets_are_int32 (ModuleInstance.Globals m) (Module_.DataSection module) ->
  let data := Module_.DataSection module in
  let written :=
    <[l := with_Buffer mem
             (write_segments (ModuleInstance.Globals m)
                (MemoryInstance.Buffer mem) data)]> mems1 in
  ((exists d, d ∈ data /\
      ~ data_in_bounds (ModuleInstance.Globals m) (MemoryInstance.Buffer mem) d) ->
   Instantiate String_ EqualsSignature w module name sys
   = (World.mk (deleteModule s name) mems1, Err ErrOutOfBoundsMemoryAccess) /\
   mems1 = (alloc_memory (World.mems w) (buildMemory module)).1) /\
  ((forall d, d ∈ data ->
      data_in_bounds (ModuleInstance.Globals m) (MemoryInstance.Buffer mem) d) ->
   validateData mems1 m data = Ok tt /\
   (forall m', ModuleInstance.Globals m' = ModuleInstance.Globals m ->
               ModuleInstance.Memory m' = ModuleInstance.Memory m ->
               applyData mems1 m' data = (written, Ok tt)) /\
   (forall engine,
      NewModuleEngine name module (Imported.importedFunctions imported)
        functions tables tableInit = Ok engine ->
      Module_.StartSection module = None ->
      exists m',
        Instantiate String_ EqualsSignature w module name sys
        = (World.mk (addModule s m') written, Ok (NewCallContext m' sys)))).
Proof.
  intros Hasm Hl Hmem Hty data written.
  assert (Hmemory : memory_of mems1 m = Some mem).
  { unfold memory_of. rewrite Hl. simpl. exact Hmem. }
  split.
  - intros Hout.
    pose proof (validateData_out_of_bounds mems1 m mem data Hmemory Hty Hout)
      as Hval.
    split.
    + run_to_assembled Hasm; fold data; rewrite Hval; reflexivity.
    + destruct Hasm as (? & ? & ? & _ & _ & _ & _ & Halloc & _).
      by rewrite Halloc.
  - intros Hin.
    pose proof (validateData_in_bounds mems1 m mem data Hmemory Hin) as Hval.
    assert (Happ : forall m', ModuleInstance.Globals m' = ModuleInstance.Globals m ->
              ModuleInstance.Memory m' = ModuleInstance.Memory m ->
              applyData mems1 m' data = (written, Ok tt)).
    { intros m' Hg Hm'. rewrite (applyData_ext data mems1 m' m Hg Hm').
      by apply applyData_in_bounds. }
    split_and!; [done | done |].
    intros engine Heng Hstart. eexists.
    run_to_assembled Hasm; fold data; rewrite Hval, Heng;
      (rewrite Happ by reflexivity); rewrite Hstart; reflexivity.
Qed.

(** C1 (the path that keeps the reservation): when the module instance is
    assembled and its data segments are valid but the engine fails to
    create the module engine, [Instantiate] returns the error, wrapped, and
    leaves the store as it is: the name is still reserved. *)
Theorem engine_failure_keeps_reservation
    (w : World.t) (module : Module) (name : string) (sys : option SysContext)
    (s : Store.t) (mems1 : gmap loc MemoryInstance.t) (imported : Imported.t)
    (tables : list TableInstance.t) (tableInit : TableInit)
    (funcSection : SectionID) (functions : list FunctionInstance.t)
    (m : ModuleInstance.t) (err : error) :
  assembled String_ EqualsSignature w module name s mems1 imported tables
    tableInit funcSection functions m ->
  validateData mems1 m (Module_.DataSection module) = Ok tt ->
  NewModuleEngine name module (Imported.importedFunctions imported)
    functions tables tableInit = Err err ->
  Instantiate String_ EqualsSignature w module name sys
  = (World.mk s mems1, Err (ErrCompilationFailed err)) /\
  name ∈ Store.moduleNames s.
Proof.
  intros Hasm Hval Heng.
  split; [| eapply assembled_reserved, Hasm].
  run_to_assembled Hasm; rewrite Hval, Heng; reflexivity.
Qed.

End InstantiateFacts.

(** With an engine that fails to compile, the name "m" stays reserved. *)
Lemma engine_failure_keeps_reservation_witness :
  let r := @Instantiate example_String example_EqualsSignature example_Codec
             (example_ModuleMethods (Some example_memory)) (example_Engine false)
             example_world (example_data_module leb_16) "m" None in
  r.2 = Err (ErrCompilationFailed (ErrOther "compile error")) /\
  "m"%string ∈ Store.moduleNames (World.store r.1).
Proof.
  pose proof (@engine_failure_keeps_reservation example_String
    example_EqualsSignature example_Codec
    (example_ModuleMethods (Some example_memory)) (example_Engine false)
    example_world (example_data_module leb_16) "m" None) as Hthm.
  edestruct Hthm as [Heq Hin].
  - do 3 eexists. split_and!; reflexivity.
  - vm_compute. reflexivity.
  - reflexivity.
  - simpl. rewrite Heq. split; [reflexivity | exact Hin].
Defined.

(** A segment of two bytes at offset 65535 of a one-page memory is out of
    bounds: the error is returned and the fresh memory is all the heap has. *)
Lemma data_segments_validated_before_copied_witness :
  let r := @Instantiate example_String example_EqualsSignature example_Codec
             (example_ModuleMethods (Some example_memory)) (example_Engine true)
             example_world (example_data_module leb_65535) "m" None in
  r.2 = Err ErrOutOfBoundsMemoryAccess /\
  World.mems r.1 = (alloc_memory ∅ (Some example_memory)).1.
Proof.
  pose proof (@data_segments_validated_before_copied example_String
    example_EqualsSignature example_Codec
    (example_ModuleMethods (Some example_memory)) (example_Engine true)
    example_world (example_data_module leb_65535) "m" None) as Hthm.
  edestruct Hthm as [Hout _].
  - do 3 eexists. split_and!; reflexivity.
  - reflexivity.
  - reflexivity.
  - intros d e Hd He. apply list_elem_of_singleton in Hd as ->.
    injection He as <-. eexists. reflexivity.
  - destruct Hout as [Heq Hmems].
    + eexists. split; [by left |].
      intros Hb. destruct (Hb _ eq_refl) as (off & Hoff & Hlo & Hhi).
      injection Hoff as <-.
      change (MemoryInstance.Buffer example_memory)
        with (replicate (Z.to_nat 65536) Byte.x00) in Hhi.
      rewrite length_replicate in Hhi. vm_compute in Hhi. by apply Hhi.
    + simpl. rewrite Heq. simpl. split; [reflexivity | exact Hmems].
Defined.

(** A segment of two bytes at offset 16 is copied. *)
Example Instantiate_copies_data :
  let r := @Instantiate example_String example_EqualsSignature example_Codec
             (example_ModuleMethods (Some example_memory)) (example_Engine true)
             example_world (example_data_module leb_16) "m" None in
  r.2 = Ok {| CallContext.module_ := "m"; CallContext.Sys := None |} /\
  (mem ← World.mems r.1 !! 1%positive;
   Some (take 20 (MemoryInstance.Buffer mem),
         Z.of_nat (length (MemoryInstance.Buffer mem))))
  = Some (replicate 16 Byte.x00 ++ [Byte.x01; Byte.x02; Byte.x00; Byte.x00],
          65536).
Proof. vm_compute. split; reflexivity. Qed.

Section InstantiateReservation.
Context (String_ : FunctionType.t -> string).
Context (EqualsSignature : FunctionType.t -> list ValueType -> list ValueType -> bool).
Context `{Codec} `{ModuleMethods} `{Engine}.

(** Interning touches neither the reserved names nor the modules. *)
Lemma getFunctionTypeIDs_names (ts : list FunctionType.t) (s : Store.t) :
  Store.moduleNames (getFunctionTypeIDs String_ s ts).1 = Store.moduleNames s /\
  Store.modules (getFunctionTypeIDs String_ s ts).1 = Store.modules s.
Proof.
  unfold getFunctionTypeIDs. generalize (@nil Z).
  revert s. induction ts as [|t ts IH]; intros s ret; simpl; [done |].
  unfold getFunctionTypeID.
  destruct (Store.typeIDs s !! String_ t); [apply IH |].
  destruct (_ <=? _); [done |].
  destruct (IH (Store.with_typeIDs s
                  (<[String_ t := uint32 (Z.of_nat (size (Store.typeIDs s)))]>
                     (Store.typeIDs s)))
               (ret ++ [uint32 (Z.of_nat (size (Store.typeIDs s)))]))
    as [-> ->]. done.
Qed.

Lemma executeConstExpression_not_Err (globals : list GlobalInstance.t)
    (expr : ConstantExpression.t) (e : error) :
  executeConstExpression globals expr <> Err e.
Proof.
  unfold executeConstExpression. repeat case_match; discriminate.
Qed.

Lemma applyData_not_Err (data : list DataSegment.t)
    (mems : gmap loc MemoryInstance.t) (m : ModuleInstance.t) (e : error) :
  (applyData mems m data).2 <> Err e.
Proof.
  revert mems. induction data as [|d data IH]; intros mems; simpl; [done |].
  destruct (DataSegment.OffsetExpression d) as [c|]; [| apply IH].
  pose proof (executeConstExpression_not_Err (ModuleInstance.Globals m) c) as Hc.
  destruct (executeConstExpression (ModuleInstance.Globals m) c) as [v|e'|];
    simpl; [| by destruct (Hc e') | done].
  destruct v; simpl; try done.
  repeat case_match; simpl; try done; apply IH.
Qed.

Lemma addSections_functions_not_Err (module : Module) (typeIDs : list Z)
    (functions : list FunctionInstance.t) (i : nat) (e : error) :
  addSections_functions module typeIDs i functions <> Err e.
Proof.
  revert i. induction functions as [|f fs IH]; intros i; simpl; [done |].
  repeat case_match; try done.
  specialize (IH (S i)).
  destruct (addSections_functions module typeIDs (S i) fs); simpl; done.
Qed.

Lemma buildExports_loop_not_Err (functions : list FunctionInstance.t)
    (globals : list GlobalInstance.t) (memory : option loc)
    (tables : list TableInstance.t) (exports : list Export_.t)
    (acc : gmap string ExportInstance.t) (e : error) :
  buildExports_loop functions globals memory tables acc exports <> Err e.
Proof.
  revert acc. induction exports as [|exp exports IH]; intros acc; simpl; [done |].
  repeat case_match; simpl; try done; apply IH.
Qed.

Lemma addSections_not_Err (name : string) (module : Module)
    (importedFunctions functions : list FunctionInstance.t)
    (importedGlobals globals : list GlobalInstance.t)
    (tables : list TableInstance.t) (memory importedMemory : option loc)
    (types : list FunctionType.t) (typeIDs : list Z) (e : error) :
  addSections name module importedFunctions functions importedGlobals globals
    tables memory importedMemory types typeIDs <> Err e.
Proof.
  unfold addSections.
  pose proof (addSections_functions_not_Err module typeIDs functions 0 e) as Hf.
  destruct (addSections_functions module typeIDs 0 functions) as [fs| |];
    simpl.
  2: { intros [= ->]. by apply Hf. }
  2: done.
  match goal with
  | |- context [buildExports_loop ?a ?b ?c ?d ?acc ?ex] =>
      pose proof (buildExports_loop_not_Err a b c d ex acc e) as Hx;
      destruct (buildExports_loop a b c d acc ex)
  end; simpl; [done | | done].
  intros [= ->]. by apply Hx.
Qed.

(** X2: every error return of [Instantiate] but one releases the name and
    leaves the modules as they were; the one that does not is the failure
    of the engine to create the module engine. *)
Lemma Instantiate_error_reservation (w w' : World.t) (module : Module)
    (name : string) (sys : option SysContext) (e : error) :
  store_inv (World.store w) ->
  name ∉ Store.moduleNames (World.store w) ->
  Instantiate String_ EqualsSignature w module name sys = (w', Err e) ->
  ((name ∉ Store.moduleNames (World.store w')) /\
   Store.modules (World.store w') = Store.modules (World.store w)) \/
  (exists e', e = ErrCompilationFailed e' /\
              name ∈ Store.moduleNames (World.store w')).
Proof.
  intros Hinv Hn HI. unfold Instantiate in HI.
  unfold requireModuleName in HI.
  destruct (decide (name ∈ Store.moduleNames (World.store w))); [done |].
  set (s1 := Store.with_names _ _) in HI.
  pose proof (getFunctionTypeIDs_names (Module_.TypeSection module) s1) as [Hn2 Hm2].
  destruct (getFunctionTypeIDs String_ s1 (Module_.TypeSection module))
    as [s2 r2]. simpl in Hn2, Hm2.
  assert (Hdel : (name ∉ Store.moduleNames (deleteModule s2 name)) /\
                 Store.modules (deleteModule s2 name) = Store.modules (World.store w)).
  { unfold deleteModule; simpl. split; [set_solver |].
    rewrite Hm2. subst s1; simpl. apply delete_id, not_elem_of_dom.
    unfold store_inv in Hinv. set_solver. }
  assert (Hres : name ∈ Store.moduleNames s2).
  { rewrite Hn2. subst s1; simpl. set_solver. }
  repeat case_match; simplify_eq; simpl;
    try (left; exact Hdel);
    try (right; eexists; split; [reflexivity | exact Hres]);
    exfalso;
    first
      [ eapply addSections_not_Err; eassumption
      | eapply (applyData_not_Err (Module_.DataSection module));
        match goal with Hx : applyData _ _ _ = _ |- _ => rewrite Hx end;
        reflexivity ].
Qed.

Lemma addSections_Name (name : string) (module : Module)
    (importedFunctions functions : list FunctionInstance.t)
    (importedGlobals globals : list GlobalInstance.t)
    (tables : list TableInstance.t) (memory importedMemory : option loc)
    (types : list FunctionType.t) (typeIDs : list Z) (m : ModuleInstance.t) :
  addSections name module importedFunctions functions importedGlobals globals
    tables memory importedMemory types typeIDs = Ok m ->
  ModuleInstance.Name m = name.
Proof.
  unfold addSections. intros Hm.
  destruct (addSections_functions _ _ _ _); simpl in Hm; try discriminate.
  destruct (buildExports_loop _ _ _ _ _ _); simpl in Hm; try discriminate.
  by injection Hm as <-.
Qed.

(** X3: [Instantiate] keeps the invariant of the store (every module is
    held under a reserved name), however it ends. *)
Lemma Instantiate_store_inv (w : World.t) (module : Module) (name : string)
    (sys : option SysContext) :
  store_inv (World.store w) ->
  store_inv (World.store (Instantiate String_ EqualsSignature w module name sys).1).
Proof.
  intros Hinv. unfold Instantiate, requireModuleName.
  destruct (decide (name ∈ Store.moduleNames (World.store w))); [done |].
  set (s1 := Store.with_names _ _).
  pose proof (getFunctionTypeIDs_names (Module_.TypeSection module) s1) as [Hn2 Hm2].
  destruct (getFunctionTypeIDs String_ s1 (Module_.TypeSection module))
    as [s2 r2]. simpl in Hn2, Hm2.
  assert (Hs2 : store_inv s2).
  { unfold store_inv in *. rewrite Hn2, Hm2. subst s1; simpl. set_solver. }
  assert (Hres : name ∈ Store.moduleNames s2).
  { rewrite Hn2. subst s1; simpl. set_solver. }
  pose proof (store_inv_deleteModule s2 name Hs2) as Hdel.
  repeat case_match; simplify_eq; simpl; try done;
    (apply store_inv_addModule; [done |]; simpl;
     erewrite addSections_Name by eassumption; done).
Qed.

End InstantiateReservation.

(** ** ModuleConfig options *)

Section ModuleConfigFacts.
Import ModuleConfig.

(** The options that assign one field are functions of the configuration
    value alone: they do not touch the heap, and the receiver is a value
    that nothing can change. *)
Lemma field_options_keep_maps (c : moduleConfig) (n : string) (l : list string)
    (hd : Handle) (c' : moduleConfig) :
  c' ∈ [WithName c n; WithArgs c l; WithStartFunctions c l; WithStdin c hd;
        WithStdout c hd; WithStderr c hd] ->
  environ c' = environ c /\ environKeys c' = environKeys c /\
  preopens c' = preopens c /\ preopenPaths c' = preopenPaths c /\
  replacedImports c' = replacedImports c /\
  replacedImportModules c' = replacedImportModules c.
Proof.
  intros Hc. repeat (apply elem_of_cons in Hc as [-> | Hc]; [done |]).
  by apply elem_of_nil in Hc.
Qed.

(** C2 (where the code departs from it): [WithEnv], [WithFS] and
    [WithImport] write through the maps and the array that the copy shares
    with the receiver.  After [c1 := NewModuleConfig().WithEnv("a", "b")],
    the call [c1.WithEnv("a", "x")] changes the environment of [c1];
    [c0.WithFS(fs)] on [c0 := NewModuleConfig()] adds a preopened file
    system to [c0], and a second [c0.WithEnv("a", ...)] panics; and after
    [c3 := c0.WithImport("env", "abort", "as", "abort")], the call
    [c3.WithImport("env", "seed", "as", "seed")] adds a replacement to
    [c3]. *)
Theorem options_write_through_shared_maps (growcap : nat -> nat -> nat) :
  let '(h0, c0) := NewModuleConfig empty_heap in
  (exists h1 c1 h2 c2,
     WithEnv growcap h0 c0 "a" "b" = (h1, Ok c1) /\
     WithEnv growcap h1 c1 "a" "x" = (h2, Ok c2) /\
     environ_of h1 c1 = ["a"; "b"]%string /\
     environ_of h2 c1 = ["a"; "x"]%string /\
     WithEnv growcap h1 c0 "a" "y" = (h1, Panic)) /\
  (exists h1 c1,
     WithFS h0 c0 (Some 1%positive) = (h1, Ok c1) /\
     preopens_of h0 c0 = ∅ /\
     preopens_of h1 c0 = {[ 3 := {| Path := "/"; FS := Some 1%positive |} ]}) /\
  (exists h1 c3 h2 c4,
     WithImport h0 c0 "env" "abort" "as" "abort" = (h1, Ok c3) /\
     WithImport h1 c3 "env" "seed" "as" "seed" = (h2, Ok c4) /\
     replacedImports_of h1 c3 !! importKey "env" "seed" = None /\
     replacedImports_of h2 c3 !! importKey "env" "seed" = Some ("as", "seed")%string).
Proof.
  destruct (NewModuleConfig empty_heap) as [h0 c0] eqn:E0.
  split_and!.
  - set (r1 := WithEnv growcap h0 c0 "a" "b").
    set (r2 := WithEnv growcap r1.1 (res_get zero r1.2) "a" "x").
    exists r1.1, (res_get zero r1.2), r2.1, (res_get zero r2.2).
    subst r1 r2. injection E0 as <- <-.
    split_and!; vm_compute; reflexivity.
  - set (r1 := WithFS h0 c0 (Some 1%positive)).
    exists r1.1, (res_get zero r1.2).
    subst r1. injection E0 as <- <-.
    split_and!; vm_compute; reflexivity.
  - set (r1 := WithImport h0 c0 "env" "abort" "as" "abort").
    set (r2 := WithImport r1.1 (res_get zero r1.2) "env" "seed" "as" "seed").
    exists r1.1, (res_get zero r1.2), r2.1, (res_get zero r2.2).
    subst r1 r2. injection E0 as <- <-.
    split_and!; vm_compute; reflexivity.
Qed.

End ModuleConfigFacts.

(** ** Rewriting imports *)

Section ReplaceImportsFacts.
Import ModuleConfig ReplaceImports.

Lemma points_to_weaken (imps imps' : gmap loc Import_.t) (ptrs : list loc)
    (imports : list Import_.t) :
  imps ⊆ imps' -> points_to imps ptrs imports -> points_to imps' ptrs imports.
Proof.
  intros Hsub Hp. induction Hp as [|p imp ptrs imports Hl _ IH]; constructor;
    [by eapply lookup_weaken | exact IH].
Qed.

Lemma points_to_inj (imps : gmap loc Import_.t) (ptrs : list loc)
    (l1 l2 : list Import_.t) :
  points_to imps ptrs l1 -> points_to imps ptrs l2 -> l1 = l2.
Proof.
  intros H1. revert l2. induction H1 as [|p i1 ptrs l1 Hp _ IH]; intros l2 H2.
  - by inversion H2.
  - inversion H2 as [|? i2 ? l2' Hp2 H2']; subst. f_equal; [congruence | by apply IH].
Qed.

Lemma rewrite_body_None (body : Import_.t -> res (option Import_.t))
    (imports : list Import_.t) :
  Forall (fun imp => body imp = Ok None) imports ->
  map (rewrite_body body) imports = imports.
Proof.
  induction 1 as [|imp l Himp _ IH]; simpl; [done |].
  rewrite IH. unfold rewrite_body. by rewrite Himp.
Qed.

(** An inner loop: the old heap is kept, the array leads to the rewritten
    imports, and [changed] tells whether the body matched. *)
Lemma range_replace_spec (body : Import_.t -> res (option Import_.t))
    (ptrs : list loc) (imports : list Import_.t) (imps : gmap loc Import_.t) :
  total_body body ->
  points_to imps ptrs imports ->
  exists imps' ptrs' ch,
    range_replace body imps ptrs = Ok (imps', ptrs', ch) /\
    imps ⊆ imps' /\
    points_to imps' ptrs' (map (rewrite_body body) imports) /\
    (ch = false ->
     ptrs' = ptrs /\ imps' = imps /\
     Forall (fun imp => body imp = Ok None) imports) /\
    (ch = true ->
     Exists (fun imp => exists cp, body imp = Ok (Some cp)) imports).
Proof.
  intros Htotal Hp. revert imps Hp.
  revert imports. induction ptrs as [|p ptrs IH]; intros imports imps Hp.
  { inversion Hp; subst. exists imps, [], false. simpl.
    split_and!; try done; constructor. }
  inversion Hp as [|? imp ? imports' Hl Hp']; subst. simpl. rewrite Hl.
  destruct (Htotal imp) as [[cp|] Hr]; rewrite Hr; simpl.
  - set (l := fresh (dom imps)).
    assert (Hfresh : imps !! l = None) by (apply not_elem_of_dom, is_fresh).
    assert (Hsub : imps ⊆ <[l := cp]> imps) by (by apply insert_subseteq).
    destruct (IH imports' (<[l := cp]> imps)
                (points_to_weaken _ _ _ _ Hsub Hp'))
      as (imps' & ptrs' & ch & Heq & Hsub' & Hp'' & _ & _).
    rewrite Heq. simpl. exists imps', (l :: ptrs'), true.
    split_and!; try done.
    + by transitivity (<[l := cp]> imps).
    + constructor; [| done]. unfold rewrite_body. rewrite Hr.
      eapply lookup_weaken; [| exact Hsub']. by rewrite lookup_insert_eq.
    + intros _. apply Exists_cons_hd. eauto.
  - destruct (IH imports' imps Hp')
      as (imps' & ptrs' & ch & Heq & Hsub' & Hp'' & Hf & Ht).
    rewrite Heq. simpl. exists imps', (p :: ptrs'), ch.
    split_and!; try done.
    + constructor; [| done]. unfold rewrite_body. rewrite Hr.
      by eapply lookup_weaken.
    + intros Hch. destruct (Hf Hch) as (-> & -> & Hall).
      split_and!; try done. by constructor.
    + intros Hch. apply Exists_cons_tl. by apply Ht.
Qed.

(** An outer loop. *)
Lemma replace_all_spec (bodies : list (Import_.t -> res (option Import_.t)))
    (ptrs : list loc) (imports : list Import_.t) (imps : gmap loc Import_.t)
    (ch0 : bool) :
  Forall total_body bodies ->
  points_to imps ptrs imports ->
  exists imps' ptrs' ch,
    replace_all bodies imps ptrs ch0 = Ok (imps', ptrs', ch) /\
    imps ⊆ imps' /\
    points_to imps' ptrs'
      (map (fun imp => foldl (fun i b => rewrite_body b i) imp bodies) imports) /\
    (ch = false ->
     ch0 = false /\ ptrs' = ptrs /\ imps' = imps /\
     Forall (fun b => Forall (fun imp => b imp = Ok None) imports) bodies) /\
    (ch = true ->
     ch0 = true \/
     Exists (fun b => Exists (fun imp => exists cp, b imp = Ok (Some cp)) imports)
       bodies).
Proof.
  intros Htotal. revert ptrs imports imps ch0.
  induction Htotal as [|b bodies Hb _ IH]; intros ptrs imports imps ch0 Hp.
  { exists imps, ptrs, ch0. simpl. split_and!.
    - done.
    - done.
    - by rewrite map_id.
    - intros ->. split_and!; [done | done | done | constructor].
    - intros ->. by left. }
  simpl.
  destruct (range_replace_spec b ptrs imports imps Hb Hp)
    as (imps1 & ptrs1 & ch1 & Heq1 & Hsub1 & Hp1 & Hf1 & Ht1).
  rewrite Heq1. simpl.
  destruct (IH ptrs1 (map (rewrite_body b) imports) imps1 (ch0 || ch1) Hp1)
    as (imps2 & ptrs2 & ch & Heq2 & Hsub2 & Hp2 & Hf2 & Ht2).
  rewrite Heq2. exists imps2, ptrs2, ch.
  split_and!; try done.
  - by transitivity imps1.
  - by rewrite map_map in Hp2.
  - intros Hch. destruct (Hf2 Hch) as (Hor & -> & -> & Hall).
    apply orb_false_elim in Hor as [-> ->].
    destruct (Hf1 eq_refl) as (-> & -> & Hnone).
    split_and!; try done.
    rewrite (rewrite_body_None b imports Hnone) in Hall. by constructor.
  - intros Hch. destruct ch1.
    + right. apply Exists_cons_hd. by apply Ht1.
    + destruct (Hf1 eq_refl) as (_ & _ & Hnone).
      rewrite (rewrite_body_None b imports Hnone) in Ht2.
      destruct (Ht2 Hch) as [Hor|Hex].
      * left. by rewrite orb_false_r in Hor.
      * right. by apply Exists_cons_tl.
Qed.

Lemma IndexByte_bounds (s : string) (c : Ascii.ascii) :
  -1 <= IndexByte s c < Z.of_nat (String.length s).
Proof.
  induction s as [|a s IH]; simpl; [lia |].
  destruct (Ascii.eqb a c); [lia |].
  destruct (Z.ltb_spec (IndexByte s c) 0); lia.
Qed.

Lemma splitKey_total (key : string) :
  0 <= IndexByte key NUL -> exists om on, splitKey key = Ok (om, on).
Proof.
  intros Hnul. pose proof (IndexByte_bounds key NUL) as Hb.
  unfold splitKey, slice_string.
  destruct (Z.leb_spec 0 0); [| lia].
  destruct (Z.leb_spec 0 (IndexByte key NUL)); [| lia].
  destruct (Z.leb_spec (IndexByte key NUL) (Z.of_nat (String.length key))); [| lia].
  destruct (Z.leb_spec 0 (IndexByte key NUL + 1)); [| lia].
  destruct (Z.leb_spec (IndexByte key NUL + 1) (Z.of_nat (String.length key)));
    [| lia].
  destruct (Z.leb_spec (Z.of_nat (String.length key)) (Z.of_nat (String.length key)));
    [| lia].
  simpl. eauto.
Qed.

Lemma total_replaceModule (oldModule newModule : string) :
  total_body (replaceModule oldModule newModule).
Proof. intros imp. unfold replaceModule. case_decide; eauto. Qed.

Lemma total_replaceImport (key : string) (new : string * string) :
  0 <= IndexByte key NUL -> total_body (replaceImport key new).
Proof.
  intros Hnul imp. destruct (splitKey_total key Hnul) as (om & on & Hk).
  unfold replaceImport. unfold splitKey in Hk.
  destruct (slice_string key 0 (IndexByte key NUL)); simpl in *; try discriminate.
  destruct (slice_string key (IndexByte key NUL + 1) _); simpl in *;
    try discriminate.
  case_decide; eauto.
Qed.

Lemma rewrite_body_replaceModule (e : string * string) (imp : Import_.t) :
  rewrite_body (replaceModule e.1 e.2) imp = rewriteModule imp e.
Proof.
  unfold rewrite_body, replaceModule, rewriteModule. by case_decide.
Qed.

Lemma rewrite_body_replaceImport (e : string * (string * string)) (imp : Import_.t) :
  rewrite_body (replaceImport e.1 e.2) imp = rewriteImport imp e.
Proof.
  unfold rewrite_body, replaceImport, rewriteImport, splitKey.
  destruct (slice_string e.1 0 _); simpl; try done.
  destruct (slice_string e.1 _ _); simpl; try done.
  by case_decide.
Qed.

(** When the bodies match. *)
Lemma replaceModule_Some (e : string * string) (imp cp : Import_.t) :
  replaceModule e.1 e.2 imp = Ok (Some cp) -> Import_.Module_ imp = e.1.
Proof. unfold replaceModule. case_decide; [done | discriminate]. Qed.

Lemma replaceModule_None (e : string * string) (imp : Import_.t) :
  replaceModule e.1 e.2 imp = Ok None -> Import_.Module_ imp <> e.1.
Proof. unfold replaceModule. case_decide; [discriminate | done]. Qed.

Lemma replaceImport_Some (e : string * (string * string)) (imp cp : Import_.t) :
  replaceImport e.1 e.2 imp = Ok (Some cp) ->
  splitKey e.1 = Ok (Import_.Module_ imp, Import_.Name imp).
Proof.
  unfold replaceImport, splitKey.
  destruct (slice_string e.1 0 _); simpl; try discriminate.
  destruct (slice_string e.1 _ _); simpl; try discriminate.
  case_decide as Hd; [| discriminate]. by destruct Hd as [-> ->].
Qed.

Lemma replaceImport_None (e : string * (string * string)) (imp : Import_.t) :
  replaceImport e.1 e.2 imp = Ok None ->
  splitKey e.1 <> Ok (Import_.Module_ imp, Import_.Name imp).
Proof.
  unfold replaceImport, splitKey.
  destruct (slice_string e.1 0 _); simpl; try discriminate.
  destruct (slice_string e.1 _ _); simpl; try discriminate.
  case_decide as Hd; [discriminate |]. intros _ [= -> ->]. by apply Hd.
Qed.

Lemma foldl_bodies {A : Type} (f : A -> Import_.t -> res (option Import_.t))
    (g : Import_.t -> A -> Import_.t) (l : list A) (imp : Import_.t) :
  (forall e i, rewrite_body (f e) i = g i e) ->
  foldl (fun i b => rewrite_body b i) imp (map f l) = foldl g imp l.
Proof.
  intros Hfg. revert imp. induction l as [|e l IH]; intros imp; simpl; [done |].
  by rewrite Hfg, IH.
Qed.

(** [range] visits exactly the entries of the map. *)
Lemma elem_of_range `{MapRange} {V : Type} (m : gmap string V) (k : string) (v : V) :
  (k, v) ∈ range_ m <-> m !! k = Some v.
Proof. rewrite (range_perm V m). apply elem_of_map_to_list. Qed.

Section Spec.
Context `{MapRange}.

Lemma range_empty {V : Type} : range_ (∅ : gmap string V) = [].
Proof.
  apply Permutation_nil_r. rewrite (range_perm V ∅). by rewrite map_to_list_empty.
Qed.

(** An import matches iff one of the bodies of the two loops matches it. *)
Lemma import_matches_bodies (h : heap) (c : moduleConfig) (imports : list Import_.t) :
  Exists (import_matches h c) imports <->
  Exists (fun b => Exists (fun imp => exists cp, b imp = Ok (Some cp)) imports)
    (map (fun e => replaceModule e.1 e.2) (range_ (replacedImportModules_of h c))) \/
  Exists (fun b => Exists (fun imp => exists cp, b imp = Ok (Some cp)) imports)
    (map (fun e => replaceImport e.1 e.2) (range_ (replacedImports_of h c))).
Proof.
  change (map (fun e : string * string => replaceModule e.1 e.2) ?l)
    with ((fun e : string * string => replaceModule e.1 e.2) <$> l).
  change (map (fun e : string * (string * string) => replaceImport e.1 e.2) ?l)
    with ((fun e : string * (string * string) => replaceImport e.1 e.2) <$> l).
  rewrite !list.Exists_exists.
  setoid_rewrite list.Exists_exists.
  setoid_rewrite list_elem_of_fmap. split.
  - intros (imp & Himp & [[new Hm]|(key & new & Hk & Hs)]).
    + left. exists (replaceModule (Import_.Module_ imp) new). split.
      * exists (Import_.Module_ imp, new). split; [done |]. by apply elem_of_range.
      * exists imp. split; [done |]. unfold replaceModule.
        rewrite decide_True by done. eauto.
    + right. exists (replaceImport key new). split.
      * exists (key, new). split; [done |]. by apply elem_of_range.
      * exists imp. split; [done |]. unfold replaceImport. unfold splitKey in Hs.
        destruct (slice_string key 0 _); simpl in *; try discriminate.
        destruct (slice_string key _ _); simpl in *; try discriminate.
        injection Hs as -> ->. rewrite decide_True by done. eauto.
  - intros [(b & ([o n] & -> & He) & imp & Himp & cp & Hb)
           |(b & ([k v] & -> & He) & imp & Himp & cp & Hb)].
    + exists imp. split; [done |]. left. exists n.
      apply elem_of_range in He.
      apply (replaceModule_Some (o, n)) in Hb. simpl in Hb. by rewrite Hb.
    + exists imp. split; [done |]. right. exists k, v.
      apply elem_of_range in He. split; [done |].
      by apply (replaceImport_Some (k, v)) in Hb.
Qed.

Lemma modules_then_imports_bodies (ms : list (string * string))
    (is_ : list (string * (string * string))) (imports : list Import_.t) :
  map (fun imp => foldl (fun i b => rewrite_body b i) imp
                    (map (fun e => replaceImport e.1 e.2) is_))
    (map (fun imp => foldl (fun i b => rewrite_body b i) imp
                       (map (fun e => replaceModule e.1 e.2) ms)) imports)
  = map (modules_then_imports ms is_) imports.
Proof.
  rewrite map_map. apply map_ext. intros imp. unfold modules_then_imports.
  rewrite (foldl_bodies (fun e => replaceModule e.1 e.2) rewriteModule)
    by apply rewrite_body_replaceModule.
  by rewrite (foldl_bodies (fun e => replaceImport e.1 e.2) rewriteImport)
    by apply rewrite_body_replaceImport.
Qed.

(** What [replaceImports] returns and what it leaves alone. *)
Lemma replaceImports_spec (h : heap) (c : moduleConfig) (mh : mheap)
    (module : loc) (imports : list Import_.t) :
  imports_of mh module = Some imports ->
  keys_have_NUL h c ->
  exists mh' r,
    replaceImports h c mh module = (mh', Ok r) /\
    modulesH mh ⊆ modulesH mh' /\
    slicesH mh ⊆ slicesH mh' /\
    importsH mh ⊆ importsH mh' /\
    imports_of mh' r
    = Some (map (modules_then_imports (range_ (replacedImportModules_of h c))
                   (range_ (replacedImports_of h c))) imports) /\
    ((r = module /\ ~ Exists (import_matches h c) imports) \/
     (Exists (import_matches h c) imports /\
      (r ∉ dom (modulesH mh)) /\
      exists md a,
        modulesH mh !! module = Some md /\
        (a ∉ dom (slicesH mh)) /\
        modulesH mh' !! r = Some (Module_.with_ImportSection md (Some a)))).
Proof.
  intros Himp Hkeys. unfold imports_of in Himp.
  destruct (modulesH mh !! module) as [md|] eqn:Hmd; simpl in Himp;
    [| discriminate].
  unfold replaceImports.
  destruct (bool_decide (replacedImportModules c = None)
            && bool_decide (replacedImports c = None)) eqn:Hnil.
  - apply andb_true_iff in Hnil as [E1 E2].
    apply bool_decide_eq_true in E1, E2.
    assert (M1 : replacedImportModules_of h c = ∅)
      by (unfold replacedImportModules_of; by rewrite E1).
    assert (M2 : replacedImports_of h c = ∅)
      by (unfold replacedImports_of; by rewrite E2).
    exists mh, module. split_and!; try done.
    + rewrite M1, M2, !range_empty. unfold modules_then_imports. simpl.
      rewrite map_id. unfold imports_of. rewrite Hmd. simpl. exact Himp.
    + left. split; [done |]. intros Hex. apply import_matches_bodies in Hex.
      rewrite M1, M2, !range_empty in Hex. simpl in Hex.
      destruct Hex as [Hex|Hex]; by apply Exists_nil in Hex.
  - rewrite Hmd.
    set (bodies1 := map (fun e => replaceModule e.1 e.2)
                      (range_ (replacedImportModules_of h c))).
    set (bodies2 := map (fun e => replaceImport e.1 e.2)
                      (range_ (replacedImports_of h c))).
    assert (Ht1 : Forall total_body bodies1).
    { apply Forall_fmap, list.Forall_forall. intros e _. apply total_replaceModule. }
    assert (Ht2 : Forall total_body bodies2).
    { apply Forall_fmap, list.Forall_forall. intros [k v] He.
      apply total_replaceImport. apply elem_of_range in He. by eapply Hkeys. }
    destruct (Module_.ImportSection md) as [sl|] eqn:Hsl.
    + destruct (slicesH mh !! sl) as [ptrs|] eqn:Hptrs; simpl in Himp;
        [| discriminate].
      apply mapM_Some in Himp.
      destruct (replace_all_spec bodies1 ptrs imports (importsH mh) false Ht1 Himp)
        as (imps1 & ptrs1 & ch1 & Heq1 & Hsub1 & Hp1 & Hf1 & Hc1).
      destruct (replace_all_spec bodies2 ptrs1 _ imps1 ch1 Ht2 Hp1)
        as (imps2 & ptrs2 & ch2 & Heq2 & Hsub2 & Hp2 & Hf2 & Hc2).
      subst bodies1 bodies2.
      rewrite modules_then_imports_bodies in Hp2.
      rewrite Heq1. simpl. rewrite Heq2. simpl.
      set (a := fresh (dom (slicesH mh))).
      assert (Ha : slicesH mh !! a = None) by (apply not_elem_of_dom, is_fresh).
      assert (Hsl2 : slicesH mh ⊆ <[a := ptrs2]> (slicesH mh))
        by (by apply insert_subseteq).
      assert (Hsubi : importsH mh ⊆ imps2) by (by transitivity imps1).
      destruct ch2.
      * set (r := fresh (dom (modulesH mh))).
        assert (Hr : modulesH mh !! r = None) by (apply not_elem_of_dom, is_fresh).
        eexists _, r. split_and!; [reflexivity | | | | |]; simpl.
        -- by apply insert_subseteq.
        -- done.
        -- done.
        -- unfold imports_of. simpl. rewrite lookup_insert_eq. simpl.
           rewrite lookup_insert_eq. simpl. by apply mapM_Some.
        -- right. split_and!.
           ++ apply import_matches_bodies. destruct ch1.
              ** left. destruct (Hc1 eq_refl) as [?|Hex]; [done | exact Hex].
              ** destruct (Hf1 eq_refl) as (_ & -> & -> & _).
                 rewrite <- (points_to_inj _ _ _ _ Himp Hp1) in Hc2.
                 destruct (Hc2 eq_refl) as [?|Hex]; [done | by right].
           ++ apply is_fresh.
           ++ exists md, a. split_and!; [done | apply is_fresh |].
              by rewrite lookup_insert_eq.
      * destruct (Hf2 eq_refl) as (-> & -> & -> & Hn2).
        destruct (Hf1 eq_refl) as (_ & -> & -> & Hn1).
        eexists _, module. split_and!; [reflexivity | | | | |]; simpl;
          try done.
        -- unfold imports_of. simpl. rewrite Hmd. simpl. rewrite Hsl.
           rewrite lookup_insert_ne by congruence. rewrite Hptrs. simpl.
           by apply mapM_Some.
        -- left. split; [done |]. intros Hex.
           apply import_matches_bodies in Hex.
           assert (Hno : forall (bodies : list (Import_.t -> res (option Import_.t)))
                                (l : list Import_.t),
                     Forall (fun b => Forall (fun imp => b imp = Ok None) l) bodies ->
                     ~ Exists (fun b => Exists (fun imp =>
                                 exists cp, b imp = Ok (Some cp)) l) bodies).
           { intros bodies l Hall Hex'. apply list.Exists_exists in Hex'
               as (b & Hb & Hex'). apply list.Exists_exists in Hex'
               as (imp & Hi & cp & Hcp).
             rewrite list.Forall_forall in Hall. specialize (Hall b Hb).
             rewrite list.Forall_forall in Hall. specialize (Hall imp Hi).
             congruence. }
           destruct Hex as [Hex|Hex]; [by eapply Hno | ].
           eapply Hno; [exact Hn2 |].
           assert (Hsame : map (fun imp => foldl (fun i b => rewrite_body b i) imp
                                  (map (fun e => replaceModule e.1 e.2)
                                     (range_ (replacedImportModules_of h c))))
                             imports = imports).
           { eapply points_to_inj; eassumption. }
           by rewrite Hsame.
    + injection Himp as <-. exists mh, module. split_and!; try done.
      * simpl. unfold imports_of. rewrite Hmd. simpl. by rewrite Hsl.
      * left. split; [done |]. intros Hex. by apply Exists_nil in Hex.
Qed.

End Spec.

(** The keys [WithImport] builds have a NUL, and stand for the module and
    the name they were built from when the module has no NUL. *)
Lemma IndexByte_importKey (oldModule oldName : string) :
  0 <= IndexByte (importKey oldModule oldName) NUL.
Proof.
  unfold importKey. induction oldModule as [|a s IH]; simpl.
  - lia.
  - destruct (Ascii.eqb a NUL); [lia |].
    destruct (Z.ltb_spec (IndexByte (s ++ String NUL oldName) NUL) 0); lia.
Qed.

Lemma IndexByte_app (s t : string) :
  IndexByte s NUL = -1 ->
  IndexByte (s ++ String NUL t) NUL = Z.of_nat (String.length s).
Proof.
  induction s as [|a s IH]; simpl.
  - done.
  - destruct (Ascii.eqb a NUL); [discriminate |].
    destruct (Z.ltb_spec (IndexByte s NUL) 0) as [Hlt|Hge]; [| lia].
    intros _. pose proof (IndexByte_bounds s NUL).
    rewrite IH by lia.
    destruct (Z.ltb_spec (Z.of_nat (String.length s)) 0); lia.
Qed.

Lemma substring_all (s : string) : String.substring 0 (String.length s) s = s.
Proof. induction s as [|a s IH]; simpl; [done | by rewrite IH]. Qed.

Lemma substring_prefix (s t : string) :
  String.substring 0 (String.length s) (s ++ t) = s.
Proof.
  induction s as [|a s IH]; simpl; [by destruct t | by rewrite IH].
Qed.

Lemma substring_suffix (s t : string) :
  String.substring (String.length s) (String.length t) (s ++ t) = t.
Proof. induction s as [|a s IH]; simpl; [apply substring_all | done]. Qed.

Lemma length_string_app (s t : string) :
  String.length (s ++ t) = (String.length s + String.length t)%nat.
Proof. induction s as [|a s IH]; simpl; [done | by rewrite IH]. Qed.

Lemma splitKey_importKey (oldModule oldName : string) :
  IndexByte oldModule NUL = -1 ->
  splitKey (importKey oldModule oldName) = Ok (oldModule, oldName).
Proof.
  intros Hno. unfold splitKey, importKey, slice_string.
  rewrite (IndexByte_app _ _ Hno), length_string_app. simpl String.length.
  repeat match goal with
         | |- context [?a <=? ?b] => destruct (Z.leb_spec a b); [| lia]
         end.
  simpl.
  replace (Z.to_nat (Z.of_nat (String.length oldModule) - 0))
    with (String.length oldModule) by lia.
  rewrite substring_prefix.
  replace (Z.to_nat (Z.of_nat (String.length oldModule) + 1))
    with (String.length (oldModule ++ String NUL "")).
  2: { rewrite length_string_app. simpl. lia. }
  replace (Z.to_nat (Z.of_nat (String.length oldModule + S (String.length oldName))
                     - (Z.of_nat (String.length oldModule) + 1)))
    with (String.length oldName) by lia.
  replace (oldModule ++ String NUL oldName)%string
    with ((oldModule ++ String NUL "") ++ oldName)%string.
  2: { clear. induction oldModule as [|a s IH]; [done |].
       change (String a ((s ++ String NUL "") ++ oldName)
               = String a (s ++ String NUL oldName))%string.
       by rewrite IH. }
  by rewrite substring_suffix.
Qed.

Lemma WithImport_keys_have_NUL (h h' : heap) (c c' : moduleConfig)
    (oldModule oldName newModule newName : string) :
  keys_have_NUL h c ->
  WithImport h c oldModule oldName newModule newName = (h', Ok c') ->
  keys_have_NUL h' c'.
Proof.
  unfold keys_have_NUL, WithImport, replacedImports_of. intros Hk HW key new.
  destruct (replacedImports c) as [l|] eqn:Hl; simpl in *.
  - destruct (replacedImportsH h !! l) as [m|] eqn:Hm; [| discriminate].
    injection HW as <- <-. simpl. rewrite Hl. simpl.
    rewrite lookup_insert_eq. simpl. rewrite lookup_insert. case_decide.
    + intros _. subst key. apply IndexByte_importKey.
    + apply Hk.
  - rewrite lookup_insert_eq in HW. injection HW as <- <-. simpl.
    rewrite lookup_insert_eq. simpl. rewrite lookup_insert. case_decide.
    + intros _. subst key. apply IndexByte_importKey.
    + rewrite lookup_empty. discriminate.
Qed.

End ReplaceImportsFacts.

Section ReplaceImportsClaims.
Import ModuleConfig ReplaceImports.

(** Objects that are kept lead to the same imports. *)
Lemma imports_of_weaken (mh mh' : mheap) (module : loc) (imports : list Import_.t) :
  modulesH mh ⊆ modulesH mh' ->
  slicesH mh ⊆ slicesH mh' ->
  importsH mh ⊆ importsH mh' ->
  imports_of mh module = Some imports ->
  imports_of mh' module = Some imports.
Proof.
  intros Hm Hs Hi. unfold imports_of.
  destruct (modulesH mh !! module) as [md|] eqn:Hmd; simpl; [| discriminate].
  rewrite (lookup_weaken _ _ _ _ Hmd Hm). simpl.
  destruct (Module_.ImportSection md) as [sl|]; [| done].
  destruct (slicesH mh !! sl) as [ptrs|] eqn:Hsl; simpl; [| discriminate].
  rewrite (lookup_weaken _ _ _ _ Hsl Hs). simpl.
  rewrite !mapM_Some. apply points_to_weaken, Hi.
Qed.

(** C7 (as amended): for a module whose pointers are valid and a
    configuration whose keys have their NUL, [replaceImports] returns a
    module whose imports are those of the input, each rewritten first by
    the whole-module replacements and then by the per-import replacements,
    which are matched against the module name the first rewriting left. *)
Theorem replaceImports_modules_then_imports `{MapRange}
    (h : heap) (c : moduleConfig) (mh : mheap) (module : loc)
    (imports : list Import_.t) :
  imports_of mh module = Some imports ->
  keys_have_NUL h c ->
  exists mh' r,
    replaceImports h c mh module = (mh', Ok r) /\
    imports_of mh' r
    = Some (map (modules_then_imports (range_ (replacedImportModules_of h c))
                   (range_ (replacedImports_of h c))) imports).
Proof.
  intros Himp Hkeys.
  destruct (replaceImports_spec h c mh module imports Himp Hkeys)
    as (mh' & r & Heq & _ & _ & _ & Hres & _).
  by exists mh', r.
Qed.

(** C8: for a module whose pointers are valid and a configuration whose
    keys have their NUL, [replaceImports] leaves every module, array and
    import of the heap as it was, so the input module has the imports it
    had; it returns the input pointer when the module has no import
    section or no configured replacement matches an import; otherwise it
    returns a new module, a copy of the input but for its import section,
    which is a new array. *)
Theorem replaceImports_keeps_input `{MapRange}
    (h : heap) (c : moduleConfig) (mh : mheap) (module : loc)
    (md : Module_.t (option loc)) (imports : list Import_.t) :
  modulesH mh !! module = Some md ->
  imports_of mh module = Some imports ->
  keys_have_NUL h c ->
  exists mh' r,
    replaceImports h c mh module = (mh', Ok r) /\
    (modulesH mh ⊆ modulesH mh' /\ slicesH mh ⊆ slicesH mh' /\
     importsH mh ⊆ importsH mh') /\
    modulesH mh' !! module = Some md /\
    imports_of mh' module = Some imports /\
    (Module_.ImportSection md = None \/ ~ Exists (import_matches h c) imports ->
     r = module) /\
    (Exists (import_matches h c) imports ->
     (r ∉ dom (modulesH mh)) /\
     exists a, (a ∉ dom (slicesH mh)) /\
               modulesH mh' !! r = Some (Module_.with_ImportSection md (Some a))).
Proof.
  intros Hmd Himp Hkeys.
  destruct (replaceImports_spec h c mh module imports Himp Hkeys)
    as (mh' & r & Heq & Hm & Hs & Hi & _ & Hcase).
  exists mh', r. split_and!; try done.
  - by eapply lookup_weaken.
  - by eapply imports_of_weaken.
  - intros Hno. destruct Hcase as [[-> _]|[Hex _]]; [done |].
    destruct Hno as [Hnil|Hno]; [| done].
    unfold imports_of in Himp. rewrite Hmd in Himp. simpl in Himp.
    rewrite Hnil in Himp. injection Himp as <-. by apply Exists_nil in Hex.
  - intros Hex. destruct Hcase as [[_ Hno]|(_ & Hr & md' & a & Hmd' & Ha & Hret)];
      [done |].
    split; [done |]. exists a. split; [done |]. congruence.
Qed.

Lemma example_keys_have_NUL : keys_have_NUL example_config_heap example_config_value.
Proof.
  intros key new Hk. apply elem_of_map_to_list in Hk.
  vm_compute in Hk. apply list_elem_of_singleton in Hk.
  injection Hk as -> _. vm_compute. discriminate.
Qed.

(** What the example configuration holds. *)
Example example_config_maps :
  map_to_list (replacedImportModules_of example_config_heap example_config_value)
  = [("js", "wasm")]%string /\
  map_to_list (replacedImports_of example_config_heap example_config_value)
  = [(importKey "wasm" "increment", ("go", "increment"))]%string.
Proof. vm_compute. split; reflexivity. Qed.

(** The claim as stated fails: with the replacements of the
    documentation's example, the code rewrites "js"."increment" to
    "go"."increment", while per-import replacements first and whole-module
    replacements second would give "wasm"."increment". *)
Lemma replaceImports_not_imports_then_modules :
  exists mh' r,
    @replaceImports example_MapRange example_config_heap example_config_value
      example_mheap 1%positive = (mh', Ok r) /\
    imports_of mh' r = Some [example_import "go" "increment"] /\
    map (imports_then_modules
           (map_to_list (replacedImportModules_of example_config_heap
                           example_config_value))
           (map_to_list (replacedImports_of example_config_heap
                           example_config_value)))
      [example_import "js" "increment"]
    = [example_import "wasm" "increment"].
Proof.
  set (r := @replaceImports example_MapRange example_config_heap
              example_config_value example_mheap 1%positive).
  exists r.1, (res_get 1%positive r.2). subst r.
  split_and!; vm_compute; reflexivity.
Qed.

Lemma replaceImports_modules_then_imports_witness :
  exists mh' r,
    @replaceImports example_MapRange example_config_heap example_config_value
      example_mheap 1%positive = (mh', Ok r) /\
    imports_of mh' r
    = Some (map (modules_then_imports
                   (map_to_list (replacedImportModules_of example_config_heap
                                   example_config_value))
                   (map_to_list (replacedImports_of example_config_heap
                                   example_config_value)))
              [example_import "js" "increment"]).
Proof.
  apply (@replaceImports_modules_then_imports example_MapRange
           example_config_heap example_config_value example_mheap 1%positive
           [example_import "js" "increment"]).
  - vm_compute. reflexivity.
  - apply example_keys_have_NUL.
Defined.

Lemma replaceImports_keeps_input_witness :
  exists mh' r,
    @replaceImports example_MapRange example_config_heap example_config_value
      example_mheap 1%positive = (mh', Ok r) /\
    modulesH mh' !! 1%positive = modulesH example_mheap !! 1%positive /\
    imports_of mh' 1%positive = Some [example_import "js" "increment"].
Proof.
  edestruct (@replaceImports_keeps_input example_MapRange
           example_config_heap example_config_value example_mheap 1%positive
           example_module [example_import "js" "increment"])
    as (mh' & r & Heq & _ & Hmd & Himp & _).
  - vm_compute. reflexivity.
  - vm_compute. reflexivity.
  - apply example_keys_have_NUL.
  - exists mh', r. split_and!; [exact Heq | | exact Himp].
    rewrite Hmd. symmetry. vm_compute. reflexivity.
Defined.

End ReplaceImportsClaims.

(** * Further properties *)

(** ** The store *)

(** X1: after [deleteModule] the name is free again: no module is found
    under it, it is not reserved, and [requireModuleName] accepts it; the
    other names keep their reservation and their module. *)
Theorem deleteModule_frees_name (s : Store.t) (name : string) :
  let s' := deleteModule s name in
  module_ s' name = None /\
  StoreModule s' name = None /\
  (requireModuleName s' name).2 = None /\
  forall other, other <> name ->
    module_ s' other = module_ s other /\
    (other ∈ Store.moduleNames s' <-> other ∈ Store.moduleNames s).
Proof.
  unfold StoreModule, module_, requireModuleName, deleteModule. simpl.
  rewrite lookup_delete_eq. split_and!; try done.
  - rewrite decide_False by set_solver. done.
  - intros other Hne. rewrite lookup_delete_ne by done. split; [done | set_solver].
Qed.

Section StoreFurther.
Context (String_ : FunctionType.t -> string).
Context (EqualsSignature : FunctionType.t -> list ValueType -> list ValueType -> bool).
Context `{Codec} `{ModuleMethods} `{Engine}.

Lemma getFunctionTypeID_Ok (s s' : Store.t) (t : FunctionType.t) (id : Z) :
  getFunctionTypeID String_ s t = (s', Ok id) ->
  Store.typeIDs s ⊆ Store.typeIDs s' /\
  Store.typeIDs s' !! String_ t = Some id.
Proof.
  unfold getFunctionTypeID. intros Hg.
  destruct (Store.typeIDs s !! String_ t) as [id'|] eqn:Hl.
  - by simplify_eq.
  - destruct (_ <=? _); simplify_eq. simpl. split.
    + by apply insert_subseteq.
    + by rewrite lookup_insert_eq.
Qed.

Lemma getFunctionTypeIDs_loop_Ok (ts : list FunctionType.t) (s s' : Store.t)
    (ret ids : list Z) :
  getFunctionTypeIDs_loop String_ s ts ret = (s', Ok ids) ->
  Store.typeIDs s ⊆ Store.typeIDs s' /\
  exists new, ids = ret ++ new /\
    Forall2 (fun t id => Store.typeIDs s' !! String_ t = Some id) ts new.
Proof.
  revert s ret. induction ts as [|t ts IH]; intros s ret Hl; simpl in Hl.
  - simplify_eq. split; [done |]. exists []. by rewrite app_nil_r.
  - destruct (getFunctionTypeID String_ s t) as [s1 [id|e|]] eqn:Hg;
      [| discriminate | discriminate].
    apply getFunctionTypeID_Ok in Hg as [Hsub Hid].
    apply IH in Hl as (Hsub' & new & -> & Hall).
    split; [by etrans |].
    exists (id :: new). rewrite <- app_assoc. split; [done |].
    constructor; [| done]. by eapply lookup_weaken.
Qed.

Lemma getFunctionTypeIDs_loop_found (ts : list FunctionType.t) (s : Store.t)
    (ret new : list Z) :
  Forall2 (fun t id => Store.typeIDs s !! String_ t = Some id) ts new ->
  getFunctionTypeIDs_loop String_ s ts ret = (s, Ok (ret ++ new)).
Proof.
  intros Hall. revert ret.
  induction Hall as [|t id ts new Hid _ IH]; intros ret; simpl.
  - by rewrite app_nil_r.
  - unfold getFunctionTypeID. rewrite Hid, IH, <- app_assoc. done.
Qed.

(** X4: when [getFunctionTypeIDs] succeeds, it returns one ID per type, the
    one the intern map now holds for the type's string, so that types with
    the same string have the same ID; the map has kept the entries it had;
    and interning the same types again returns the same IDs and changes
    nothing. *)
Theorem getFunctionTypeIDs_idempotent (s s' : Store.t)
    (ts : list FunctionType.t) (ids : list Z) :
  getFunctionTypeIDs String_ s ts = (s', Ok ids) ->
  Forall2 (fun t id => Store.typeIDs s' !! String_ t = Some id) ts ids /\
  Store.typeIDs s ⊆ Store.typeIDs s' /\
  getFunctionTypeIDs String_ s' ts = (s', Ok ids) /\
  forall i j ti tj, ts !! i = Some ti -> ts !! j = Some tj ->
    String_ ti = String_ tj -> ids !! i = ids !! j.
Proof.
  unfold getFunctionTypeIDs. intros Hl.
  apply getFunctionTypeIDs_loop_Ok in Hl as (Hsub & new & -> & Hall).
  simpl. split_and!; [done | done | |].
  - by apply (getFunctionTypeIDs_loop_found ts s' [] new).
  - intros i j ti tj Hi Hj Heq.
    destruct (Forall2_lookup_l _ _ _ _ _ Hall Hi) as (idi & -> & Hidi).
    destruct (Forall2_lookup_l _ _ _ _ _ Hall Hj) as (idj & -> & Hidj).
    rewrite Heq in Hidi. congruence.
Qed.

(** X5: a name that is reserved is refused: [Instantiate] returns the
    already-instantiated error and the store and the memories are as they
    were. *)
Theorem Instantiate_reserved_name_refused (w : World.t) (module : Module)
    (name : string) (sys : option SysContext) :
  name ∈ Store.moduleNames (World.store w) ->
  Instantiate String_ EqualsSignature w module name sys
  = (w, Err (ErrAlreadyInstantiated name)).
Proof.
  intros Hin. unfold Instantiate, requireModuleName.
  rewrite decide_True by done. by destruct w.
Qed.

(** X6: when [Instantiate] succeeds, the name was free and is now reserved,
    the call context it returns carries the name and the given system
    context, the store holds under that name a module instance of that name
    whose call context is the one returned ([Store.Module] finds it), and
    the other modules are as they were. *)
Theorem Instantiate_success_publishes (w w' : World.t) (module : Module)
    (name : string) (sys : option SysContext) (ctx : CallContext.t) :
  Instantiate String_ EqualsSignature w module name sys = (w', Ok ctx) ->
  (name ∉ Store.moduleNames (World.store w)) /\
  ctx = {| CallContext.module_ := name; CallContext.Sys := sys |} /\
  Store.moduleNames (World.store w') = {[name]} ∪ Store.moduleNames (World.store w) /\
  StoreModule (World.store w') name = Some ctx /\
  exists m, Store.modules (World.store w')
            = <[name := m]> (Store.modules (World.store w)) /\
            ModuleInstance.Name m = name.
Proof.
  intros HI. unfold Instantiate, requireModuleName in HI.
  destruct (decide (name ∈ Store.moduleNames (World.store w))) as [|Hn];
    [discriminate |].
  split; [exact Hn |].
  set (s1 := Store.with_names _ _) in HI.
  pose proof (getFunctionTypeIDs_names String_ (Module_.TypeSection module) s1)
    as [Hn2 Hm2].
  destruct (getFunctionTypeIDs String_ s1 (Module_.TypeSection module))
    as [s2 r2]. simpl in Hn2, Hm2.
  repeat case_match; simplify_eq; simpl;
    match goal with
    | Hadd : addSections _ _ _ _ _ _ _ _ _ _ _ = Ok _ |- _ =>
        apply addSections_Name in Hadd
    end;
    unfold StoreModule, module_, NewCallContext; simpl;
    match goal with Hadd : ModuleInstance.Name _ = _ |- _ => rewrite Hadd end;
    rewrite lookup_insert_eq, Hn2, Hm2; simpl;
    (split_and!; [done | done | done | eexists; split; [reflexivity | done]]).
Qed.

(** X7: only a failing start function leaves writes behind: when
    [Instantiate] returns an error that is not a start failure, every
    memory instance that was on the heap is there unchanged. *)
Theorem Instantiate_error_keeps_memories (w w' : World.t) (module : Module)
    (name : string) (sys : option SysContext) (e : error) :
  Instantiate String_ EqualsSignature w module name sys = (w', Err e) ->
  (forall desc cause, e <> ErrStartFailed desc cause) ->
  World.mems w ⊆ World.mems w'.
Proof.
  intros HI Hne. unfold Instantiate in HI.
  assert (Halloc : forall built,
            World.mems w ⊆ (alloc_memory (World.mems w) built).1).
  { intros [mem|]; simpl; [| done].
    apply insert_subseteq, not_elem_of_dom, is_fresh. }
  repeat case_match; simplify_eq; simpl; try done;
    try (match goal with
         | Ha : alloc_memory _ ?b = _ |- _ =>
             specialize (Halloc b); rewrite Ha in Halloc; exact Halloc
         end);
    try (by edestruct Hne);
    exfalso;
    eapply (applyData_not_Err (Module_.DataSection module));
    match goal with Hx : applyData _ _ _ = _ |- _ => rewrite Hx end;
    reflexivity.
Qed.

End StoreFurther.

(** Interning the example types in a new store, twice. *)
Lemma getFunctionTypeIDs_idempotent_witness :
  let s' := (getFunctionTypeIDs example_String (NewStore 0) example_types).1 in
  getFunctionTypeIDs example_String s' example_types = (s', Ok [0; 1; 0; 2]).
Proof.
  apply (getFunctionTypeIDs_idempotent example_String (NewStore 0)).
  apply injective_projections; [reflexivity | vm_compute; reflexivity].
Defined.

(** "env" is taken in the example store. *)
Lemma Instantiate_reserved_name_refused_witness :
  @Instantiate example_String example_EqualsSignature example_Codec
    (example_ModuleMethods None) (example_Engine true)
    example_world_env (example_data_module leb_16) "env" None
  = (example_world_env, Err (ErrAlreadyInstantiated "env")).
Proof.
  apply Instantiate_reserved_name_refused.
  vm_compute. set_solver.
Defined.

(** The example module is published as "m". *)
Lemma Instantiate_success_publishes_witness :
  StoreModule (World.store (example_Instantiate true leb_16).1) "m"
  = Some {| CallContext.module_ := "m"; CallContext.Sys := None |}.
Proof.
  eapply (@Instantiate_success_publishes example_String example_EqualsSignature
            example_Codec (example_ModuleMethods (Some example_memory))
            (example_Engine true) example_world
            (example_Instantiate true leb_16).1 (example_data_module leb_16)
            "m" None).
  apply injective_projections; [reflexivity | vm_compute; reflexivity].
Defined.

(** The out-of-bounds segment leaves the (empty) heap as it was. *)
Lemma Instantiate_error_keeps_memories_witness :
  World.mems example_world ⊆ World.mems (example_Instantiate true leb_65535).1.
Proof.
  apply (@Instantiate_error_keeps_memories example_String example_EqualsSignature
           example_Codec (example_ModuleMethods (Some example_memory))
           (example_Engine true) example_world
           (example_Instantiate true leb_65535).1 (example_data_module leb_65535)
           "m" None ErrOutOfBoundsMemoryAccess).
  - apply injective_projections; [reflexivity | vm_compute; reflexivity].
  - discriminate.
Defined.

(** The out-of-bounds segment: "m" is free again. *)
Lemma Instantiate_error_reservation_witness :
  (("m"%string ∉ Store.moduleNames (World.store (example_Instantiate true leb_65535).1)) /\
   Store.modules (World.store (example_Instantiate true leb_65535).1)
   = Store.modules (World.store example_world)) \/
  (exists e', ErrOutOfBoundsMemoryAccess = ErrCompilationFailed e' /\
     "m"%string ∈ Store.moduleNames (World.store (example_Instantiate true leb_65535).1)).
Proof.
  apply (@Instantiate_error_reservation example_String example_EqualsSignature
           example_Codec (example_ModuleMethods (Some example_memory))
           (example_Engine true) example_world
           (example_Instantiate true leb_65535).1 (example_data_module leb_65535)
           "m" None ErrOutOfBoundsMemoryAccess).
  - apply store_inv_NewStore.
  - vm_compute. set_solver.
  - apply injective_projections; [reflexivity | vm_compute; reflexivity].
Defined.

(** The store after the example instantiation. *)
Lemma Instantiate_store_inv_witness :
  store_inv (World.store (example_Instantiate true leb_16).1).
Proof.
  apply (@Instantiate_store_inv example_String example_EqualsSignature
           example_Codec (example_ModuleMethods (Some example_memory))
           (example_Engine true) example_world (example_data_module leb_16)
           "m" None).
  apply store_inv_NewStore.
Defined.

(** ** Import resolution, in full *)

Section ResolveImportsFurther.
Variable EqualsSignature :
  FunctionType.t -> list ValueType -> list ValueType -> bool.
Variable mems : gmap loc MemoryInstance.t.
Variable s : Store.t.
Variable module : Module.

Lemma extend_imported_cons (acc : Imported.t) (i : Import_.t)
    (rest : list Import_.t) :
  extend_imported s (extend_imported s acc [i]) rest
  = extend_imported s acc (i :: rest).
Proof.
  unfold extend_imported. simpl.
  f_equal.
  - destruct (imported_of s ExternTypeFunc ExportInstance.Function i); simpl;
      by rewrite <- app_assoc.
  - destruct (imported_of s ExternTypeGlobal ExportInstance.Global i); simpl;
      by rewrite <- app_assoc.
  - destruct (imported_of s ExternTypeTable ExportInstance.Table i); simpl;
      by rewrite <- app_assoc.
  - destruct (imported_of s ExternTypeMemory ExportInstance.Memory i) as [l|];
      simpl; [| done].
    change (list_omap _ _ ?f ?l) with (omap f l).
    destruct (omap _ rest) as [|l' ls] eqn:Ho; simpl; [done |].
    destruct (list.last (l' :: ls)) eqn:Hl; [done |].
    by apply last_None in Hl.
Qed.

Lemma resolveImport_Ok_iff (acc acc' : Imported.t) (idx : nat) (i : Import_.t) :
  resolveImport EqualsSignature mems s module acc idx i = Ok acc' <->
  import_ok EqualsSignature mems s module i /\ acc' = extend_imported s acc [i].
Proof.
  unfold resolveImport, import_ok, getExport.
  destruct (Store.modules s !! Import_.Module_ i) as [m|] eqn:Hm; simpl.
  2: { split; [done |]. intros [(exp & Hex & _) _].
       unfold exported in Hex. by rewrite Hm in Hex. }
  destruct (ModuleInstance.Exports m !! Import_.Name i) as [exp|] eqn:Hexp; simpl.
  2: { split; [done |]. intros [(exp & Hex & _) _].
       unfold exported in Hex. rewrite Hm in Hex. simpl in Hex. congruence. }
  assert (Hex : exported s i = Some exp).
  { unfold exported. rewrite Hm. simpl. exact Hexp. }
  unfold extend_imported, imported_of. simpl. rewrite !Hex. simpl.
  destruct (decide (ExportInstance.Type_ exp = Import_.Type_ i)) as [Hty|Hty]; simpl.
  2: { split; [done |]. intros [(exp' & [= <-] & ? & _) _]. done. }
  unfold table_limits_ok, errorMinSizeMismatch, errorNoMax,
    errorMaxSizeMismatch, errorInvalidImport.
  destruct (Import_.Type_ i) eqn:Hk; simpl; rewrite ?app_nil_r;
    repeat case_match; simpl in *; simplify_eq;
    repeat match goal with
           | Hb : (_ <? _) = false |- _ => apply Z.ltb_ge in Hb
           | Hb : (_ <? _) = true |- _ => apply Z.ltb_lt in Hb
           | Hb : (_ <=? _) = false |- _ => apply Z.leb_gt in Hb
           | Hb : (_ <=? _) = true |- _ => apply Z.leb_le in Hb
           | Hb : negb _ = true |- _ => apply negb_true_iff in Hb
           | Hb : negb _ = false |- _ => apply negb_false_iff in Hb
           | Hb : Bool.eqb _ _ = true |- _ => apply Bool.eqb_prop in Hb
           | Hb : Bool.eqb _ _ = false |- _ => apply Bool.eqb_false_iff in Hb
           | Hb : bool_decide _ = true |- _ => apply bool_decide_eq_true in Hb
           | Hb : bool_decide _ = false |- _ => apply bool_decide_eq_false in Hb
           end.
  all: try (split; [done | intros [(exp' & [= <-] & _ & Hx) _];
                           naive_solver (congruence || lia)]).
  all: try (split;
            [ intros [= <-]; split; [| done];
              eexists; split_and!; [done | done |];
              repeat eexists; try done; try lia; naive_solver lia
            | intros [_ ->]; done ]).
Qed.

Lemma extend_imported_nil (acc : Imported.t) : extend_imported s acc [] = acc.
Proof. destruct acc. unfold extend_imported. simpl. by rewrite !app_nil_r. Qed.

Lemma resolveImports_loop_Ok_iff (rest : list Import_.t) (acc r : Imported.t)
    (idx : nat) :
  resolveImports_loop EqualsSignature mems s module acc idx rest = Ok r <->
  Forall (import_ok EqualsSignature mems s module) rest /\
  r = extend_imported s acc rest.
Proof.
  revert acc idx. induction rest as [|i rest IH]; intros acc idx; simpl.
  - rewrite extend_imported_nil. split; [intros [= <-]; by split | by intros [_ ->]].
  - pose proof (resolveImport_Ok_iff acc) as Hbody.
    destruct (resolveImport EqualsSignature mems s module acc idx i)
      as [acc1| |] eqn:Hi; simpl.
    + destruct (proj1 (Hbody acc1 idx i) Hi) as [Hok ->].
      rewrite IH, extend_imported_cons. split.
      * intros [Hall ->]. split; [by constructor | done].
      * intros [Hall ->]. split; [by inversion Hall | done].
    + split; [done |]. intros [Hall _]. inversion Hall as [|? ? Hok _]; subst.
      pose proof (proj2 (Hbody _ idx i) (conj Hok eq_refl)) as Hc. congruence.
    + split; [done |]. intros [Hall _]. inversion Hall as [|? ? Hok _]; subst.
      pose proof (proj2 (Hbody _ idx i) (conj Hok eq_refl)) as Hc. congruence.
Qed.



End ResolveImportsFurther.

(** X8: [resolveImports] succeeds exactly when every import names an
    export of an instantiated module, of the kind the import declares, that
    passes the check of its kind: for a function, the type index is in range
    and the signature equals that of the export; for a table, the limits of
    [table_limits_ok]; for a memory, the exported min is at least the
    declared one and the exported max at most the declared one; for a
    global, the same mutability and value type.  It then returns the
    exported functions, globals and tables, each in the order of their
    imports, and the memory of the last memory import. *)
Theorem resolveImports_succeeds_iff
    (EqualsSignature : FunctionType.t -> list ValueType -> list ValueType -> bool)
    (mems : gmap loc MemoryInstance.t) (s : Store.t) (module : Module)
    (r : Imported.t) :
  resolveImports EqualsSignature mems s module = Ok r <->
  Forall (import_ok EqualsSignature mems s module) (Module_.ImportSection module) /\
  r = {| Imported.importedFunctions :=
           omap (imported_of s ExternTypeFunc ExportInstance.Function)
             (Module_.ImportSection module);
         Imported.importedGlobals :=
           omap (imported_of s ExternTypeGlobal ExportInstance.Global)
             (Module_.ImportSection module);
         Imported.importedTables :=
           omap (imported_of s ExternTypeTable ExportInstance.Table)
             (Module_.ImportSection module);
         Imported.importedMemory :=
           list.last (omap (imported_of s ExternTypeMemory ExportInstance.Memory)
                        (Module_.ImportSection module)) |}.
Proof.
  unfold resolveImports. rewrite resolveImports_loop_Ok_iff.
  unfold extend_imported. simpl.
  by destruct (list.last _).
Qed.


(** ** Exports *)

Lemma buildExports_loop_spec (functions : list FunctionInstance.t)
    (globals : list GlobalInstance.t) (memory : option loc)
    (tables : list TableInstance.t) (m : ModuleInstance.t)
    (exports : list Export_.t) (acc res : gmap string ExportInstance.t) :
  ModuleInstance.Functions m = functions ->
  ModuleInstance.Globals m = globals ->
  ModuleInstance.Memory m = memory ->
  ModuleInstance.Tables m = tables ->
  buildExports_loop functions globals memory tables acc exports = Ok res ->
  (forall k exp, exports !! k = Some exp ->
     last_of_name exports k (Export_.Name exp) ->
     exists ei, res !! Export_.Name exp = Some ei /\ export_matches m exp ei) /\
  (forall name, (forall exp, exp ∈ exports -> Export_.Name exp <> name) ->
     res !! name = acc !! name).
Proof.
  intros Hf Hg Hmem Ht. revert acc.
  induction exports as [|exp0 exports IH]; intros acc Hl; simpl in Hl.
  { simplify_eq. split; [intros k exp [=] | done]. }
  match type of Hl with
  | (mbind _ ?r0) = _ => destruct r0 as [ei0| |] eqn:Hei
  end; simpl in Hl; try discriminate.
  destruct (IH _ Hl) as [IH1 IH2].
  assert (Hei0 : export_matches m exp0 ei0).
  { unfold export_matches. rewrite Hf, Hg, Hmem, Ht.
    destruct (Export_.Type_ exp0); repeat case_match; simplify_eq; simpl;
      eauto. }
  split.
  - intros [|k] exp Hk Hlast; simpl in Hk.
    + simplify_eq. exists ei0. split; [| done].
      rewrite IH2; [by rewrite lookup_insert_eq |].
      intros exp' Hin. apply list_elem_of_lookup in Hin as [k' Hk'].
      apply (Hlast (S k') exp'); [lia | done].
    + apply (IH1 k); [done |]. intros k' exp' Hlt Hk'.
      apply (Hlast (S k') exp'); [lia | done].
  - intros name Hno. rewrite IH2.
    + rewrite lookup_insert_ne; [done |]. apply Hno. by left.
    + intros exp Hin. apply Hno. by right.
Qed.

(** X10: what [addSections] exports, [getExport] finds.  For an export of
    the module that no later export shadows by name, [getExport] with the
    name and the kind of the export returns an instance of that kind that
    holds the function, global or table of the module instance at the
    index of the export, or its memory; with another kind it returns the
    wrong-type error; and a name that the module does not export gives the
    not-exported error. *)
Theorem addSections_exports_found (name : string) (module : Module)
    (importedFunctions functions : list FunctionInstance.t)
    (importedGlobals globals : list GlobalInstance.t)
    (tables : list TableInstance.t) (memory importedMemory : option loc)
    (types : list FunctionType.t) (typeIDs : list Z) (m : ModuleInstance.t) :
  addSections name module importedFunctions functions importedGlobals globals
    tables memory importedMemory types typeIDs = Ok m ->
  (forall k exp, Module_.ExportSection module !! k = Some exp ->
     last_of_name (Module_.ExportSection module) k (Export_.Name exp) ->
     (exists ei, getExport m (Export_.Name exp) (Export_.Type_ exp) = Ok ei /\
                 export_matches m exp ei) /\
     (forall et, et <> Export_.Type_ exp ->
        getExport m (Export_.Name exp) et
        = Err (ErrExportWrongType (Export_.Name exp) name (Export_.Type_ exp) et))) /\
  (forall n et,
     (forall exp, exp ∈ Module_.ExportSection module -> Export_.Name exp <> n) ->
     getExport m n et = Err (ErrNotExported n name)).
Proof.
  unfold addSections. intros Hm.
  destruct (addSections_functions _ _ _ _) as [fs| |]; simpl in Hm;
    try discriminate.
  destruct (buildExports_loop _ _ _ _ _ _) as [exports| |] eqn:Hb;
    simpl in Hm; try discriminate.
  injection Hm as <-.
  eapply (buildExports_loop_spec _ _ _ _
            {| ModuleInstance.Name := name; ModuleInstance.Exports := exports |})
    in Hb as [H1 H2]; try reflexivity.
  unfold getExport. simpl. split.
  - intros k exp Hk Hlast.
    destruct (H1 k exp Hk Hlast) as (ei & Hei & Hmatch).
    rewrite Hei. pose proof Hmatch as [Hty _]. split.
    + exists ei. by rewrite decide_True.
    + intros et Hne. rewrite decide_False by congruence. by rewrite Hty.
  - intros n et Hno. by rewrite (H2 n Hno), lookup_empty.
Qed.

(** The memory "mem" of the example is not a function. *)
Lemma addSections_exports_found_witness :
  getExport example_exported "mem" ExternTypeFunc
  = Err (ErrExportWrongType "mem" "m" ExternTypeMemory ExternTypeFunc).
Proof.
  pose proof (addSections_exports_found "m" example_exporter [] [] [] [] []
                None (Some 1%positive) [] [] example_exported) as Hthm.
  destruct Hthm as [Hfound _]; [vm_compute; reflexivity |].
  destruct (Hfound 0%nat _ eq_refl) as [_ Hwrong].
  - intros k' exp' Hlt Hk'. destruct k' as [|k']; [lia | discriminate].
  - apply Hwrong. discriminate.
Defined.


(** ** Data segments, byte by byte *)

Section DataFurther.
Context `{Codec}.

Lemma length_copy_at (buf : list Byte.byte) (offset : nat) (src : list Byte.byte) :
  (offset <= length buf)%nat -> length (copy_at buf offset src) = length buf.
Proof.
  intros Hle. unfold copy_at. rewrite !length_app, !length_take, length_drop. lia.
Qed.

(** X11: [applyData] never resizes a memory and writes to no memory but
    that of the module instance, whatever the segments are and however it
    ends: the heap has the same locations, every memory instance keeps the
    length of its buffer and its min, cap and max, and a memory instance
    that the module instance does not point to is unchanged. *)
Theorem applyData_frame (data : list DataSegment.t)
    (mems : gmap loc MemoryInstance.t) (m : ModuleInstance.t) :
  let mems' := (applyData mems m data).1 in
  dom mems' = dom mems /\
  forall l mem, mems !! l = Some mem ->
    exists mem',
      mems' !! l = Some mem' /\
      length (MemoryInstance.Buffer mem') = length (MemoryInstance.Buffer mem) /\
      MemoryInstance.Min mem' = MemoryInstance.Min mem /\
      MemoryInstance.Cap mem' = MemoryInstance.Cap mem /\
      MemoryInstance.Max mem' = MemoryInstance.Max mem /\
      (ModuleInstance.Memory m <> Some l -> mem' = mem).
Proof.
  revert mems. induction data as [|d data IH]; intros mems; simpl.
  { split; [done |]. intros l mem Hl. exists mem. by split_and!. }
  assert (Hid : dom mems = dom mems /\
            forall l mem, mems !! l = Some mem ->
              exists mem',
                mems !! l = Some mem' /\
                length (MemoryInstance.Buffer mem')
                = length (MemoryInstance.Buffer mem) /\
                MemoryInstance.Min mem' = MemoryInstance.Min mem /\
                MemoryInstance.Cap mem' = MemoryInstance.Cap mem /\
                MemoryInstance.Max mem' = MemoryInstance.Max mem /\
                (ModuleInstance.Memory m <> Some l -> mem' = mem)).
  { split; [done |]. intros l mem Hl. exists mem. by split_and!. }
  destruct (DataSegment.OffsetExpression d) as [e|]; [| apply IH].
  destruct (executeConstExpression (ModuleInstance.Globals m) e ≫= assert_int32)
    as [offset| |]; simpl; [| exact Hid | exact Hid].
  destruct (ModuleInstance.Memory m) as [l0|] eqn:Hl0; [| exact Hid].
  destruct (mems !! l0) as [mem0|] eqn:Hmem0; [| exact Hid].
  destruct (Z.ltb_spec offset 0) as [|Hlo]; simpl; [exact Hid |].
  destruct (Z.ltb_spec (Z.of_nat (length (MemoryInstance.Buffer mem0))) offset)
    as [|Hhi]; simpl; [exact Hid |].
  set (mem1 := with_Buffer mem0 _).
  destruct (IH (<[l0 := mem1]> mems)) as [Hdom Hall].
  split.
  - rewrite Hdom, dom_insert_L. apply elem_of_dom_2 in Hmem0. set_solver.
  - intros l mem Hl. destruct (decide (l = l0)) as [->|Hne].
    + destruct (Hall l0 mem1) as (mem' & Hl' & Hlen & Hmin & Hcap & Hmax & _);
        [by rewrite lookup_insert_eq |].
      exists mem'. rewrite Hl', Hlen, Hmin, Hcap, Hmax. simplify_eq.
      subst mem1. simpl. rewrite length_copy_at by lia. by split_and!.
    + destruct (Hall l mem) as (mem' & Hl' & Hlen & Hmin & Hcap & Hmax & Hsame);
        [by rewrite lookup_insert_ne |].
      exists mem'. by split_and!.
Qed.

Lemma overwrite_lookup_outside (buf : list Byte.byte) (offset : nat)
    (init : list Byte.byte) (i : nat) :
  (offset + length init <= length buf)%nat ->
  ~ (offset <= i < offset + length init)%nat ->
  overwrite buf offset init !! i = buf !! i.
Proof.
  intros Hb Hout. unfold overwrite.
  destruct (decide (i < offset)%nat) as [Hlt|Hge].
  - rewrite lookup_app_l by (rewrite length_take; lia).
    by rewrite lookup_take_lt.
  - rewrite lookup_app_r by (rewrite length_take; lia).
    rewrite length_take.
    rewrite lookup_app_r by lia. rewrite lookup_drop. f_equal. lia.
Qed.

Lemma overwrite_lookup_inside (buf : list Byte.byte) (offset : nat)
    (init : list Byte.byte) (j : nat) (b : Byte.byte) :
  (offset + length init <= length buf)%nat ->
  init !! j = Some b ->
  overwrite buf offset init !! (offset + j)%nat = Some b.
Proof.
  intros Hb Hj. unfold overwrite.
  pose proof (lookup_lt_Some _ _ _ Hj).
  rewrite lookup_app_r by (rewrite length_take; lia).
  rewrite length_take.
  rewrite lookup_app_l by lia.
  rewrite <- Hj. f_equal. lia.
Qed.

Lemma length_write_segments (globals : list GlobalInstance.t)
    (data : list DataSegment.t) (buf : list Byte.byte) :
  (forall d, d ∈ data -> data_in_bounds globals buf d) ->
  length (write_segments globals buf data) = length buf.
Proof.
  revert buf. induction data as [|d data IH]; intros buf Hall; simpl; [done |].
  assert (Hrest : forall d', d' ∈ data -> data_in_bounds globals buf d').
  { intros d' Hd'. apply Hall. by right. }
  destruct (DataSegment.OffsetExpression d) as [e|] eqn:He; [| by apply IH].
  destruct (Hall d ltac:(by left) e He) as (off & -> & Hlo & Hhi).
  rewrite IH.
  - apply length_overwrite. lia.
  - intros d' Hd'. eapply data_in_bounds_length; [| by apply Hrest].
    rewrite length_overwrite; [done | lia].
Qed.

Lemma write_segments_outside (globals : list GlobalInstance.t)
    (data : list DataSegment.t) (buf : list Byte.byte) (i : nat) :
  (forall d, d ∈ data -> data_in_bounds globals buf d) ->
  (forall d, d ∈ data -> ~ covers globals d i) ->
  write_segments globals buf data !! i = buf !! i.
Proof.
  revert buf. induction data as [|d data IH]; intros buf Hall Hno; simpl;
    [done |].
  assert (Hrest : forall d', d' ∈ data -> data_in_bounds globals buf d').
  { intros d' Hd'. apply Hall. by right. }
  assert (Hno' : forall d', d' ∈ data -> ~ covers globals d' i).
  { intros d' Hd'. apply Hno. by right. }
  destruct (DataSegment.OffsetExpression d) as [e|] eqn:He; [| by apply IH].
  destruct (Hall d ltac:(by left) e He) as (off & Hoff & Hlo & Hhi).
  rewrite Hoff. rewrite IH; [| | done].
  - apply overwrite_lookup_outside; [lia |].
    intros Hin. apply (Hno d ltac:(by left)). by exists e, off.
  - intros d' Hd'. eapply data_in_bounds_length; [| by apply Hrest].
    rewrite length_overwrite; [done | lia].
Qed.

Lemma write_segments_last (globals : list GlobalInstance.t)
    (data : list DataSegment.t) (buf : list Byte.byte) (k : nat)
    (d : DataSegment.t) (e : ConstantExpression.t) (offset : Z) (j : nat)
    (b : Byte.byte) :
  (forall d, d ∈ data -> data_in_bounds globals buf d) ->
  data !! k = Some d ->
  DataSegment.OffsetExpression d = Some e ->
  executeConstExpression globals e = Ok (VInt32 offset) ->
  DataSegment.Init d !! j = Some b ->
  (forall k' d', (k < k')%nat -> data !! k' = Some d' ->
     ~ covers globals d' (Z.to_nat offset + j)) ->
  write_segments globals buf data !! (Z.to_nat offset + j)%nat = Some b.
Proof.
  revert buf k. induction data as [|d0 data IH]; intros buf k Hall Hk He Hoff Hj Hlater;
    [done |].
  assert (Hrest : forall d', d' ∈ data -> data_in_bounds globals buf d').
  { intros d' Hd'. apply Hall. by right. }
  destruct k as [|k]; simpl in Hk.
  - simplify_eq. simpl. rewrite He, Hoff.
    destruct (Hall d ltac:(by left) e He) as (off & Hoff' & Hlo & Hhi).
    assert (off = offset) by congruence. subst off.
    rewrite write_segments_outside.
    + apply overwrite_lookup_inside; [lia | done].
    + intros d' Hd'. eapply data_in_bounds_length; [| by apply Hrest].
      rewrite length_overwrite; [done | lia].
    + intros d' Hd'. apply list_elem_of_lookup in Hd' as [k' Hk'].
      apply (Hlater (S k') d'); [lia | done].
  - assert (Hlater' : forall k' d', (k < k')%nat -> data !! k' = Some d' ->
              ~ covers globals d' (Z.to_nat offset + j)).
    { intros k' d' Hlt Hk'. apply (Hlater (S k') d'); [lia | done]. }
    simpl.
    destruct (DataSegment.OffsetExpression d0) as [e0|] eqn:He0;
      [| by eapply IH].
    destruct (Hall d0 ltac:(by left) e0 He0) as (off0 & -> & Hlo & Hhi).
    eapply IH; try done.
    intros d' Hd'. eapply data_in_bounds_length; [| by apply Hrest].
    rewrite length_overwrite; [done | lia].
Qed.

(** X12: what memory holds after [applyData], when every active segment
    lies within the buffer: a byte that no active segment covers is as it
    was, and a byte of an active segment that no later segment covers is
    in memory at the segment's offset plus its index: where segments
    overlap, the later one wins. *)
Theorem applyData_bytes (data : list DataSegment.t)
    (mems : gmap loc MemoryInstance.t) (m : ModuleInstance.t) (l : loc)
    (mem : MemoryInstance.t) :
  ModuleInstance.Memory m = Some l ->
  mems !! l = Some mem ->
  (forall d, d ∈ data ->
     data_in_bounds (ModuleInstance.Globals m) (MemoryInstance.Buffer mem) d) ->
  exists mem',
    (applyData mems m data).2 = Ok tt /\
    (applyData mems m data).1 !! l = Some mem' /\
    (forall i,
       (forall d, d ∈ data -> ~ covers (ModuleInstance.Globals m) d i) ->
       MemoryInstance.Buffer mem' !! i = MemoryInstance.Buffer mem !! i) /\
    (forall k d e offset j b,
       data !! k = Some d ->
       DataSegment.OffsetExpression d = Some e ->
       executeConstExpression (ModuleInstance.Globals m) e = Ok (VInt32 offset) ->
       DataSegment.Init d !! j = Some b ->
       (forall k' d', (k < k')%nat -> data !! k' = Some d' ->
          ~ covers (ModuleInstance.Globals m) d' (Z.to_nat offset + j)) ->
       MemoryInstance.Buffer mem' !! (Z.to_nat offset + j)%nat = Some b).
Proof.
  intros Hl Hmem Hall.
  rewrite (applyData_in_bounds data mems m l mem Hl Hmem Hall). simpl.
  eexists. split_and!; [done | by rewrite lookup_insert_eq | |]; simpl.
  - intros i Hno. by apply write_segments_outside.
  - intros k d e offset j b Hk He Hoff Hj Hlater.
    by eapply write_segments_last.
Qed.

End DataFurther.

(** The two bytes of the example segment, written at offset 2 of a memory
    of eight bytes: index 3 holds the second. *)
Lemma applyData_bytes_witness :
  exists mem',
    (@applyData example_Codec {[1%positive := example_small_memory]}
       example_small_instance
       (Module_.DataSection (example_data_module [Byte.x02]))).1 !! 1%positive
    = Some mem' /\
    MemoryInstance.Buffer mem' !! 3%nat = Some Byte.x02.
Proof.
  destruct (@applyData_bytes example_Codec
              (Module_.DataSection (example_data_module [Byte.x02]))
              {[1%positive := example_small_memory]} example_small_instance
              1%positive example_small_memory eq_refl)
    as (mem' & _ & Hl & _ & Hin).
  { vm_compute. reflexivity. }
  { intros d Hd e He. apply list_elem_of_singleton in Hd as ->.
    injection He as <-. exists 2.
    split_and!; [vm_compute; reflexivity | lia | simpl; lia]. }
  exists mem'. split; [exact Hl |].
  apply (Hin 0%nat _ _ 2 1%nat Byte.x02 eq_refl eq_refl);
    [vm_compute; reflexivity | reflexivity |].
  intros k' d' Hlt Hk'. destruct k' as [|k']; [lia | discriminate].
Defined.

(** ** RuntimeConfig options, one by one *)

Section RuntimeConfigFurther.
Import Features RuntimeConfig.

Lemma Get_Set_other (f x y : Z) (v : bool) :
  Z.land y x = 0 -> Get (Set_ f y v) x = Get f x.
Proof.
  intros Hxy. unfold Get, Set_. f_equal. f_equal.
  apply Z.bits_inj'. intros n _.
  assert (Hn : Z.testbit (Z.land y x) n = false) by (rewrite Hxy; apply Z.bits_0).
  rewrite Z.land_spec in Hn.
  destruct v; rewrite !Z.land_spec, ?Z.lor_spec, ?Z.ldiff_spec;
    destruct (Z.testbit f n), (Z.testbit x n), (Z.testbit y n);
    simpl in *; congruence.
Qed.

(** X13: an option of [RuntimeConfig] changes no feature flag but those it
    assigns (a feature's own flag, with bulk memory operations and
    reference types going together): every other flag reads as before;
    and no option changes the engine constructor, and none but
    [WithMemoryLimitPages] the memory limit. *)
Theorem runtime_option_keeps_other_features (c : runtimeConfig)
    (o : RuntimeOption) (feature : Z) :
  feature ∈ all_features ->
  feature ∉ option_features o ->
  Get (enabledFeatures (apply_option c o)) feature
  = Get (enabledFeatures c) feature /\
  newEngine (apply_option c o) = newEngine c /\
  ((forall limit, o <> OMemoryLimitPages limit) ->
   memoryLimitPages (apply_option c o) = memoryLimitPages c).
Proof.
  intros Hin Hout.
  split_and!.
  - destruct o as [b|b|b|b|b|b|g|n| |];
      cbn -[Get Set_ FeatureBulkMemoryOperations FeatureMultiValue
            FeatureMutableGlobal FeatureNonTrappingFloatToIntConversion
            FeatureReferenceTypes FeatureSignExtensionOps] in *;
      try done; try (by destruct g);
      unfold all_features in Hin;
      repeat (apply elem_of_cons in Hin as [-> | Hin]);
      try (by apply elem_of_nil in Hin);
      try (exfalso; apply Hout; set_solver);
      rewrite ?Get_Set_other by reflexivity; reflexivity.
  - by destruct o as [b|b|b|b|b|b|[g|]|n| |].
  - intros Hne. destruct o as [b|b|b|b|b|b|[g|]|n| |]; try done.
    by destruct (Hne n).
Qed.

End RuntimeConfigFurther.

(** Switching multi-value on leaves mutable globals as they are. *)
Lemma runtime_option_keeps_other_features_witness :
  Features.Get
    (RuntimeConfig.enabledFeatures
       (RuntimeConfig.apply_option RuntimeConfig.NewRuntimeConfigInterpreter
          (RuntimeConfig.OMultiValue true)))
    Features.FeatureMutableGlobal
  = Features.Get
      (RuntimeConfig.enabledFeatures RuntimeConfig.NewRuntimeConfigInterpreter)
      Features.FeatureMutableGlobal.
Proof.
  apply (runtime_option_keeps_other_features
           RuntimeConfig.NewRuntimeConfigInterpreter
           (RuntimeConfig.OMultiValue true) Features.FeatureMutableGlobal).
  - unfold all_features. set_solver.
  - intros Hin. apply list_elem_of_singleton in Hin. discriminate.
Defined.

(** ** ModuleConfig: the replacement maps *)

Section ReplacementMaps.
Import ModuleConfig.

(** X14: [WithImport] is an upsert: when the map pointer of the receiver
    is nil or valid, the returned configuration has the replacements of
    the receiver with the key of the old module and name bound to the new
    pair, and every other setting of the receiver; a receiver with a map
    gets the same binding through the shared map, a receiver without one
    stays without replacements. *)
Theorem WithImport_upsert (h : heap) (c : moduleConfig)
    (oldModule oldName newModule newName : string) :
  (forall l, replacedImports c = Some l -> is_Some (replacedImportsH h !! l)) ->
  exists h' c',
    WithImport h c oldModule oldName newModule newName = (h', Ok c') /\
    replacedImports_of h' c'
    = <[importKey oldModule oldName := (newModule, newName)]>
        (replacedImports_of h c) /\
    replacedImportModules_of h' c' = replacedImportModules_of h c /\
    environ_of h' c' = environ_of h c /\
    environKeys_of h' c' = environKeys_of h c /\
    preopens_of h' c' = preopens_of h c /\
    preopenPaths_of h' c' = preopenPaths_of h c /\
    (is_Some (replacedImports c) ->
     c' = c /\ replacedImports_of h' c = replacedImports_of h' c') /\
    (replacedImports c = None ->
     c' = set_replacedImports c (replacedImports c') /\
     replacedImports_of h' c = ∅).
Proof.
  intros Hvalid. unfold WithImport.
  destruct (replacedImports c) as [l|] eqn:Hl.
  - destruct (Hvalid l eq_refl) as [m Hm]. rewrite Hm.
    eexists _, _. split; [reflexivity |].
    unfold replacedImports_of, replacedImportModules_of, environ_of,
      environKeys_of, preopens_of, preopenPaths_of.
    rewrite Hl. simpl. rewrite lookup_insert_eq, Hm. simpl.
    split_and!; try done. all: intros [=].
  - simpl. rewrite lookup_insert_eq.
    eexists _, _. split; [reflexivity |].
    unfold replacedImports_of, replacedImportModules_of, environ_of,
      environKeys_of, preopens_of, preopenPaths_of.
    rewrite Hl. simpl. rewrite lookup_insert_eq. simpl.
    split_and!; try done. all: by intros [? [=]].
Qed.

(** X15: [WithImportModule] is an upsert: when the map pointer of the
    receiver is nil or valid, the returned configuration has the module
    replacements of the receiver with the old module bound to the new one,
    and every other setting of the receiver; a receiver with a map gets
    the same binding through the shared map, a receiver without one stays
    without module replacements. *)
Theorem WithImportModule_upsert (h : heap) (c : moduleConfig)
    (oldModule newModule : string) :
  (forall l, replacedImportModules c = Some l ->
     is_Some (replacedImportModulesH h !! l)) ->
  exists h' c',
    WithImportModule h c oldModule newModule = (h', Ok c') /\
    replacedImportModules_of h' c'
    = <[oldModule := newModule]> (replacedImportModules_of h c) /\
    replacedImports_of h' c' = replacedImports_of h c /\
    environ_of h' c' = environ_of h c /\
    environKeys_of h' c' = environKeys_of h c /\
    preopens_of h' c' = preopens_of h c /\
    preopenPaths_of h' c' = preopenPaths_of h c /\
    (is_Some (replacedImportModules c) ->
     c' = c /\ replacedImportModules_of h' c = replacedImportModules_of h' c') /\
    (replacedImportModules c = None ->
     c' = set_replacedImportModules c (replacedImportModules c') /\
     replacedImportModules_of h' c = ∅).
Proof.
  intros Hvalid. unfold WithImportModule.
  destruct (replacedImportModules c) as [l|] eqn:Hl.
  - destruct (Hvalid l eq_refl) as [m Hm]. rewrite Hm.
    eexists _, _. split; [reflexivity |].
    unfold replacedImports_of, replacedImportModules_of, environ_of,
      environKeys_of, preopens_of, preopenPaths_of.
    rewrite Hl. simpl. rewrite lookup_insert_eq, Hm. simpl.
    split_and!; try done. all: intros [=].
  - simpl. rewrite lookup_insert_eq.
    eexists _, _. split; [reflexivity |].
    unfold replacedImports_of, replacedImportModules_of, environ_of,
      environKeys_of, preopens_of, preopenPaths_of.
    rewrite Hl. simpl. rewrite lookup_insert_eq. simpl.
    split_and!; try done. all: by intros [? [=]].
Qed.

End ReplacementMaps.

(** The first [WithImport] on a new configuration. *)
Lemma WithImport_upsert_witness :
  exists h' c',
    ModuleConfig.WithImport (ModuleConfig.NewModuleConfig ModuleConfig.empty_heap).1
      (ModuleConfig.NewModuleConfig ModuleConfig.empty_heap).2
      "env" "abort" "assemblyscript" "abort" = (h', Ok c') /\
    ModuleConfig.replacedImports_of h' c'
    = <[ModuleConfig.importKey "env" "abort" := ("assemblyscript", "abort")%string]>
        (ModuleConfig.replacedImports_of
           (ModuleConfig.NewModuleConfig ModuleConfig.empty_heap).1
           (ModuleConfig.NewModuleConfig ModuleConfig.empty_heap).2).
Proof.
  destruct (WithImport_upsert
              (ModuleConfig.NewModuleConfig ModuleConfig.empty_heap).1
              (ModuleConfig.NewModuleConfig ModuleConfig.empty_heap).2
              "env" "abort" "assemblyscript" "abort")
    as (h' & c' & Heq & Hup & _).
  - intros l Hl. discriminate.
  - exists h', c'. split; [exact Heq | exact Hup].
Defined.

(** The first [WithImportModule] on a new configuration. *)
Lemma WithImportModule_upsert_witness :
  exists h' c',
    ModuleConfig.WithImportModule
      (ModuleConfig.NewModuleConfig ModuleConfig.empty_heap).1
      (ModuleConfig.NewModuleConfig ModuleConfig.empty_heap).2
      "wasi_unstable" "wasi_snapshot_preview1" = (h', Ok c') /\
    ModuleConfig.replacedImportModules_of h' c'
    = <["wasi_unstable"%string := "wasi_snapshot_preview1"%string]>
        (ModuleConfig.replacedImportModules_of
           (ModuleConfig.NewModuleConfig ModuleConfig.empty_heap).1
           (ModuleConfig.NewModuleConfig ModuleConfig.empty_heap).2).
Proof.
  destruct (WithImportModule_upsert
              (ModuleConfig.NewModuleConfig ModuleConfig.empty_heap).1
              (ModuleConfig.NewModuleConfig ModuleConfig.empty_heap).2
              "wasi_unstable" "wasi_snapshot_preview1")
    as (h' & c' & Heq & Hup & _).
  - intros l Hl. discriminate.
  - exists h', c'. split; [exact Heq | exact Hup].
Defined.

(** ** The keys of [replacedImports] *)

Section ImportKeys.
Import ModuleConfig ReplaceImports.

Lemma IndexByte_split (key : string) :
  0 <= IndexByte key NUL ->
  key = (String.substring 0 (Z.to_nat (IndexByte key NUL)) key
         ++ String NUL
              (String.substring (S (Z.to_nat (IndexByte key NUL)))
                 (String.length key - S (Z.to_nat (IndexByte key NUL))) key))%string /\
  IndexByte (String.substring 0 (Z.to_nat (IndexByte key NUL)) key) NUL = -1.
Proof.
  induction key as [|a k IH]; simpl; [lia |].
  destruct (Ascii.eqb a NUL) eqn:Ha.
  - intros _. apply Ascii.eqb_eq in Ha as ->. simpl.
    rewrite Nat.sub_0_r, substring_all. done.
  - destruct (Z.ltb_spec (IndexByte k NUL) 0) as [|Hge]; [lia |]. intros _.
    destruct (IH Hge) as [Hk Hno].
    replace (Z.to_nat (IndexByte k NUL + 1)) with (S (Z.to_nat (IndexByte k NUL)))
      by lia.
    simpl. rewrite Ha, Hno. simpl. split; [| done].
    exact (f_equal (String a) Hk).
Qed.

Lemma splitKey_Ok_inv (key oldModule oldName : string) :
  splitKey key = Ok (oldModule, oldName) ->
  key = importKey oldModule oldName /\ IndexByte oldModule NUL = -1.
Proof.
  unfold splitKey, slice_string, importKey. intros Hs.
  pose proof (IndexByte_bounds key NUL) as Hb.
  destruct (Z.leb_spec 0 (IndexByte key NUL)) as [Hge|]; simpl in Hs;
    [| discriminate].
  destruct (IndexByte_split key Hge) as [Hk Hno].
  repeat match type of Hs with
         | context [?a <=? ?b] => destruct (Z.leb_spec a b); simpl in Hs; try lia
         end.
  injection Hs as <- <-.
  rewrite Z.sub_0_r. simpl Z.to_nat.
  replace (Z.to_nat (IndexByte key NUL + 1)) with (S (Z.to_nat (IndexByte key NUL)))
    by lia.
  replace (Z.to_nat (Z.of_nat (String.length key) - (IndexByte key NUL + 1)))
    with (String.length key - S (Z.to_nat (IndexByte key NUL)))%nat by lia.
  done.
Qed.

(** X16: which imports a replacement of [WithImport] rewrites.  The key
    that [WithImport] builds for an old module and name is read back by
    the loop of [replaceImports] as the pair before and after its first
    NUL: the loop body never panics on it, and copies an import with the new
    module and name exactly when the import has that pair as module and
    name.  The pair is the old module and name when the old module has no
    NUL; when it has one, the pair is another, and imports with the old
    module and name are left alone. *)
Theorem replaceImport_matches_first_NUL (oldModule oldName : string)
    (newImport : string * string) (imp : Import_.t) :
  exists m n,
    importKey oldModule oldName = importKey m n /\
    IndexByte m NUL = -1 /\
    (IndexByte oldModule NUL = -1 -> m = oldModule /\ n = oldName) /\
    (0 <= IndexByte oldModule NUL -> m <> oldModule) /\
    replaceImport (importKey oldModule oldName) newImport imp
    = Ok (if decide (Import_.Module_ imp = m /\ Import_.Name imp = n)
          then Some (set_Module_Name imp (fst newImport) (snd newImport))
          else None).
Proof.
  destruct (splitKey_total (importKey oldModule oldName)
              (IndexByte_importKey oldModule oldName)) as (m & n & Hs).
  destruct (splitKey_Ok_inv _ _ _ Hs) as [Hk Hno].
  exists m, n. split_and!; [done | done | | |].
  - intros Hold. rewrite (splitKey_importKey _ _ Hold) in Hs. by simplify_eq.
  - intros Hold ->. lia.
  - unfold replaceImport. unfold splitKey in Hs.
    destruct (slice_string _ 0 _) as [om| |]; simpl in *; try discriminate.
    destruct (slice_string _ _ _) as [on| |]; simpl in *; try discriminate.
    simplify_eq. by case_decide.
Qed.

End ImportKeys.

(** ** ModuleConfig: the preopened file systems *)

Section PreopensFacts.
Import ModuleConfig.

Lemma preopens_wf_NewModuleConfig (h : heap) :
  preopens_wf (NewModuleConfig h).1 (NewModuleConfig h).2.
Proof.
  unfold preopens_wf, preopens_of, preopenPaths_of. simpl.
  rewrite !lookup_insert_eq. simpl.
  split_and!; try done; try lia.
  - eexists _, _. split; [reflexivity |]. by rewrite lookup_insert_eq.
  - eexists _, _. split; [reflexivity |]. by rewrite lookup_insert_eq.
Qed.

(** X17: [setFS] is an upsert that keeps one file descriptor per path.
    On a configuration whose preopen maps are consistent and whose next
    descriptor is not the last [uint32]: the entry of a path that is
    already set is replaced under the descriptor it has, and the next
    descriptor stays; a new path gets the next descriptor, which is then
    incremented; the maps stay consistent, and the environment and the
    import replacements are untouched. *)
Theorem setFS_upsert (h : heap) (c : moduleConfig) (path : string) (fs : Handle) :
  preopens_wf h c ->
  preopenFD c + 1 < 2 ^ 32 ->
  exists h' c',
    setFS h c path fs = (h', Ok c') /\
    preopens_of h' c'
    = <[default (preopenFD c) (preopenPaths_of h c !! path)
        := {| Path := path; FS := fs |}]> (preopens_of h c) /\
    preopenPaths_of h' c'
    = <[path := default (preopenFD c) (preopenPaths_of h c !! path)]>
        (preopenPaths_of h c) /\
    preopenFD c'
    = match preopenPaths_of h c !! path with
      | Some _ => preopenFD c
      | None => preopenFD c + 1
      end /\
    preopens_wf h' c' /\
    environ_of h' c' = environ_of h c /\
    environKeys_of h' c' = environKeys_of h c /\
    replacedImports_of h' c' = replacedImports_of h c /\
    replacedImportModules_of h' c' = replacedImportModules_of h c.
Proof.
  intros ((po & mo & Hpo & Hmo) & (pp & mp & Hpp & Hmp) & Hfwd & Hbwd & Hfd) Hnext.
  unfold preopens_of, preopenPaths_of in Hfwd, Hbwd.
  rewrite Hpo, Hpp in Hfwd, Hbwd. simpl in Hfwd, Hbwd.
  rewrite Hmo, Hmp in Hfwd, Hbwd. simpl in Hfwd, Hbwd.
  unfold setFS, preopens_wf, preopens_of, preopenPaths_of, environ_of,
    environKeys_of, replacedImports_of, replacedImportModules_of.
  rewrite Hpo, Hpp. simpl. rewrite Hmo, Hmp. simpl.
  destruct (mp !! path) as [fd|] eqn:Hpath; simpl.
  - eexists _, _. split; [reflexivity |]. simpl.
    rewrite Hpo, Hpp. simpl. rewrite lookup_insert_eq, Hmp. simpl.
    destruct (Hfwd path fd Hpath) as (Hlt & e0 & He0 & Hpath0).
    split_and!; try done; try lia.
    + by rewrite insert_id.
    + eexists _, _. split; [reflexivity |]. by rewrite ?lookup_insert_eq.
    + eexists _, _. split; [reflexivity |]. by rewrite ?lookup_insert_eq.
    + intros path' fd' Hp'. destruct (Hfwd path' fd' Hp') as (Hlt' & e' & He' & Hpe').
      split; [done |]. destruct (decide (fd' = fd)) as [->|Hne].
      * exists {| Path := path; FS := fs |}. rewrite lookup_insert_eq.
        split; [done |]. simpl. congruence.
      * exists e'. by rewrite lookup_insert_ne.
    + intros fd' e'. destruct (decide (fd' = fd)) as [->|Hne].
      * rewrite lookup_insert_eq. intros [= <-]. done.
      * rewrite lookup_insert_ne by done. apply Hbwd.
  - rewrite Hmp. simpl.
    eexists _, _. split; [reflexivity |]. simpl.
    rewrite Hpo, Hpp. simpl. rewrite !lookup_insert_eq. simpl.
    assert (Hu : uint32 (preopenFD c + 1) = preopenFD c + 1).
    { apply uint32_small. lia. }
    split_and!; try done; try lia.
    + eexists _, _. split; [reflexivity |]. by rewrite ?lookup_insert_eq.
    + eexists _, _. split; [reflexivity |]. by rewrite ?lookup_insert_eq.
    + intros path' fd'. destruct (decide (path' = path)) as [->|Hne].
      * rewrite lookup_insert_eq. intros [= <-]. split; [lia |].
        exists {| Path := path; FS := fs |}. by rewrite lookup_insert_eq.
      * rewrite lookup_insert_ne by done. intros Hp'.
        destruct (Hfwd path' fd' Hp') as (Hlt' & e' & He' & Hpe').
        split; [lia |]. exists e'. rewrite lookup_insert_ne by lia. done.
    + intros fd' e'. destruct (decide (fd' = preopenFD c)) as [->|Hne].
      * rewrite lookup_insert_eq. intros [= <-]. simpl.
        by rewrite lookup_insert_eq.
      * rewrite lookup_insert_ne by done. intros He'.
        pose proof (Hbwd fd' e' He') as Hp'.
        rewrite lookup_insert_ne; [done |]. intros Heq. congruence.
Qed.

End PreopensFacts.

(** [WithFS] on a new configuration. *)
Lemma setFS_upsert_witness :
  exists h' c',
    ModuleConfig.setFS (ModuleConfig.NewModuleConfig ModuleConfig.empty_heap).1
      (ModuleConfig.NewModuleConfig ModuleConfig.empty_heap).2
      "/" (Some 1%positive) = (h', Ok c') /\
    preopens_wf h' c'.
Proof.
  destruct (setFS_upsert
              (ModuleConfig.NewModuleConfig ModuleConfig.empty_heap).1
              (ModuleConfig.NewModuleConfig ModuleConfig.empty_heap).2
              "/" (Some 1%positive))
    as (h' & c' & Heq & _ & _ & _ & Hwf & _).
  - apply preopens_wf_NewModuleConfig.
  - vm_compute. reflexivity.
  - exists h', c'. split; [exact Heq | exact Hwf].
Defined.

(** ** ModuleConfig: the environment *)

Section EnvironFacts.
Import ModuleConfig.
Variable growcap : nat -> nat -> nat.

Lemma length_environ_of (h : heap) (c : moduleConfig) :
  slice_wf h (environ c) -> length (environ_of h c) = len (environ c).
Proof.
  unfold slice_wf, environ_of.
  destruct (arr (environ c)) as [a|].
  - intros (l & -> & Hl & Hle). simpl. rewrite length_take. lia.
  - intros [-> _]. done.
Qed.

Lemma environ_wf_NewModuleConfig (h : heap) :
  environ_wf (NewModuleConfig h).1 (NewModuleConfig h).2.
Proof.
  unfold environ_wf, slice_wf, environKeys_of, environ_of. simpl.
  rewrite !lookup_insert_eq. simpl.
  split_and!; try done.
  - eexists _, _. split; [reflexivity |]. by rewrite lookup_insert_eq.
  - by exists 0%nat.
  - intros k i. rewrite lookup_empty. split; [done | by intros [_ ?]].
Qed.

Lemma take_insert2 (l : list string) (n : nat) (k v : string) :
  (n + 2 <= length l)%nat ->
  take (n + 2) (<[S n := v]> (<[n := k]> l)) = take n l ++ [k; v].
Proof.
  intros Hl. apply list_eq. intros i.
  destruct (decide (i < n)%nat) as [Hlt|Hge].
  - rewrite lookup_take_lt by lia.
    rewrite !list_lookup_insert_ne by lia.
    rewrite lookup_app_l by (rewrite length_take; lia).
    by rewrite lookup_take_lt by lia.
  - rewrite lookup_app_r by (rewrite length_take; lia).
    rewrite length_take. replace (n `min` length l)%nat with n by lia.
    destruct (decide (i = n)) as [->|Hn].
    + rewrite lookup_take_lt by lia.
      rewrite list_lookup_insert_ne by lia.
      rewrite list_lookup_insert_eq by lia.
      by rewrite Nat.sub_diag.
    + destruct (decide (i = S n)) as [->|Hn'].
      * rewrite lookup_take_lt by lia.
        rewrite list_lookup_insert_eq by (rewrite length_insert; lia).
        by replace (S n - n)%nat with 1%nat by lia.
      * rewrite lookup_take_ge by lia.
        destruct (i - n)%nat as [|[|m]] eqn:Hm; [lia | lia | done].
Qed.

Lemma append2_spec (h : heap) (s : slice) (k v : string) :
  slice_wf h s ->
  exists h' s',
    append2 growcap h s k v = (h', Ok s') /\
    slice_wf h' s' /\
    len s' = (len s + 2)%nat /\
    slice_view h' s' = slice_view h s ++ [k; v] /\
    environKeysH h' = environKeysH h /\
    preopensH h' = preopensH h /\
    preopenPathsH h' = preopenPathsH h /\
    replacedImportsH h' = replacedImportsH h /\
    replacedImportModulesH h' = replacedImportModulesH h.
Proof.
  intros Hsl. unfold append2, slice_wf, slice_view in *.
  destruct (Nat.leb_spec (len s + 2) (cap s)) as [Hfit|Hgrow].
  - destruct (arr s) as [a|] eqn:Harr; [| lia].
    destruct Hsl as (l & Hl & Hcap & Hle). simpl. rewrite Hl. simpl.
    eexists _, _. split; [reflexivity |]. simpl.
    rewrite lookup_insert_eq. simpl.
    split_and!; try done.
    + eexists. split; [reflexivity |]. rewrite !length_insert. lia.
    + apply take_insert2. lia.
  - eexists _, _. split; [reflexivity |]. simpl.
    rewrite lookup_insert_eq. simpl.
    set (old := match arr s with
                | Some a => take (len s) (default [] (arrays h !! a))
                | None => []
                end).
    assert (Hold : length old = len s).
    { subst old. destruct (arr s) as [a|].
      - destruct Hsl as (l & -> & Hcap & Hle). simpl. rewrite length_take. lia.
      - by destruct Hsl as [-> _]. }
    split_and!; try done.
    + eexists. split; [reflexivity |].
      rewrite length_app, Hold. simpl. rewrite length_replicate. lia.
    + change (old ++ k :: v :: ?r) with (old ++ [k; v] ++ r).
      rewrite (app_assoc old [k; v]).
      rewrite take_app_le by (rewrite length_app, Hold; simpl; lia).
      rewrite take_ge by (rewrite length_app, Hold; simpl; lia). done.
Qed.

(** X18: [WithEnv] is an upsert that keeps the order of the keys.  On a
    configuration whose environment is consistent, it does not panic: a key
    that is already set keeps its place and gets the new value, a new key
    is appended with its value after the pairs that are there; the
    environment stays consistent, and the preopens and the import
    replacements are untouched. *)
Theorem WithEnv_upsert (h : heap) (c : moduleConfig) (key value : string) :
  environ_wf h c ->
  exists h' c',
    WithEnv growcap h c key value = (h', Ok c') /\
    environ_of h' c'
    = match environKeys_of h c !! key with
      | Some i => <[S i := value]> (environ_of h c)
      | None => environ_of h c ++ [key; value]
      end /\
    environ_wf h' c' /\
    preopens_of h' c' = preopens_of h c /\
    preopenPaths_of h' c' = preopenPaths_of h c /\
    replacedImports_of h' c' = replacedImports_of h c /\
    replacedImportModules_of h' c' = replacedImportModules_of h c.
Proof.
  intros ((ek & keys & Hek & Hkeys) & Hsl & Heven & Hidx).
  pose proof (length_environ_of h c Hsl) as Hlen.
  unfold environKeys_of in Hidx. rewrite Hek in Hidx. simpl in Hidx.
  rewrite Hkeys in Hidx. simpl in Hidx.
  unfold WithEnv. rewrite Hek, Hkeys.
  unfold environKeys_of at 1. rewrite Hek. simpl. rewrite Hkeys. simpl.
  destruct (keys !! key) as [i|] eqn:Hkey.
  - destruct (proj1 (Hidx key i) Hkey) as [Hi Hat].
    pose proof (lookup_lt_Some _ _ _ Hat) as Hlt. rewrite Hlen in Hlt.
    assert (Hlt' : (i + 1 < len (environ c))%nat).
    { destruct Hi as [a ->], Heven as [b Hb]. lia. }
    destruct (Nat.ltb_spec (i + 1) (len (environ c))) as [_|]; [| lia].
    unfold slice_wf in Hsl. unfold environ_of in Hat |- *.
    destruct (arr (environ c)) as [a|] eqn:Harr; [| lia].
    destruct Hsl as (l & Hl & Hcap & Hle). simpl. rewrite Hl in Hat |- *. simpl in *.
    eexists _, _. split; [reflexivity |].
    unfold environ_wf, slice_wf, environ_of, environKeys_of, preopens_of,
      preopenPaths_of, replacedImports_of, replacedImportModules_of.
    simpl. rewrite Harr, Hek. simpl. rewrite lookup_insert_eq, Hkeys. simpl.
    replace (i + 1)%nat with (S i) by lia.
    assert (Htake : take (len (environ c)) (<[S i := value]> l)
                    = <[S i := value]> (take (len (environ c)) l)).
    { by rewrite take_insert_lt by lia. }
    split_and!; try done.
    + eauto.
    + exists (<[S i := value]> l). rewrite length_insert. done.
    + intros k i'. rewrite Hidx, Htake. unfold environ_of. rewrite Harr, Hl. simpl.
      split; intros [Hev Hk]; (split; [done |]);
        (rewrite list_lookup_insert_ne in * by
           (destruct Hev as [x ->], Hi as [y ->]; lia)); done.
  - set (h1 := set_environKeysH h _).
    assert (Hsl1 : slice_wf h1 (environ c)) by exact Hsl.
    destruct (append2_spec h1 (environ c) key value Hsl1)
      as (h' & s' & Heq & Hsl' & Hlen' & Hview & Hek' & Hpo' & Hpp' & Hri' & Hrm').
    rewrite Heq. exists h', (set_environ c s').
    split; [reflexivity |].
    assert (Henv : environ_of h' (set_environ c s') = environ_of h c ++ [key; value])
      by exact Hview.
    split; [exact Henv |].
    unfold environ_wf, environKeys_of, preopens_of, preopenPaths_of,
      replacedImports_of, replacedImportModules_of.
    rewrite Henv, Hek', Hpo', Hpp', Hri', Hrm'. simpl.
    rewrite Hek. simpl. rewrite lookup_insert_eq. simpl.
    split_and!; try done.
    + eexists _, _. split; [reflexivity |]. by rewrite lookup_insert_eq.
    + rewrite Hlen'. destruct Heven as [b ->]. exists (S b). lia.
    + intros k i. destruct (decide (k = key)) as [->|Hne].
      * rewrite lookup_insert_eq. split.
        -- intros [= <-]. split; [done |].
           rewrite lookup_app_r by lia. by rewrite Hlen, Nat.sub_diag.
        -- intros [Hev Hk]. f_equal.
           apply lookup_app_Some in Hk as [Hk|[Hge Hk]].
           ++ pose proof (proj2 (Hidx key i) (conj Hev Hk)). congruence.
           ++ rewrite Hlen in Hge, Hk.
              destruct (i - len (environ c))%nat as [|[|n]] eqn:Hd;
                simpl in Hk; [lia | | done].
              destruct Hev as [x ->], Heven as [y Hy]. lia.
      * rewrite lookup_insert_ne by done. rewrite Hidx. split.
        -- intros [Hev Hk]. split; [done |]. by apply lookup_app_l_Some.
        -- intros [Hev Hk]. split; [done |].
           apply lookup_app_Some in Hk as [Hk|[Hge Hk]]; [done |].
           rewrite Hlen in Hk.
           destruct (i - len (environ c))%nat as [|[|n]] eqn:Hd;
             simpl in Hk; [congruence | | done].
           rewrite Hlen in Hge.
           destruct Hev as [x ->], Heven as [y Hy]. lia.
Qed.

End EnvironFacts.

(** The first [WithEnv] on a new configuration. *)
Lemma WithEnv_upsert_witness :
  exists h' c',
    ModuleConfig.WithEnv (fun _ n => n)
      (ModuleConfig.NewModuleConfig ModuleConfig.empty_heap).1
      (ModuleConfig.NewModuleConfig ModuleConfig.empty_heap).2 "a" "b"
    = (h', Ok c') /\
    environ_wf h' c'.
Proof.
  destruct (WithEnv_upsert (fun _ n => n)
              (ModuleConfig.NewModuleConfig ModuleConfig.empty_heap).1
              (ModuleConfig.NewModuleConfig ModuleConfig.empty_heap).2 "a" "b")
    as (h' & c' & Heq & _ & Hwf & _).
  - apply environ_wf_NewModuleConfig.
  - exists h', c'. split; [exact Heq | exact Hwf].
Defined.

(** ** [toSysContext] *)

Section ToSysContextFacts.
Import ModuleConfig ToSysContext.
Context {A : Type}.
Variable NewSysContext :
  Z -> list string -> list string -> Handle -> Handle -> Handle ->
  option loc -> heap -> A.
Variable range_preopens : gmap Z FileEntry -> list (Z * FileEntry).

Lemma key_ok_dec (p : string * string) : {key_ok p} + {~ key_ok p}.
Proof.
  unfold key_ok. destruct (decide (p.1 = ""%string)) as [He|Hne].
  - right. by intros [? _].
  - destruct (has_equals p.1); [right | left]; [by intros [_ ?] | done].
Qed.

Lemma length_zero_empty (k : string) :
  (String.length k =? 0)%nat = true <-> k = ""%string.
Proof. destruct k; simpl; split; done. Qed.

Lemma check_environ_ok (ps : list (string * string)) (acc : list string) :
  Forall key_ok ps ->
  check_environ (flat_pairs ps) acc = SysReturn (acc ++ map environ_entry ps).
Proof.
  intros Hall. revert acc.
  induction Hall as [|[k v] ps [Hne Heq] _ IH]; intros acc; simpl.
  - by rewrite app_nil_r.
  - simpl in *. destruct (String.length k =? 0)%nat eqn:Hl.
    { apply length_zero_empty in Hl. done. }
    rewrite Heq. fold (flat_pairs ps). rewrite IH, <- app_assoc. done.
Qed.

Lemma check_environ_bad (ps : list (string * string)) (acc : list string)
    (i : nat) (p : string * string) :
  ps !! i = Some p ->
  Forall key_ok (take i ps) ->
  ~ key_ok p ->
  check_environ (flat_pairs ps) acc
  = SysErr (if decide (fst p = ""%string) then ErrEnvironEmptyKey
            else ErrEnvironKeyEquals).
Proof.
  revert acc i. induction ps as [|[k v] ps IH]; intros acc i Hi Hpre Hbad;
    [done |].
  destruct i as [|i]; simpl in Hi.
  - simplify_eq. simpl. unfold key_ok in Hbad. simpl in Hbad.
    destruct (String.length k =? 0)%nat eqn:Hl.
    + apply length_zero_empty in Hl. by rewrite decide_True.
    + assert (Hk : k <> ""%string).
      { intros ->. done. }
      rewrite decide_False by done.
      destruct (has_equals k); [done |]. by destruct Hbad.
  - simpl in Hpre. inversion Hpre as [|? ? [Hne Heq] Hpre']; subst. simpl in *.
    destruct (String.length k =? 0)%nat eqn:Hl.
    { apply length_zero_empty in Hl. done. }
    rewrite Heq. fold (flat_pairs ps). by apply (IH _ i).
Qed.

(** X19: the environment [toSysContext] passes on.  For a configuration
    whose environment holds the pairs [ps]: the first pair whose key is
    empty or has a ['='] makes [toSysContext] return the error for it and
    leave the heap alone; and when every key is accepted and
    [toSysContext] returns what [NewSysContext] returns, it has called it
    with the maximum [uint32], the arguments, the strings [key=value] of
    the pairs in order, the three streams and the preopen map of the
    configuration. *)
Theorem toSysContext_environ (h : heap) (c : moduleConfig)
    (ps : list (string * string)) :
  environ_of h c = flat_pairs ps ->
  (forall i p, ps !! i = Some p -> Forall key_ok (take i ps) -> ~ key_ok p ->
     toSysContext NewSysContext range_preopens h c
     = (h, SysErr (if decide (fst p = ""%string) then ErrEnvironEmptyKey
                   else ErrEnvironKeyEquals))) /\
  (Forall key_ok ps ->
   forall h' r,
     toSysContext NewSysContext range_preopens h c = (h', SysReturn r) ->
     r = NewSysContext (2 ^ 32 - 1) (args c) (map environ_entry ps)
           (stdin c) (stdout c) (stderr c) (preopens c) h').
Proof.
  intros Henv. unfold toSysContext. rewrite Henv. split.
  - intros i p Hi Hpre Hbad.
    by rewrite (check_environ_bad ps [] i p Hi Hpre Hbad).
  - intros Hall h' r. rewrite (check_environ_ok ps [] Hall). simpl.
    intros Hr. repeat case_match; by simplify_eq.
Qed.

Lemma scan_preopens_ok (es : list (Z * FileEntry)) (rootFD : Z) (set : bool) :
  (forall fd e, (fd, e) ∈ es -> FS e <> None) ->
  exists rootFD' set',
    scan_preopens es rootFD set = SysReturn (rootFD', set') /\
    (set' = true <->
     set = true \/ exists fd e, (fd, e) ∈ es /\ Path e = "."%string) /\
    ((rootFD' = rootFD /\ forall fd e, (fd, e) ∈ es -> Path e <> "/"%string) \/
     (exists e, (rootFD', e) ∈ es /\ Path e = "/"%string)).
Proof.
  revert rootFD set. induction es as [|[fd e] es IH]; intros rootFD set Hfs.
  - exists rootFD, set. simpl. split_and!; [done | | left].
    + split; [by left |]. intros [? | (? & ? & Hin & _)]; [done |].
      by apply elem_of_nil in Hin.
    + split; [done |]. intros ? ? Hin. by apply elem_of_nil in Hin.
  - assert (Hfs' : forall fd' e', (fd', e') ∈ es -> FS e' <> None).
    { intros fd' e' Hin. apply (Hfs fd'). by right. }
    simpl. destruct (FS e) as [fs|] eqn:Hfse.
    2: { exfalso. by apply (Hfs fd e ltac:(by left)). }
    destruct (String.eqb_spec (Path e) "/") as [Hroot|Hnroot].
    + destruct (IH fd set Hfs') as (r' & s' & Heq & Hset & Hr).
      exists r', s'. split_and!; [done | |].
      * rewrite Hset. split.
        -- intros [? | (fd' & e' & Hin & Hp)]; [by left |].
           right. exists fd', e'. split; [by right | done].
        -- intros [? | (fd' & e' & Hin & Hp)]; [by left |].
           apply elem_of_cons in Hin as [[= -> ->] | Hin]; [congruence |].
           right. by exists fd', e'.
      * right. destruct Hr as [[-> _] | (e' & Hin & Hp)].
        -- exists e. split; [by left | done].
        -- exists e'. split; [by right | done].
    + destruct (String.eqb_spec (Path e) ".") as [Hdot|Hndot].
      * destruct (IH rootFD true Hfs') as (r' & s' & Heq & Hset & Hr).
        exists r', s'. split_and!; [done | |].
        -- rewrite Hset. split; [| intros _; by left].
           intros _. right. exists fd, e. split; [by left | done].
        -- destruct Hr as [[-> Hno] | (e' & Hin & Hp)].
           ++ left. split; [done |]. intros fd' e' Hin.
              apply elem_of_cons in Hin as [[= -> ->] | Hin]; [done |].
              by apply (Hno fd').
           ++ right. exists e'. split; [by right | done].
      * destruct (IH rootFD set Hfs') as (r' & s' & Heq & Hset & Hr).
        exists r', s'. split_and!; [done | |].
        -- rewrite Hset. split.
           ++ intros [? | (fd' & e' & Hin & Hp)]; [by left |].
              right. exists fd', e'. split; [by right | done].
           ++ intros [? | (fd' & e' & Hin & Hp)]; [by left |].
              apply elem_of_cons in Hin as [[= -> ->] | Hin]; [done |].
              right. by exists fd', e'.
        -- destruct Hr as [[-> Hno] | (e' & Hin & Hp)].
           ++ left. split; [done |]. intros fd' e' Hin.
              apply elem_of_cons in Hin as [[= -> ->] | Hin]; [done |].
              by apply (Hno fd').
           ++ right. exists e'. split; [by right | done].
Qed.

Lemma scan_preopens_nil (es : list (Z * FileEntry)) (rootFD : Z) (set : bool) :
  (exists fd e, (fd, e) ∈ es /\ FS e = None) ->
  exists fd e, (fd, e) ∈ es /\ FS e = None /\
    scan_preopens es rootFD set = SysErr (ErrFSNil (Path e)).
Proof.
  revert rootFD set. induction es as [|[fd e] es IH]; intros rootFD set Hex.
  { destruct Hex as (? & ? & Hin & _). by apply elem_of_nil in Hin. }
  simpl. destruct (FS e) as [fs|] eqn:Hfse.
  - assert (Hex' : exists fd' e', (fd', e') ∈ es /\ FS e' = None).
    { destruct Hex as (fd' & e' & Hin & Hnil).
      apply elem_of_cons in Hin as [[= -> ->] | Hin]; [congruence |].
      by exists fd', e'. }
    repeat case_match;
      match goal with
      | |- context [scan_preopens es ?r ?b] =>
          destruct (IH r b Hex') as (fd' & e' & Hin & Hnil & ->)
      end;
      exists fd', e'; (split_and!; [by right | done | done]).
  - exists fd, e. split_and!; [by left | done | done].
Qed.

Hypothesis range_preopens_perm :
  forall m, range_preopens m ≡ₚ map_to_list m.

Lemma elem_of_range_preopens (m : gmap Z FileEntry) (fd : Z) (e : FileEntry) :
  (fd, e) ∈ range_preopens m <-> m !! fd = Some e.
Proof. by rewrite range_preopens_perm, elem_of_map_to_list. Qed.

(** X20: the default working directory.  For a configuration whose
    environment is accepted and whose preopened entries all have a file
    system, with at most one descriptor for the path "/" and none that is
    0, [toSysContext] does not fail, whatever the order in which the map is
    visited: when "/" is preopened and "." is not, it adds to the preopen
    map of the configuration an entry for "." with the file system of
    "/", under the next descriptor, and calls [NewSysContext] with the map
    so extended; when "/" is not preopened or "." is, the heap stays as it
    is. *)
Theorem toSysContext_default_workdir (h : heap) (c : moduleConfig)
    (environ : list string) (po : loc) (m : gmap Z FileEntry) :
  check_environ (environ_of h c) [] = SysReturn environ ->
  preopens c = Some po ->
  preopensH h !! po = Some m ->
  (forall fd e, m !! fd = Some e -> FS e <> None) ->
  (forall fd1 fd2 e1 e2, m !! fd1 = Some e1 -> m !! fd2 = Some e2 ->
     Path e1 = "/"%string -> Path e2 = "/"%string -> fd1 = fd2) ->
  m !! 0 = None ->
  exists h',
    toSysContext NewSysContext range_preopens h c
    = (h', SysReturn (NewSysContext (2 ^ 32 - 1) (args c) environ (stdin c)
                        (stdout c) (stderr c) (Some po) h')) /\
    (forall fd root, m !! fd = Some root -> Path root = "/"%string ->
       (forall fd' e', m !! fd' = Some e' -> Path e' <> "."%string) ->
       h' = set_preopensH h
              (<[po := <[preopenFD c := {| Path := "."; FS := FS root |}]> m]>
                 (preopensH h))) /\
    ((forall fd e, m !! fd = Some e -> Path e <> "/"%string) \/
     (exists fd e, m !! fd = Some e /\ Path e = "."%string) ->
     h' = h).
Proof.
  intros Henv Hpo Hm Hfs Huniq Hzero.
  unfold toSysContext. rewrite Henv. unfold preopens_of.
  rewrite Hpo. simpl. rewrite Hm. simpl.
  destruct (scan_preopens_ok (range_preopens m) 0 false)
    as (rootFD & set & -> & Hset & Hroot).
  { intros fd e Hin. apply elem_of_range_preopens in Hin. by apply (Hfs fd). }
  assert (Hset' : set = true <-> exists fd e, m !! fd = Some e /\ Path e = "."%string).
  { rewrite Hset. split.
    - intros [? | (fd & e & Hin & Hp)]; [done |].
      exists fd, e. by rewrite <- elem_of_range_preopens.
    - intros (fd & e & Hin & Hp). right. exists fd, e.
      by rewrite elem_of_range_preopens. }
  destruct Hroot as [[-> Hnoroot] | (root & Hin & Hp)].
  - simpl. eexists. split; [reflexivity |]. split; [| done].
    intros fd root Hfd Hpath _. exfalso.
    apply (Hnoroot fd root); [by apply elem_of_range_preopens | done].
  - apply elem_of_range_preopens in Hin.
    assert (Hnz : rootFD <> 0) by (intros ->; congruence).
    destruct (Z.eqb_spec rootFD 0) as [|_]; [done |]. simpl.
    destruct set; simpl.
    + eexists. split; [reflexivity |]. split; [| done].
      intros fd root' Hfd Hpath Hnodot. exfalso.
      destruct (proj1 Hset' eq_refl) as (fd' & e' & Hfd' & Hp').
      by apply (Hnodot fd' e').
    + rewrite Hin. eexists. split; [reflexivity |]. split.
      * intros fd root' Hfd Hpath _.
        assert (fd = rootFD) by (by eapply Huniq). subst fd.
        by simplify_eq.
      * intros [Hno | Hdot].
        -- exfalso. by apply (Hno rootFD root).
        -- apply Hset' in Hdot. done.
Qed.

(** X21: a preopened entry without a file system is refused.  For a
    configuration whose environment is accepted: when some entry of the
    preopen map has a nil file system, [toSysContext] returns the error
    that names the path of such an entry, and leaves the heap alone. *)
Theorem toSysContext_nil_FS (h : heap) (c : moduleConfig)
    (environ : list string) :
  check_environ (environ_of h c) [] = SysReturn environ ->
  (exists fd e, preopens_of h c !! fd = Some e /\ FS e = None) ->
  exists fd e,
    preopens_of h c !! fd = Some e /\ FS e = None /\
    toSysContext NewSysContext range_preopens h c
    = (h, SysErr (ErrFSNil (Path e))).
Proof.
  intros Henv (fd & e & Hfd & Hnil).
  unfold toSysContext. rewrite Henv.
  destruct (scan_preopens_nil (range_preopens (preopens_of h c)) 0 false)
    as (fd' & e' & Hin & Hnil' & ->).
  { exists fd, e. by rewrite elem_of_range_preopens. }
  exists fd', e'. by rewrite <- elem_of_range_preopens.
Qed.

End ToSysContextFacts.

(** An empty key is refused. *)
Lemma toSysContext_environ_witness :
  ToSysContext.toSysContext example_NewSysContext example_range_preopens
    example_empty_key_config.1 example_empty_key_config.2
  = (example_empty_key_config.1,
     ToSysContext.SysErr
       (if decide (fst (""%string, "x"%string) = ""%string)
        then ToSysContext.ErrEnvironEmptyKey
        else ToSysContext.ErrEnvironKeyEquals)).
Proof.
  refine (proj1 (toSysContext_environ example_NewSysContext
                   example_range_preopens example_empty_key_config.1
                   example_empty_key_config.2 [(""%string, "x"%string)] _)
            0%nat _ eq_refl _ _).
  - vm_compute. reflexivity.
  - constructor.
  - intros [Hne _]. by apply Hne.
Defined.

(** With "/" preopened under descriptor 3 and the next descriptor 4, the
    working directory gets descriptor 4 and the file system of "/". *)
Lemma toSysContext_default_workdir_witness :
  exists h',
    ToSysContext.toSysContext example_NewSysContext example_range_preopens
      (example_root_heap (Some 1%positive)) example_root_config
    = (h', ToSysContext.SysReturn []) /\
    ModuleConfig.preopens_of h' example_root_config !! 4
    = Some {| ModuleConfig.Path := "."; ModuleConfig.FS := Some 1%positive |}.
Proof.
  destruct (toSysContext_default_workdir example_NewSysContext
              example_range_preopens (fun m => Permutation_refl _)
              (example_root_heap (Some 1%positive)) example_root_config [] 1%positive
              {[3 := {| ModuleConfig.Path := "/";
                        ModuleConfig.FS := Some 1%positive |}]} eq_refl eq_refl)
    as (h' & Heq & Hadd & _).
  - apply lookup_singleton_eq.
  - intros fd e Hl. apply lookup_singleton_Some in Hl as [_ <-]. done.
  - intros fd1 fd2 e1 e2 H1 H2 _ _.
    apply lookup_singleton_Some in H1 as [<- _].
    by apply lookup_singleton_Some in H2 as [<- _].
  - by apply lookup_singleton_ne.
  - exists h'. split; [exact Heq |].
    rewrite (Hadd 3 _ (lookup_singleton_eq _ _) eq_refl).
    + unfold ModuleConfig.preopens_of. simpl.
      rewrite lookup_insert_eq. simpl. apply lookup_insert_eq.
    + intros fd' e' Hl. apply lookup_singleton_Some in Hl as [_ <-]. done.
Defined.

(** [WithFS(nil)] is refused when the system context is built. *)
Lemma toSysContext_nil_FS_witness :
  exists fd e,
    ModuleConfig.preopens_of (example_root_heap None) example_root_config !! fd
    = Some e /\
    ModuleConfig.FS e = None /\
    ToSysContext.toSysContext example_NewSysContext example_range_preopens
      (example_root_heap None) example_root_config
    = (example_root_heap None,
       ToSysContext.SysErr (ToSysContext.ErrFSNil (ModuleConfig.Path e))).
Proof.
  apply (toSysContext_nil_FS example_NewSysContext example_range_preopens
           (fun m => Permutation_refl _) (example_root_heap None)
           example_root_config [] eq_refl).
  exists 3, {| ModuleConfig.Path := "/"; ModuleConfig.FS := None |}.
  split; [| done].
  unfold ModuleConfig.preopens_of. simpl.
  rewrite lookup_singleton_eq. simpl. apply lookup_singleton_eq.
Defined.

(** ** Replacements that do not chain *)

Section ReplaceByLookup.
Import ModuleConfig ReplaceImports.








Context `{MapRange}.




End ReplaceByLookup.


(** ** What [replaceImports] never touches *)

Section ReplaceImportsDesc.
Import ModuleConfig ReplaceImports.

Lemma foldl_rewriteModule_desc (ms : list (string * string)) (imp : Import_.t) :
  same_import_desc imp (foldl rewriteModule imp ms).
Proof.
  revert imp. induction ms as [|e ms IH]; intros imp; simpl.
  - by unfold same_import_desc.
  - specialize (IH (rewriteModule imp e)).
    unfold same_import_desc, rewriteModule in *.
    destruct (decide (Import_.Module_ imp = e.1)); simpl in *; done.
Qed.

Lemma foldl_rewriteImport_desc (is_ : list (string * (string * string)))
    (imp : Import_.t) :
  same_import_desc imp (foldl rewriteImport imp is_).
Proof.
  revert imp. induction is_ as [|e is_ IH]; intros imp; simpl.
  - by unfold same_import_desc.
  - specialize (IH (rewriteImport imp e)).
    unfold same_import_desc, rewriteImport in *.
    destruct (splitKey e.1) as [[om on]| |]; [| done | done].
    destruct (decide (Import_.Module_ imp = om /\ Import_.Name imp = on));
      simpl in *; done.
Qed.

(** X23: [replaceImports] rewrites modules and names only.  For a module
    whose pointers are valid and a configuration whose keys have their
    NUL, the module it returns has as many imports as the input, in the
    same order, each with the kind and the descriptors of the import in
    its place. *)
Theorem replaceImports_keeps_descriptors `{MapRange} (h : heap)
    (c : moduleConfig) (mh : mheap) (module : loc) (imports : list Import_.t) :
  imports_of mh module = Some imports ->
  keys_have_NUL h c ->
  exists mh' r imports',
    replaceImports h c mh module = (mh', Ok r) /\
    imports_of mh' r = Some imports' /\
    Forall2 same_import_desc imports imports'.
Proof.
  intros Himp Hkeys.
  destruct (replaceImports_spec h c mh module imports Himp Hkeys)
    as (mh' & r & Heq & _ & _ & _ & Hres & _).
  eexists mh', r, _. split_and!; [exact Heq | exact Hres |].
  apply Forall2_fmap_r, Forall_Forall2_diag, list.Forall_forall.
  intros imp _. unfold modules_then_imports.
  pose proof (foldl_rewriteModule_desc (range_ (replacedImportModules_of h c)) imp)
    as H1.
  pose proof (foldl_rewriteImport_desc (range_ (replacedImports_of h c))
                (foldl rewriteModule imp (range_ (replacedImportModules_of h c))))
    as H2.
  unfold same_import_desc in *.
  destruct H1 as (? & ? & ? & ? & ?), H2 as (? & ? & ? & ? & ?).
  split_and!; congruence.
Qed.

End ReplaceImportsDesc.

(** The example import stays an import of a function. *)
Lemma replaceImports_keeps_descriptors_witness :
  exists mh' r imports',
    @ReplaceImports.replaceImports example_MapRange example_config_heap
      example_config_value example_mheap 1%positive = (mh', Ok r) /\
    ReplaceImports.imports_of mh' r = Some imports' /\
    Forall2 same_import_desc [example_import "js" "increment"] imports'.
Proof.
  apply (@replaceImports_keeps_descriptors example_MapRange example_config_heap
           example_config_value example_mheap 1%positive
           [example_import "js" "increment"]).
  - vm_compute. reflexivity.
  - apply example_keys_have_NUL.
Defined.
